(** * TLB flush stress test (microsoft/testsuites/stress/tlb_flush_stress.c)

    A shallow embedding of the stress driver: the worker thread
    [tlb_flush_worker], the option parsing and the launch/join skeleton of
    [main].  System calls are answered by an explicit environment (one
    oracle per call site), the worker runs in a small state-and-error monad
    and leaves a chronological trace of what it did. *)

From Stdlib Require Import ZArith Lia Ascii String.
From stdpp Require Import base tactics option list gmap sets strings.
From Equations Require Import Equations.

Local Open Scope Z_scope.

(** ** Machine integers *)

(** [int] is 32 bits wide, [long] and [time_t] 64 bits; both signed. *)
Definition wrap (w : Z) (x : Z) : Z :=
  (x + 2 ^ (w - 1)) mod 2 ^ w - 2 ^ (w - 1).

Definition int32 (x : Z) : Z := wrap 32 x.
Definition long64 (x : Z) : Z := wrap 64 x.

(** The bit pattern of a [char], whatever its signedness. *)
Definition char8 (x : Z) : Z := x mod 256.

Definition LONG_MAX : Z := 9223372036854775807.
Definition LONG_MIN : Z := -9223372036854775808.

(** ** Constants of the program *)

Definition PAGE_SIZE : Z := 4096.
Definition DEFAULT_THREADS : Z := 4.
Definition DEFAULT_PAGES_PER_THREAD : Z := 1024.
Definition DEFAULT_DURATION_SECONDS : Z := 60.
Definition DEFAULT_ITERATIONS_PER_CYCLE : Z := 100.

(** ** Data model *)

Record thread_data := ThreadData {
  thread_id : Z;
  pages_per_thread : Z;
  duration_seconds : Z;
  iterations_per_cycle : Z;
  thread_tlb_flushes : Z
}.

(** One cell of the [memory_regions] table.  [malloc] does not initialise
    the table, so a cell that was never assigned holds [Uninit]; a mapping
    is named by the index of the [mmap] call that created it. *)
Inductive slot :=
| Uninit
| MAP_FAILED
| Region (r : nat).

#[global] Instance slot_eq_dec : EqDecision slot.
Proof. solve_decision. Defined.

(** Where [keep_running] is read. *)
Inductive site := AtCycle | AtMap | AtAccess | AtRelease.

(** Which loop calls [munmap]: the release phase or the cleanup after
    the cycle loop. *)
Inductive unmap_by := ByRelease | ByCleanup.

Inductive message :=
| MsgStarting (tid pages region_size : Z)
| MsgTableAllocFailed (tid : Z)
| MsgMmapFailed (tid i : Z)
| MsgMunmapFailed (tid i : Z)
| MsgCompleted (tid count : Z).

Inductive event :=
| EvStdout (m : message)
| EvStderr (m : message)
| EvMalloc (ok : bool)
| EvPoll (s : site) (b : bool)
| EvTime (t : Z)
| EvMmap (res : slot)
| EvStore (r : nat) (page : Z) (v : Z)
| EvLoad (r : nat) (page : Z) (v : Z)
| EvMunmap (by_ : unmap_by) (r : nat) (ok : bool)
| EvSleep (usec : Z)
| EvFree
| EvLock
| EvAddTotal (n : Z)
| EvUnlock.

(** What the outside world answers to one worker.  [clear_at = Some c]:
    the [c]-th read of [keep_running] (counting from 0) and all later ones
    see 0; nothing in the program ever sets the flag back to 1.
    [elapse k] is the real time, in microseconds, that passes before the
    [k]-th call of [time] on top of the time slept. *)
Record worker_env := WorkerEnv {
  malloc_ok : bool;
  clear_at : option nat;
  start_usec : Z;
  elapse : nat -> Z;
  mmap_ok : nat -> bool;
  munmap_ok : nat -> bool
}.

(** The state of one worker and of the world around it: the real-time
    clock in microseconds, how many answers of each oracle have been used
    ([polls], [ticks], [mmaps], [munmaps]), the table, the mappings the
    kernel holds for this worker, the first byte of each page that was
    written, [data->thread_tlb_flushes], and what happened so far. *)
Record wstate := WState {
  now : Z;
  polls : nat;
  ticks : nat;
  mmaps : nat;
  munmaps : nat;
  memory_regions : list slot;
  mapped : gset nat;
  pages : gmap (nat * Z) Z;
  flushes : Z;
  trace : list event
}.

(** How a computation ends: it returns, it reads a table cell that was
    never written (from there on C promises nothing), or the bound on
    the cycle loop is used up. *)
Inductive outcome (A : Type) :=
| Ok (a : A) (st : wstate)
| Undefined (st : wstate)
| OutOfFuel (st : wstate).
Arguments Ok {A} a st.
Arguments Undefined {A} st.
Arguments OutOfFuel {A} st.

Definition final {A} (o : outcome A) : wstate :=
  match o with Ok _ st | Undefined st | OutOfFuel st => st end.

(** ** The worker monad *)

Definition M (A : Type) : Type := wstate -> outcome A.

Definition ret {A} (a : A) : M A := fun st => Ok a st.

Definition bind {A B} (m : M A) (k : A -> M B) : M B :=
  fun st =>
    match m st with
    | Ok a st' => k a st'
    | Undefined st' => Undefined st'
    | OutOfFuel st' => OutOfFuel st'
    end.

Notation "x <- m ;; k" := (bind m (fun x => k))
  (at level 100, m at next level, right associativity).
Notation "m ;; k" := (bind m (fun _ => k))
  (at level 100, right associativity).

Definition out_of_fuel {A} : M A := fun st => OutOfFuel st.

Definition emit (e : event) : M unit := fun st =>
  Ok tt (WState (now st) (polls st) (ticks st) (mmaps st) (munmaps st)
           (memory_regions st) (mapped st) (pages st) (flushes st)
           (trace st ++ [e])).

Section Worker.

Variable env : worker_env.
Variable data : thread_data.

Definition flag_at (k : nat) : bool :=
  match clear_at env with
  | None => true
  | Some c => bool_decide (k < c)%nat
  end.

(** One read of the volatile [keep_running]. *)
Definition poll (s : site) : M bool := fun st =>
  let b := flag_at (polls st) in
  Ok b (WState (now st) (S (polls st)) (ticks st) (mmaps st) (munmaps st)
          (memory_regions st) (mapped st) (pages st) (flushes st)
          (trace st ++ [EvPoll s b])).

(** [time(NULL)]: whole seconds of the real-time clock. *)
Definition time_now : M Z := fun st =>
  let n := now st + elapse env (ticks st) in
  let t := n / 1000000 in
  Ok t (WState n (polls st) (S (ticks st)) (mmaps st) (munmaps st)
          (memory_regions st) (mapped st) (pages st) (flushes st)
          (trace st ++ [EvTime t])).

(** [usleep]: the clock moves on by the time slept.  The call returns
    early only when a signal handler has run, and the handlers of this
    program clear [keep_running]: the worker does not look at the clock
    again then. *)
Definition usleep (usec : Z) : M unit := fun st =>
  Ok tt (WState (now st + usec) (polls st) (ticks st) (mmaps st) (munmaps st)
           (memory_regions st) (mapped st) (pages st) (flushes st)
           (trace st ++ [EvSleep usec])).

(** [malloc(sizeof(void* ) * iterations_per_cycle)]: the table comes back
    with indeterminate contents. *)
Definition malloc_table : M bool := fun st =>
  if malloc_ok env then
    Ok true (WState (now st) (polls st) (ticks st) (mmaps st) (munmaps st)
               (replicate (Z.to_nat (iterations_per_cycle data)) Uninit)
               (mapped st) (pages st) (flushes st)
               (trace st ++ [EvMalloc true]))
  else
    Ok false (WState (now st) (polls st) (ticks st) (mmaps st) (munmaps st)
                (memory_regions st) (mapped st) (pages st) (flushes st)
                (trace st ++ [EvMalloc false])).

(** Anonymous private [mmap] of [pages_per_thread * PAGE_SIZE] bytes. *)
Definition mmap_region : M slot := fun st =>
  let r := mmaps st in
  if mmap_ok env r then
    Ok (Region r)
       (WState (now st) (polls st) (ticks st) (S r) (munmaps st)
          (memory_regions st) ({[r]} ∪ mapped st) (pages st) (flushes st)
          (trace st ++ [EvMmap (Region r)]))
  else
    Ok MAP_FAILED
       (WState (now st) (polls st) (ticks st) (S r) (munmaps st)
          (memory_regions st) (mapped st) (pages st) (flushes st)
          (trace st ++ [EvMmap MAP_FAILED])).

Definition munmap_region (by_ : unmap_by) (r : nat) : M bool := fun st =>
  let k := munmaps st in
  if munmap_ok env k then
    Ok true
       (WState (now st) (polls st) (ticks st) (mmaps st) (S k)
          (memory_regions st) (mapped st ∖ {[r]}) (pages st) (flushes st)
          (trace st ++ [EvMunmap by_ r true]))
  else
    Ok false
       (WState (now st) (polls st) (ticks st) (mmaps st) (S k)
          (memory_regions st) (mapped st) (pages st) (flushes st)
          (trace st ++ [EvMunmap by_ r false])).

(** Read of [memory_regions[i]].  Every index the worker uses is below
    [iterations_per_cycle], the size of the table. *)
Definition load_slot (i : nat) : M slot := fun st =>
  match memory_regions st !! i with
  | Some Uninit | None => Undefined st
  | Some s => Ok s st
  end.

Definition store_slot (i : nat) (s : slot) : M unit := fun st =>
  Ok tt (WState (now st) (polls st) (ticks st) (mmaps st) (munmaps st)
           (<[i := s]> (memory_regions st)) (mapped st) (pages st)
           (flushes st) (trace st)).

(** First byte of a page; anonymous mappings are zero filled. *)
Definition load_page (r : nat) (page : Z) : M Z := fun st =>
  let v := default 0 (pages st !! (r, page)) in
  Ok v (WState (now st) (polls st) (ticks st) (mmaps st) (munmaps st)
          (memory_regions st) (mapped st) (pages st) (flushes st)
          (trace st ++ [EvLoad r page v])).

Definition store_page (r : nat) (page : Z) (v : Z) : M unit := fun st =>
  Ok tt (WState (now st) (polls st) (ticks st) (mmaps st) (munmaps st)
           (memory_regions st) (mapped st) (<[(r, page) := v]> (pages st))
           (flushes st) (trace st ++ [EvStore r page v])).

Definition get_flushes : M Z := fun st => Ok (flushes st) st.

Definition set_flushes (n : Z) : M unit := fun st =>
  Ok tt (WState (now st) (polls st) (ticks st) (mmaps st) (munmaps st)
           (memory_regions st) (mapped st) (pages st) n (trace st)).

(** [for (i = 0; i < n && keep_running; i++) body(i)], with [k] the
    iterations still to go: the flag is read once per iteration, and not
    at all once [i] has reached [n]. *)
Fixpoint for_running (s : site) (body : nat -> M unit) (k i : nat) : M unit :=
  match k with
  | O => ret tt
  | S k' =>
      b <- poll s ;;
      if b then body i ;; for_running s body k' (S i) else ret tt
  end.

(** [for (i = 0; i < n; i++) body(i)]. *)
Fixpoint for_each (body : nat -> M unit) (k i : nat) : M unit :=
  match k with
  | O => ret tt
  | S k' => body i ;; for_each body k' (S i)
  end.

(** Touch loop: [*page = (char)(i + j)] for every page [j]. *)
Definition touch_pages (r : nat) (i : nat) : M unit :=
  for_each (fun j => store_page r (Z.of_nat j)
                       (char8 (int32 (Z.of_nat i + Z.of_nat j))))
    (Z.to_nat (pages_per_thread data)) 0.

(** Phase 1, one iteration. *)
Definition map_iteration (i : nat) : M unit :=
  s <- mmap_region ;;
  store_slot i s ;;
  s' <- load_slot i ;;
  match s' with
  | Region r => touch_pages r i
  | _ => emit (EvStderr (MsgMmapFailed (thread_id data) (Z.of_nat i)))
  end.

(** [(j * 17 + i * 13) % pages_per_thread] on [int]. *)
Definition page_offset (i j : Z) : Z :=
  Z.rem (int32 (int32 (j * 17) + int32 (i * 13))) (pages_per_thread data).

(** [for (j = 0; j < pages_per_thread; j += 4)]: read, then write back the
    value plus one. *)
Equations? access_pages (r : nat) (i : Z) (j : Z) : M unit
  by wf (Z.to_nat (pages_per_thread data - j)) lt :=
access_pages r i j with Z_lt_dec j (pages_per_thread data) := {
  | left _ =>
      value <- load_page r (page_offset i j) ;;
      store_page r (page_offset i j) (char8 (value + 1)) ;;
      access_pages r i (j + 4)
  | right _ => ret tt
}.
Proof. lia. Qed.

(** Phase 2, one iteration. *)
Definition access_iteration (i : nat) : M unit :=
  s <- load_slot i ;;
  match s with
  | Region r => access_pages r (Z.of_nat i) 0
  | _ => ret tt
  end.

(** Phase 3, one iteration. *)
Definition release_iteration (i : nat) : M unit :=
  s <- load_slot i ;;
  match s with
  | Region r =>
      ok <- munmap_region ByRelease r ;;
      (if ok then n <- get_flushes ;; set_flushes (long64 (n + 1))
       else emit (EvStderr (MsgMunmapFailed (thread_id data) (Z.of_nat i)))) ;;
      store_slot i MAP_FAILED
  | _ => ret tt
  end.

Definition n_iter : nat := Z.to_nat (iterations_per_cycle data).

(** One pass of the body of [while (keep_running)], after the time check. *)
Definition cycle_body : M unit :=
  for_running AtMap map_iteration n_iter 0 ;;
  for_running AtAccess access_iteration n_iter 0 ;;
  for_running AtRelease release_iteration n_iter 0 ;;
  usleep 1000.

(** [while (keep_running) { ... }]; [fuel] bounds the number of times the
    loop head is reached. *)
Fixpoint cycle_loop (fuel : nat) (start_time : Z) : M unit :=
  match fuel with
  | O => out_of_fuel
  | S fuel' =>
      b <- poll AtCycle ;;
      if b then
        current_time <- time_now ;;
        if decide (current_time - start_time >= duration_seconds data)
        then ret tt
        else cycle_body ;; cycle_loop fuel' start_time
      else ret tt
  end.

(** Cleanup loop, one iteration. *)
Definition cleanup_iteration (i : nat) : M unit :=
  s <- load_slot i ;;
  match s with
  | Region r => munmap_region ByCleanup r ;; ret tt
  | _ => ret tt
  end.

Definition cleanup : M unit := for_each cleanup_iteration n_iter 0.

(** The merge into [total_tlb_flushes], between lock and unlock. *)
Definition merge_counter : M unit :=
  emit EvLock ;;
  n <- get_flushes ;;
  emit (EvAddTotal n) ;;
  emit EvUnlock.

(** [size_t region_size = data->pages_per_thread * PAGE_SIZE]. *)
Definition region_size : Z := int32 (pages_per_thread data * PAGE_SIZE).

Definition tlb_flush_worker (fuel : nat) : M unit :=
  emit (EvStdout (MsgStarting (thread_id data) (pages_per_thread data)
                    region_size)) ;;
  ok <- malloc_table ;;
  if ok then
    start_time <- time_now ;;
    set_flushes 0 ;;
    cycle_loop fuel start_time ;;
    cleanup ;;
    emit EvFree ;;
    merge_counter ;;
    n <- get_flushes ;;
    emit (EvStdout (MsgCompleted (thread_id data) n))
  else
    emit (EvStderr (MsgTableAllocFailed (thread_id data))).

(** The state a worker starts in: [main] has stored
    [thread_tlb_flushes] in its [thread_data] before [pthread_create]. *)
Definition init_wstate : wstate :=
  WState (start_usec env) 0 0 0 0 [] ∅ ∅ (thread_tlb_flushes data) [].

Definition run_worker (fuel : nat) : outcome unit :=
  tlb_flush_worker fuel init_wstate.

End Worker.

(** ** Command line *)

(** The locals of [main] that the options set. *)
Record config := Config {
  num_threads : Z;
  cfg_pages_per_thread : Z;
  cfg_duration_seconds : Z;
  cfg_iterations_per_cycle : Z
}.

Definition default_config : config :=
  Config DEFAULT_THREADS DEFAULT_PAGES_PER_THREAD DEFAULT_DURATION_SECONDS
         DEFAULT_ITERATIONS_PER_CYCLE.

Inductive main_message :=
| InvalidThreadCount (n : Z)
| InvalidPagesPerThread (n : Z)
| InvalidDuration (n : Z)
| InvalidIterationsPerCycle (n : Z)
| Usage
| Banner (cfg : config)
| FailedToAllocate
| FailedToCreate (i : Z)
| Results (total : Z)
| CompletedSuccessfully.

Inductive main_event :=
| MStdout (m : main_message)
| MStderr (m : main_message)
| MSignal
| MMalloc (ok : bool)
| MCreate (i : nat) (ok : bool)
| MClearFlag
| MJoin (i : nat)
| MFree.

(** libc's [atoi], as glibc has it: [(int) strtol (s, NULL, 10)].  White
    space, an optional sign, then the longest run of decimal digits; what
    follows the digits is ignored, no digit at all gives 0. *)
Definition is_space (c : ascii) : bool :=
  let n := nat_of_ascii c in
  (Nat.eqb n 32 || (Nat.leb 9 n && Nat.leb n 13))%bool.

Fixpoint skip_spaces (s : string) : string :=
  match s with
  | String c s' => if is_space c then skip_spaces s' else s
  | EmptyString => s
  end.

Definition digit_of (c : ascii) : option Z :=
  let n := nat_of_ascii c in
  if (Nat.leb 48 n && Nat.leb n 57)%bool then Some (Z.of_nat n - 48) else None.

Fixpoint digits_value (acc : Z) (s : string) : Z :=
  match s with
  | String c s' =>
      match digit_of c with
      | Some d => digits_value (acc * 10 + d) s'
      | None => acc
      end
  | EmptyString => acc
  end.

Definition strtol (s : string) : Z :=
  let s1 := skip_spaces s in
  let v :=
    match s1 with
    | String "-" s2 => - digits_value 0 s2
    | String "+" s2 => digits_value 0 s2
    | _ => digits_value 0 s1
    end in
  Z.max LONG_MIN (Z.min LONG_MAX v).

Definition atoi (s : string) : Z := int32 (strtol s).

(** What one call of [getopt (argc, argv, "t:p:d:i:h")] hands to the
    [switch]: the option character it returns and [optarg].  An unknown
    option or a missing argument comes back as ["?"]. *)
Definition getopt_result : Type := ascii * string.

(** One pass through the [switch]: [inl] is a [return] from [main]. *)
Definition parse_option (opt : ascii) (optarg : string) (cfg : config)
  : (Z * list main_event) + config :=
  if decide (opt = "t"%char) then
    let n := atoi optarg in
    if decide (n <= 0 \/ n > 64)
    then inl (1, [MStderr (InvalidThreadCount n)])
    else inr (Config n (cfg_pages_per_thread cfg) (cfg_duration_seconds cfg)
                (cfg_iterations_per_cycle cfg))
  else if decide (opt = "p"%char) then
    let n := atoi optarg in
    if decide (n <= 0 \/ n > 100000)
    then inl (1, [MStderr (InvalidPagesPerThread n)])
    else inr (Config (num_threads cfg) n (cfg_duration_seconds cfg)
                (cfg_iterations_per_cycle cfg))
  else if decide (opt = "d"%char) then
    let n := atoi optarg in
    if decide (n <= 0)
    then inl (1, [MStderr (InvalidDuration n)])
    else inr (Config (num_threads cfg) (cfg_pages_per_thread cfg) n
                (cfg_iterations_per_cycle cfg))
  else if decide (opt = "i"%char) then
    let n := atoi optarg in
    if decide (n <= 0 \/ n > 10000)
    then inl (1, [MStderr (InvalidIterationsPerCycle n)])
    else inr (Config (num_threads cfg) (cfg_pages_per_thread cfg)
                (cfg_duration_seconds cfg) n)
  else if decide (opt = "h"%char) then inl (0, [MStdout Usage])
  else inl (1, [MStdout Usage]).

(** [while ((opt = getopt (...)) != -1) switch (opt) ...]. *)
Fixpoint parse_options (opts : list getopt_result) (cfg : config)
  : (Z * list main_event) + config :=
  match opts with
  | [] => inr cfg
  | (opt, optarg) :: rest =>
      match parse_option opt optarg cfg with
      | inl r => inl r
      | inr cfg' => parse_options rest cfg'
      end
  end.

(** ** The process *)

(** What the outside world answers to [main].  [worker_env_of i] is the
    world as worker [i] meets it; [merge_order] is the order in which the
    workers take [counter_mutex].  [join_unstarted_returns] says what
    [pthread_join] does with a handle that [pthread_create] never filled
    in: return an error (which [main] ignores) or not return at all. *)
Record process_env := ProcessEnv {
  threads_malloc_ok : bool;
  thread_data_malloc_ok : bool;
  create_ok : nat -> bool;
  join_unstarted_returns : bool;
  worker_env_of : nat -> worker_env;
  merge_order : list nat
}.

Inductive status :=
| Exit (code : Z)
| UndefinedBehaviour
| Blocked.

Record run := Run {
  run_status : status;
  run_trace : list main_event;
  run_workers : list (outcome unit);
  total_tlb_flushes : Z
}.

Section Process.

Variable penv : process_env.

(** The launch loop, [k] iterations to go: the number of workers started
    and what [main] did. *)
Fixpoint launch (k i : nat) : nat * list main_event :=
  match k with
  | O => (i, [])
  | S k' =>
      if create_ok penv i then
        let '(started, evs) := launch k' (S i) in
        (started, MCreate i true :: evs)
      else
        (i, [MCreate i false; MStderr (FailedToCreate (Z.of_nat i)); MClearFlag])
  end.

(** The argument [main] passes to worker [i]. *)
Definition thread_data_of (cfg : config) (i : nat) : thread_data :=
  ThreadData (Z.of_nat i) (cfg_pages_per_thread cfg) (cfg_duration_seconds cfg)
             (cfg_iterations_per_cycle cfg) 0.

Definition worker_outcomes (cfg : config) (fuel started : nat)
  : list (outcome unit) :=
  (fun i => run_worker (worker_env_of penv i) (thread_data_of cfg i) fuel)
    <$> seq 0 started.

(** The join loop over all [num_threads] handles, [k] to go.  A worker
    that never returns blocks [main]; undefined behaviour in a worker is
    undefined behaviour of the process. *)
Fixpoint join_all (outs : list (outcome unit)) (k i : nat)
  : option status * list main_event :=
  match k with
  | O => (None, [])
  | S k' =>
      match outs !! i with
      | Some (Ok _ _) =>
          let '(s, evs) := join_all outs k' (S i) in (s, MJoin i :: evs)
      | Some (Undefined _) => (Some UndefinedBehaviour, [MJoin i])
      | Some (OutOfFuel _) => (Some Blocked, [MJoin i])
      | None =>
          if join_unstarted_returns penv then
            let '(s, evs) := join_all outs k' (S i) in (s, MJoin i :: evs)
          else (Some UndefinedBehaviour, [MJoin i])
      end
  end.

(** What a worker added to [total_tlb_flushes]. *)
Definition merged (o : outcome unit) : list Z :=
  omap (fun e => match e with EvAddTotal n => Some n | _ => None end)
       (trace (final o)).

(** [total_tlb_flushes += n], one worker after the other in the order in
    which they held the mutex. *)
Definition accumulate (outs : list (outcome unit)) (order : list nat) : Z :=
  foldl (fun acc n => long64 (acc + n)) 0
        (order ≫= fun i => from_option merged [] (outs !! i)).

Definition main (opts : list getopt_result) (fuel : nat) : run :=
  match parse_options opts default_config with
  | inl (code, out) => Run (Exit code) out [] 0
  | inr cfg =>
      let setup :=
        [MStdout (Banner cfg); MSignal;
         MMalloc (threads_malloc_ok penv);
         MMalloc (thread_data_malloc_ok penv)] in
      if negb (threads_malloc_ok penv && thread_data_malloc_ok penv) then
        Run (Exit 1) (setup ++ [MStderr FailedToAllocate]) [] 0
      else
        let n := Z.to_nat (num_threads cfg) in
        let '(started, ev_launch) := launch n 0 in
        let outs := worker_outcomes cfg fuel started in
        let total := accumulate outs (merge_order penv) in
        match join_all outs n 0 with
        | (Some s, ev_join) =>
            Run s (setup ++ ev_launch ++ ev_join) outs total
        | (None, ev_join) =>
            Run (Exit 0)
                (setup ++ ev_launch ++ ev_join ++
                 [MStdout (Results total); MStdout CompletedSuccessfully;
                  MFree; MFree])
                outs total
        end
  end.

End Process.

(** * Specification vocabulary *)

(** ** Weakest preconditions for the worker monad *)

Definition post {A} (Q : A -> wstate -> Prop) (U F : wstate -> Prop)
  (o : outcome A) : Prop :=
  match o with
  | Ok a st => Q a st
  | Undefined st => U st
  | OutOfFuel st => F st
  end.

Definition wp {A} (m : M A) (Q : A -> wstate -> Prop) (U F : wstate -> Prop)
  (st : wstate) : Prop := post Q U F (m st).

(** ** The access phase *)

(** The page indices the access loop visits: 0, 4, 8, ... below [ppt]. *)
Definition stride_indices (j0 ppt : Z) : list Z :=
  (fun k => j0 + 4 * Z.of_nat k) <$> seq 0 (Z.to_nat ((ppt - j0 + 3) / 4)).

(** A read of each page in turn, each followed by the write of the value
    read plus one; a page visited again shows what was written. *)
Fixpoint access_trace (r : nat) (offs : list Z) (pg : gmap (nat * Z) Z)
  : list event :=
  match offs with
  | [] => []
  | o :: rest =>
      let v := default 0 (pg !! (r, o)) in
      EvLoad r o v :: EvStore r o (char8 (v + 1))
        :: access_trace r rest (<[(r, o) := char8 (v + 1)]> pg)
  end.


(** ** Reading the trace *)

Definition count (p : event -> bool) (tr : list event) : Z :=
  Z.of_nat (length (List.filter p tr)).

Definition is_mmap_ok (e : event) : bool :=
  match e with EvMmap (Region _) => true | _ => false end.

Definition is_munmap_ok (e : event) : bool :=
  match e with EvMunmap _ _ true => true | _ => false end.

Definition is_release_ok (e : event) : bool :=
  match e with EvMunmap ByRelease _ true => true | _ => false end.

Definition is_release_failed (e : event) : bool :=
  match e with EvMunmap ByRelease _ false => true | _ => false end.

Definition is_munmap_log (e : event) : bool :=
  match e with EvStderr (MsgMunmapFailed _ _) => true | _ => false end.

Definition is_add_total (e : event) : bool :=
  match e with EvAddTotal _ => true | _ => false end.

Definition is_page_access (e : event) : bool :=
  match e with EvLoad _ _ _ | EvStore _ _ _ => true | _ => false end.

(** The mappings [munmap] was called on, in order of the calls. *)
Definition unmap_ids (tr : list event) : list nat :=
  omap (fun e => match e with EvMunmap _ r _ => Some r | _ => None end) tr.

(** The mappings on which a [munmap] call failed. *)
Definition failed_ids (tr : list event) : list nat :=
  omap (fun e => match e with EvMunmap _ r false => Some r | _ => None end) tr.

(** The mappings a table holds. *)
Definition regions (table : list slot) : list nat :=
  omap (fun s => match s with Region r => Some r | _ => None end) table.

(** Events that leave every count above alone. *)
Definition neutral (e : event) : bool :=
  match e with
  | EvMmap (Region _) | EvMunmap _ _ _ | EvAddTotal _ => false
  | EvStderr (MsgMunmapFailed _ _) => false
  | _ => true
  end.

(** The next read of [keep_running] sees 0. *)
Definition flag_down (env : worker_env) (st : wstate) : Prop :=
  exists c, clear_at env = Some c /\ (c <= polls st)%nat.

(** [st'] is [st] after some page reads and writes and nothing else. *)
Definition page_step (st st' : wstate) : Prop :=
  now st' = now st /\ polls st' = polls st /\ ticks st' = ticks st /\
  mmaps st' = mmaps st /\ munmaps st' = munmaps st /\
  memory_regions st' = memory_regions st /\ mapped st' = mapped st /\
  flushes st' = flushes st /\
  exists evs, trace st' = trace st ++ evs /\
              Forall (fun e => is_page_access e = true) evs.

(** The bookkeeping invariant of a worker; [live] lists the mappings the
    table still answers for. *)
Record worker_inv (env : worker_env) (live : list nat) (st : wstate)
  : Prop := WorkerInv {
  inv_nodup : NoDup live;
  inv_live : forall r, r ∈ live ->
    (r < mmaps st)%nat /\ r ∈ mapped st /\ r ∉ unmap_ids (trace st);
  inv_unmapped : NoDup (unmap_ids (trace st));
  inv_unmapped_old : forall r, r ∈ unmap_ids (trace st) -> (r < mmaps st)%nat;
  inv_mapped : forall r, r ∈ mapped st ->
    (r < mmaps st)%nat /\ (r ∈ live \/ r ∈ failed_ids (trace st));
  inv_failed : forall r, r ∈ failed_ids (trace st) ->
    exists k, munmap_ok env k = false;
  inv_flushes : flushes st = long64 (count is_release_ok (trace st));
  inv_counts :
    count is_release_ok (trace st) + Z.of_nat (length live)
    <= count is_mmap_ok (trace st);
  inv_logs :
    count is_release_failed (trace st) = count is_munmap_log (trace st);
  inv_size :
    count is_mmap_ok (trace st)
    = count is_munmap_ok (trace st) + Z.of_nat (size (mapped st));
  inv_no_merge : count is_add_total (trace st) = 0
}.

(** The invariant at phase boundaries: the table has its [n] cells and
    answers for exactly the mappings it holds. *)
Definition table_inv (env : worker_env) (n : nat) (st : wstate) : Prop :=
  worker_inv env (regions (memory_regions st)) st /\
  length (memory_regions st) = n.

(** What is left of the invariant when a run stops half way. *)
Definition some_inv (env : worker_env) (st : wstate) : Prop :=
  exists live, worker_inv env live st.

(** What a worker does after the cleanup loop. *)
Definition epilogue (tid n : Z) : list event :=
  [EvFree; EvLock; EvAddTotal n; EvUnlock; EvStdout (MsgCompleted tid n)].

(** What a worker does when it cannot get its table. *)
Definition alloc_failure_trace (data : thread_data) : list event :=
  [EvStdout (MsgStarting (thread_id data) (pages_per_thread data)
               (region_size data));
   EvMalloc false;
   EvStderr (MsgTableAllocFailed (thread_id data))].

(** ** Whole runs *)

Definition worker_trace (env : worker_env) (data : thread_data) (fuel : nat)
  : list event := trace (final (run_worker env data fuel)).

(** The value of [thread_tlb_flushes] the worker leaves in its
    [thread_data]. *)
Definition reported_flushes (env : worker_env) (data : thread_data)
  (fuel : nat) : Z := flushes (final (run_worker env data fuel)).

(** ** Sample runs *)

(** One worker, two slots of five pages, one second. *)
Definition sample_data : thread_data := ThreadData 0 5 1 2 0.

(** The clock reaches the deadline during the first cycle. *)
Definition one_cycle_clock (k : nat) : Z :=
  if (k <? 2)%nat then 0 else 2000000.

(** Every call succeeds and nobody clears the flag. *)
Definition calm_env : worker_env :=
  WorkerEnv true None 0 one_cycle_clock (fun _ => true) (fun _ => true).

(** The first [munmap] fails. *)
Definition stubborn_env : worker_env :=
  WorkerEnv true None 0 one_cycle_clock (fun _ => true)
            (fun k => negb (Nat.eqb k 0)).

(** The flag is cleared while the first map phase has filled one of the
    two slots: reads 0 (cycle) and 1 (map, slot 0) see 1, read 2 sees 0. *)
Definition interrupted_env : worker_env :=
  WorkerEnv true (Some 2%nat) 0 one_cycle_clock (fun _ => true) (fun _ => true).

(** The flag is cleared after the map phase, before anything is released. *)
Definition late_signal_env : worker_env :=
  WorkerEnv true (Some 3%nat) 0 one_cycle_clock (fun _ => true) (fun _ => true).

(** [malloc] of the table fails. *)
Definition no_memory_env : worker_env :=
  WorkerEnv false None 0 one_cycle_clock (fun _ => true) (fun _ => true).

(** ** Polling *)





(** What a phase iteration may emit. *)
Definition is_body_event (e : event) : bool :=
  match e with
  | EvMmap _ | EvLoad _ _ _ | EvStore _ _ _ | EvMunmap ByRelease _ _ => true
  | EvStderr (MsgMmapFailed _ _) | EvStderr (MsgMunmapFailed _ _) => true
  | _ => false
  end.

(** [st'] is [st] after part of a phase iteration: the clock and the
    number of flag reads are as before. *)
Definition body_step (st st' : wstate) : Prop :=
  now st' = now st /\ polls st' = polls st /\ ticks st' = ticks st /\
  exists evs, trace st' = trace st ++ evs /\
              Forall (fun e => is_body_event e = true) evs.

(** The time [tlb_flush_worker] stores in [start_time]. *)
Definition start_time_of (env : worker_env) : Z :=
  (start_usec env + elapse env 0) / 1000000.

(** ** The process *)

Definition sumZ (l : list Z) : Z := foldr Z.add 0 l.

(** What [main] does between parsing and launching. *)
Definition setup_trace (penv : process_env) (cfg : config) : list main_event :=
  [MStdout (Banner cfg); MSignal;
   MMalloc (threads_malloc_ok penv);
   MMalloc (thread_data_malloc_ok penv)].

(** The options that take a number, the bounds of each and the message
    for a number outside them. *)
Definition is_value_option (opt : ascii) : Prop :=
  opt = "t"%char \/ opt = "p"%char \/ opt = "d"%char \/ opt = "i"%char.

Definition in_bounds (opt : ascii) (n : Z) : Prop :=
  (opt = "t"%char /\ 1 <= n <= 64) \/
  (opt = "p"%char /\ 1 <= n <= 100000) \/
  (opt = "d"%char /\ 1 <= n) \/
  (opt = "i"%char /\ 1 <= n <= 10000).

Definition invalid_message (opt : ascii) (n : Z) : main_message :=
  if decide (opt = "t"%char) then InvalidThreadCount n
  else if decide (opt = "p"%char) then InvalidPagesPerThread n
  else if decide (opt = "d"%char) then InvalidDuration n
  else InvalidIterationsPerCycle n.

(** An option the [switch] takes and goes on from. *)
Definition accepted (o : getopt_result) : Prop :=
  in_bounds (fst o) (atoi (snd o)).

(** The number given last for option [opt], or [dflt]. *)
Fixpoint last_value (opt : ascii) (dflt : Z) (opts : list getopt_result) : Z :=
  match opts with
  | [] => dflt
  | (c, arg) :: rest =>
      last_value opt (if decide (c = opt) then atoi arg else dflt) rest
  end.

(** A worker that returned. *)
Definition returned (o : outcome unit) : Prop := exists st, o = Ok tt st.

(** ** Sample processes *)

(** Every call succeeds; the workers meet [calm_env]. *)
Definition calm_process : process_env :=
  ProcessEnv true true (fun _ => true) true (fun _ => calm_env) [0%nat].

(** The first [pthread_create] fails. *)
Definition no_thread_process : process_env :=
  ProcessEnv true true (fun _ => false) true (fun _ => calm_env) [].

(** The second [pthread_create] fails. *)
Definition one_thread_process : process_env :=
  ProcessEnv true true (fun i => Nat.eqb i 0) true (fun _ => calm_env) [0%nat].

(** [main] cannot allocate its arrays. *)
Definition no_array_process : process_env :=
  ProcessEnv false true (fun _ => true) true (fun _ => calm_env) [].

(** The one worker cannot allocate its table. *)
Definition no_table_process : process_env :=
  ProcessEnv true true (fun _ => true) true (fun _ => no_memory_env) [0%nat].

(** Two workers that merge in the order 1, 0; the first [munmap] of each
    fails. *)
Definition two_worker_process : process_env :=
  ProcessEnv true true (fun _ => true) true (fun _ => stubborn_env)
             [1%nat; 0%nat].

Definition small_options : list getopt_result :=
  [("t"%char, "1"%string); ("p"%char, "5"%string);
   ("d"%char, "1"%string); ("i"%char, "2"%string)].

Definition two_thread_options : list getopt_result :=
  [("t"%char, "2"%string); ("p"%char, "5"%string);
   ("d"%char, "1"%string); ("i"%char, "2"%string)].

(** The [switch] case of an option the parser goes on from. *)
Definition with_option (opt : ascii) (n : Z) (cfg : config) : config :=
  Config (if decide (opt = "t"%char) then n else num_threads cfg)
         (if decide (opt = "p"%char) then n else cfg_pages_per_thread cfg)
         (if decide (opt = "d"%char) then n else cfg_duration_seconds cfg)
         (if decide (opt = "i"%char) then n else cfg_iterations_per_cycle cfg).

(** A malformed thread count and an out-of-range one behind [-h]. *)
Definition trailing_garbage_options : list getopt_result :=
  [("t"%char, "1x"%string); ("p"%char, "5"%string);
   ("d"%char, "1"%string); ("i"%char, "2"%string)].

Definition help_first_options : list getopt_result :=
  [("h"%char, ""%string); ("t"%char, "0"%string)].

(** ** Configurations *)

(** What the option [switch] lets through; a duration is an [int]. *)
Definition valid_config (cfg : config) : Prop :=
  1 <= num_threads cfg <= 64 /\
  1 <= cfg_pages_per_thread cfg <= 100000 /\
  1 <= cfg_duration_seconds cfg <= 2147483647 /\
  1 <= cfg_iterations_per_cycle cfg <= 10000.

(** The last lines of a run of [main] that got through its join loop. *)
Definition report_trace (total : Z) : list main_event :=
  [MStdout (Results total); MStdout CompletedSuccessfully; MFree; MFree].

(** ** Page contents *)

(** How often page [p] occurs among the offsets [offs]. *)
Definition visits (p : Z) (offs : list Z) : Z :=
  Z.of_nat (length (filter (eq p) offs)).

(** The offsets the access loop goes through for slot [i]. *)
Definition access_offsets (data : thread_data) (i : Z) : list Z :=
  page_offset data i <$> stride_indices 0 (pages_per_thread data).

(** ** Counting over all workers *)

(** The [munmap] calls of the release phase of a worker that succeeded,
    and its [mmap] calls that succeeded. *)
Definition releases (o : outcome unit) : Z :=
  count is_release_ok (trace (final o)).

Definition maps (o : outcome unit) : Z :=
  count is_mmap_ok (trace (final o)).

(** ** Written slots *)

(** Every cell of the table has been assigned since [malloc]. *)
Definition written (table : list slot) : Prop :=
  Forall (fun s => s <> Uninit) table.

(** The table has its [n] cells and one of them has never been
    assigned. *)
Definition has_unwritten (n : nat) (st : wstate) : Prop :=
  length (memory_regions st) = n /\
  exists k, (k < n)%nat /\ memory_regions st !! k = Some Uninit.

(** ** Mappings held and pages accessed *)

Definition is_munmap_failed (e : event) : bool :=
  match e with EvMunmap _ _ false => true | _ => false end.

(** The mappings made so far that [munmap] has not been called on. *)
Definition held (tr : list event) : Z :=
  count is_mmap_ok tr - count is_munmap_ok tr - count is_munmap_failed tr.

(** At no moment of [tr] were more than [n] mappings held. *)
Definition peak (n : nat) (tr : list event) : Prop :=
  forall k, held (take k tr) <= Z.of_nat n.

(** The mapping a page access goes to. *)
Definition access_of (e : event) : option nat :=
  match e with
  | EvLoad r _ _ | EvStore r _ _ => Some r
  | _ => None
  end.

(** Every page access goes to a mapping that [mmap] has returned before
    and that has not been passed to [munmap] since. *)
Definition safe (tr : list event) : Prop :=
  forall pre e post r, tr = pre ++ e :: post -> access_of e = Some r ->
    EvMmap (Region r) ∈ pre /\ r ∉ unmap_ids pre.

(** Neither a new mapping nor a page access. *)
Definition no_map_no_access (e : event) : bool :=
  match e with
  | EvMmap (Region _) | EvLoad _ _ _ | EvStore _ _ _ => false
  | _ => true
  end.

(** [st'] is [st] after some accesses to pages of mapping [r]. *)
Definition region_step (r : nat) (st st' : wstate) : Prop :=
  mapped st' = mapped st /\
  exists evs, trace st' = trace st ++ evs /\
              Forall (fun e => access_of e = Some r) evs.

(** What the trace so far says about mappings and accesses. *)
Record trace_inv (n : nat) (st : wstate) : Prop := TraceInv {
  ti_peak : peak n (trace st);
  ti_safe : safe (trace st);
  ti_made : forall r, r ∈ mapped st -> EvMmap (Region r) ∈ trace st
}.

(** ** Reads of the flag as guards *)

(** What the worker may do next, going by the events so far. *)
Inductive mode :=
| Idle                          (* no phase iteration may begin, no [time] *)
| MayTime                       (* the flag read 1 at the loop head, or
                                   [malloc] gave the table *)
| MayMap                        (* the flag read 1 at the map loop *)
| MayAccess                     (* the flag read 1 at the access loop *)
| MayRelease                    (* the flag read 1 at the release loop *)
| Touching (r : nat)            (* in a map iteration, [mmap] returned [r] *)
| Accessing (r : nat)           (* in an access iteration on [r] *)
| Loaded (r : nat) (page : Z).  (* the same, [page] read and not yet
                                   written back *)

(** One event.  A read of [keep_running] that gives 1 opens the way for
    one iteration of the loop it guards, and for nothing else; a read
    that gives 0 opens nothing.  [mmap], the [munmap] of the release
    phase and the first page read of an access iteration are accepted
    right after the read that guards them only; page writes follow the
    [mmap] or the read of the same page; [time] is called right after
    the read at the loop head (or after [malloc], for [start_time]).
    [None]: the event is not accepted. *)
Definition guard_step (m : mode) (e : event) : option mode :=
  match e with
  | EvPoll AtCycle true => Some MayTime
  | EvPoll AtMap true => Some MayMap
  | EvPoll AtAccess true => Some MayAccess
  | EvPoll AtRelease true => Some MayRelease
  | EvPoll _ false => Some Idle
  | EvMalloc ok => Some (if ok then MayTime else Idle)
  | EvTime _ => match m with MayTime => Some Idle | _ => None end
  | EvMmap s =>
      match m with
      | MayMap => Some (match s with Region r => Touching r | _ => Idle end)
      | _ => None
      end
  | EvStore r page _ =>
      match m with
      | Touching r' => if decide (r = r') then Some (Touching r) else None
      | Loaded r' page' =>
          if decide (r = r' /\ page = page') then Some (Accessing r) else None
      | _ => None
      end
  | EvLoad r page _ =>
      match m with
      | MayAccess => Some (Loaded r page)
      | Accessing r' => if decide (r = r') then Some (Loaded r page) else None
      | _ => None
      end
  | EvMunmap ByRelease _ _ =>
      match m with MayRelease => Some Idle | _ => None end
  | _ => Some Idle
  end.

Fixpoint guard_run (m : mode) (tr : list event) : option mode :=
  match tr with
  | [] => Some m
  | e :: tr' =>
      match guard_step m e with
      | Some m' => guard_run m' tr'
      | None => None
      end
  end.





(** [pthread_join] does not come back from a handle that was never
    filled in; the first [pthread_create] fails. *)
Definition no_thread_strict_process : process_env :=
  ProcessEnv true true (fun _ => false) false (fun _ => calm_env) [].

(** The second [pthread_create] fails, and [pthread_join] does not come
    back from a handle that was never filled in. *)
Definition one_thread_strict_process : process_env :=
  ProcessEnv true true (fun i => Nat.eqb i 0) false (fun _ => calm_env)
             [0%nat].


(** * Properties *)

(** ** Machine arithmetic *)

Lemma int32_small x : -2147483648 <= x < 2147483648 -> int32 x = x.
Proof.
  intros H. unfold int32, wrap.
  change (2 ^ (32 - 1)) with 2147483648. change (2 ^ 32) with 4294967296.
  rewrite Z.mod_small; lia.
Qed.

Lemma long64_small x :
  -9223372036854775808 <= x < 9223372036854775808 -> long64 x = x.
Proof.
  intros H. unfold long64, wrap.
  change (2 ^ (64 - 1)) with 9223372036854775808.
  change (2 ^ 64) with 18446744073709551616.
  rewrite Z.mod_small; lia.
Qed.

Lemma long64_add_l x y : long64 (long64 x + y) = long64 (x + y).
Proof.
  unfold long64, wrap.
  change (2 ^ (64 - 1)) with 9223372036854775808.
  change (2 ^ 64) with 18446744073709551616.
  f_equal.
  replace ((x + 9223372036854775808) mod 18446744073709551616
           - 9223372036854775808 + y + 9223372036854775808)
    with ((x + 9223372036854775808) mod 18446744073709551616 + y) by lia.
  rewrite Zplus_mod_idemp_l. f_equal. lia.
Qed.

Lemma long64_le x : 0 <= x -> long64 x <= x.
Proof.
  intros H. unfold long64, wrap.
  change (2 ^ (64 - 1)) with 9223372036854775808.
  change (2 ^ 64) with 18446744073709551616.
  pose proof (Z.mod_le (x + 9223372036854775808) 18446744073709551616).
  lia.
Qed.

Lemma wp_bind {A B} (m : M A) (k : A -> M B) Q U F st :
  wp m (fun a => wp (k a) Q U F) U F st -> wp (bind m k) Q U F st.
Proof. unfold wp, bind. by destruct (m st). Qed.

Lemma wp_ret {A} (a : A) (Q : A -> wstate -> Prop) U F st :
  Q a st -> wp (ret a) Q U F st.
Proof. done. Qed.

Lemma wp_mono {A} (m : M A) (Q Q' : A -> wstate -> Prop) (U U' F F' : wstate -> Prop) st :
  wp m Q U F st ->
  (forall a s, Q a s -> Q' a s) -> (forall s, U s -> U' s) ->
  (forall s, F s -> F' s) ->
  wp m Q' U' F' st.
Proof. unfold wp. destruct (m st); simpl; eauto. Qed.

Arguments flag_at : simpl never.

Lemma wp_emit e (Q : unit -> wstate -> Prop) U F st :
  Q tt (final (emit e st)) -> wp (emit e) Q U F st.
Proof. done. Qed.

Lemma wp_poll env s (Q : bool -> wstate -> Prop) U F st :
  Q (flag_at env (polls st)) (final (poll env s st)) ->
  wp (poll env s) Q U F st.
Proof. done. Qed.

Lemma wp_time_now env (Q : Z -> wstate -> Prop) U F st :
  Q ((now st + elapse env (ticks st)) / 1000000) (final (time_now env st)) ->
  wp (time_now env) Q U F st.
Proof. done. Qed.

Lemma wp_usleep usec (Q : unit -> wstate -> Prop) U F st :
  Q tt (final (usleep usec st)) -> wp (usleep usec) Q U F st.
Proof. done. Qed.

Lemma wp_mmap_region env (Q : slot -> wstate -> Prop) U F st :
  (forall s, s = (if mmap_ok env (mmaps st) then Region (mmaps st) else MAP_FAILED) ->
     Q s (final (mmap_region env st))) ->
  wp (mmap_region env) Q U F st.
Proof.
  intros H. specialize (H _ eq_refl). revert H.
  unfold wp, mmap_region. by destruct (mmap_ok env (mmaps st)).
Qed.

Lemma wp_munmap_region env by_ r (Q : bool -> wstate -> Prop) U F st :
  Q (munmap_ok env (munmaps st)) (final (munmap_region env by_ r st)) ->
  wp (munmap_region env by_ r) Q U F st.
Proof.
  unfold wp, munmap_region. by destruct (munmap_ok env (munmaps st)).
Qed.

Lemma wp_load_slot i (Q : slot -> wstate -> Prop) (U F : wstate -> Prop) st :
  (forall s, memory_regions st !! i = Some s -> s <> Uninit -> Q s st) ->
  (memory_regions st !! i = Some Uninit \/ memory_regions st !! i = None ->
   U st) ->
  wp (load_slot i) Q U F st.
Proof.
  intros HQ HU. unfold wp, load_slot.
  destruct (memory_regions st !! i) as [[| |r]|] eqn:E; simpl; auto.
Qed.

Lemma wp_store_slot i s (Q : unit -> wstate -> Prop) U F st :
  Q tt (final (store_slot i s st)) -> wp (store_slot i s) Q U F st.
Proof. done. Qed.

Lemma wp_load_page r page (Q : Z -> wstate -> Prop) U F st :
  Q (default 0 (pages st !! (r, page))) (final (load_page r page st)) ->
  wp (load_page r page) Q U F st.
Proof. done. Qed.

Lemma wp_store_page r page v (Q : unit -> wstate -> Prop) U F st :
  Q tt (final (store_page r page v st)) -> wp (store_page r page v) Q U F st.
Proof. done. Qed.

Lemma wp_get_flushes (Q : Z -> wstate -> Prop) U F st :
  Q (flushes st) st -> wp get_flushes Q U F st.
Proof. done. Qed.

Lemma wp_set_flushes n (Q : unit -> wstate -> Prop) U F st :
  Q tt (final (set_flushes n st)) -> wp (set_flushes n) Q U F st.
Proof. done. Qed.

(** One step of symbolic execution. *)
Ltac wp_step :=
  lazymatch goal with
  | |- wp (bind _ _) _ _ _ _ => apply wp_bind
  | |- wp (ret _) _ _ _ _ => apply wp_ret
  | |- wp (emit _) _ _ _ _ => apply wp_emit
  | |- wp (poll _ _) _ _ _ _ => apply wp_poll
  | |- wp (time_now _) _ _ _ _ => apply wp_time_now
  | |- wp (usleep _) _ _ _ _ => apply wp_usleep
  | |- wp (store_slot _ _) _ _ _ _ => apply wp_store_slot
  | |- wp (load_page _ _) _ _ _ _ => apply wp_load_page
  | |- wp (store_page _ _ _) _ _ _ _ => apply wp_store_page
  | |- wp get_flushes _ _ _ _ => apply wp_get_flushes
  | |- wp (set_flushes _) _ _ _ _ => apply wp_set_flushes
  | |- wp (munmap_region _ _ _) _ _ _ _ => apply wp_munmap_region
  end; cbn beta.

Ltac wp_steps := repeat wp_step.

(** *** Loops *)

Lemma wp_for_each (I : nat -> wstate -> Prop) U F body (n : nat) :
  (forall i st, (i < n)%nat -> I i st ->
     wp (body i) (fun _ => I (S i)) U F st) ->
  forall k i st, (i + k = n)%nat -> I i st ->
    wp (for_each body k i) (fun _ => I n) U F st.
Proof.
  intros Hbody k. induction k as [|k IH]; intros i st Hik HI; simpl.
  - apply wp_ret. by replace n with i by lia.
  - apply wp_bind. eapply wp_mono; [apply Hbody; [lia|done]| |done|done].
    intros [] st' HI'. simpl in *. apply IH; [lia|done].
Qed.

Lemma wp_for_running env (I : nat -> wstate -> Prop) (J : wstate -> Prop)
    U F s body (n : nat) :
  (forall i st, (i < n)%nat -> I i st -> flag_at env (polls st) = true ->
     wp (body i) (fun _ => I (S i)) U F (final (poll env s st))) ->
  (forall i st, (i < n)%nat -> I i st -> flag_at env (polls st) = false ->
     J (final (poll env s st))) ->
  (forall st, I n st -> J st) ->
  forall k i st, (i + k = n)%nat -> I i st ->
    wp (for_running env s body k i) (fun _ => J) U F st.
Proof.
  intros Hbody Hstop Hend k.
  induction k as [|k IH]; intros i st Hik HI; simpl.
  - apply wp_ret. apply Hend. by replace n with i by lia.
  - apply wp_bind, wp_poll.
    destruct (flag_at env (polls st)) eqn:Hflag.
    + apply wp_bind. eapply wp_mono; [apply Hbody; [lia|done|done]| |done|done].
      intros [] st' HI'. simpl in *. apply IH; [lia|done].
    + apply wp_ret. apply Hstop with i; [lia|done|done].
Qed.

Lemma wp_cycle_loop env data (L J : wstate -> Prop) U F start_time :
  (forall st, L st -> flag_at env (polls st) = false ->
     J (final (poll env AtCycle st))) ->
  (forall st, L st -> flag_at env (polls st) = true ->
     forall st1, st1 = final (time_now env (final (poll env AtCycle st))) ->
     forall t, t = now st1 / 1000000 ->
       (t - start_time >= duration_seconds data -> J st1) /\
       (t - start_time < duration_seconds data ->
        wp (cycle_body env data) (fun _ => L) U F st1)) ->
  (forall st, L st -> F st) ->
  forall fuel st, L st ->
    wp (cycle_loop env data fuel start_time) (fun _ => J) U F st.
Proof.
  intros Hstop Hgo Hfuel fuel.
  induction fuel as [|fuel IH]; intros st HL; simpl.
  - by apply Hfuel.
  - apply wp_bind, wp_poll.
    destruct (flag_at env (polls st)) eqn:Hflag.
    + apply wp_bind, wp_time_now.
      destruct (Hgo st HL Hflag _ eq_refl _ eq_refl) as [Hbreak Hbody].
      case_decide as Ht; simpl in Ht, Hbreak, Hbody.
      * apply wp_ret. by apply Hbreak.
      * apply wp_bind. eapply wp_mono; [apply Hbody; lia| |done|done].
        intros [] st' HL'. simpl in *. by apply IH.
    + apply wp_ret. by apply Hstop.
Qed.
(** ** The access phase *)

Lemma stride_indices_done j ppt : ppt <= j -> stride_indices j ppt = [].
Proof.
  intros H. unfold stride_indices.
  replace (Z.to_nat ((ppt - j + 3) / 4)) with 0%nat; [done|].
  assert ((ppt - j + 3) / 4 <= 0); [|lia].
  apply Z.lt_succ_r. apply Z.div_lt_upper_bound; lia.
Qed.

Lemma stride_indices_step j ppt :
  j < ppt -> stride_indices j ppt = j :: stride_indices (j + 4) ppt.
Proof.
  intros H. unfold stride_indices.
  replace (ppt - j + 3) with ((ppt - (j + 4) + 3) + 1 * 4) by lia.
  rewrite Z.div_add by lia.
  assert (0 <= (ppt - (j + 4) + 3) / 4) by (apply Z.div_pos; lia).
  rewrite Z2Nat.inj_add by lia.
  change (Z.to_nat 1) with 1%nat. rewrite Nat.add_comm. simpl.
  f_equal; [lia|].
  rewrite <- fmap_S_seq, <- list_fmap_compose.
  apply list_fmap_ext. intros ? k ?. simpl. lia.
Qed.

Lemma elem_of_stride_indices j ppt :
  j ∈ stride_indices 0 ppt <-> 0 <= j < ppt /\ j mod 4 = 0.
Proof.
  unfold stride_indices. rewrite list_elem_of_fmap. split.
  - intros (k & -> & Hk). apply elem_of_seq in Hk. simpl in Hk.
    assert (Z.of_nat k < (ppt - 0 + 3) / 4) by lia.
    pose proof (Z.mul_div_le (ppt - 0 + 3) 4).
    split; [lia|].
    rewrite Z.add_0_l, Z.mul_comm. apply Z_mod_mult.
  - intros [Hj Hm]. exists (Z.to_nat (j / 4)).
    pose proof (Z_div_mod_eq_full j 4).
    assert (0 <= j / 4) by (apply Z.div_pos; lia).
    split; [lia|]. apply elem_of_seq. simpl.
    assert (j / 4 < (ppt - 0 + 3) / 4); [|lia].
    apply Z.div_lt_upper_bound; [lia|].
    pose proof (Z_div_mod_eq_full (ppt - 0 + 3) 4).
    pose proof (Z.mod_pos_bound (ppt - 0 + 3) 4).
    lia.
Qed.

Lemma page_offset_exact data i j :
  0 <= i < 10000 -> 0 <= j < pages_per_thread data ->
  pages_per_thread data <= 100000 ->
  page_offset data i j = (j * 17 + i * 13) mod pages_per_thread data.
Proof.
  intros Hi Hj Hp. unfold page_offset.
  rewrite !int32_small by (rewrite ?int32_small; lia).
  apply Z.rem_mod_nonneg; lia.
Qed.

Lemma access_pages_trace data r i :
  0 <= i < 10000 -> pages_per_thread data <= 100000 ->
  forall (n : nat) j st,
    0 <= j -> (Z.to_nat (pages_per_thread data - j) <= n)%nat ->
    exists st',
      access_pages data r i j st = Ok tt st' /\
      trace st' = trace st ++
        access_trace r
          ((fun j' => (j' * 17 + i * 13) mod pages_per_thread data)
             <$> stride_indices j (pages_per_thread data))
          (pages st) /\
      now st' = now st /\ polls st' = polls st /\ ticks st' = ticks st /\
      mmaps st' = mmaps st /\ munmaps st' = munmaps st /\
      memory_regions st' = memory_regions st /\ mapped st' = mapped st /\
      flushes st' = flushes st.
Proof.
  intros Hi Hp n. induction n as [|n IH]; intros j st Hj Hn.
  - simp access_pages. destruct (Z_lt_dec j (pages_per_thread data)); [lia|].
    simpl. exists st. rewrite stride_indices_done by lia.
    simpl. rewrite app_nil_r. done.
  - simp access_pages.
    destruct (Z_lt_dec j (pages_per_thread data)) as [Hlt|Hge]; simpl.
    + rewrite stride_indices_step by done. rewrite fmap_cons. simpl.
      rewrite page_offset_exact by lia.
      unfold bind at 1. simpl. unfold bind at 1. simpl.
      match goal with |- context [access_pages data r i (j + 4) ?s] =>
        destruct (IH (j + 4) s) as (st' & Hrun & Htr & Hrest); [lia|lia|]
      end.
      exists st'. rewrite Hrun. split; [done|]. rewrite Htr. simpl.
      rewrite <- !app_assoc. simpl. done.
    + exists st. rewrite stride_indices_done by lia.
      simpl. rewrite app_nil_r. done.
Qed.

(** ** Counting events *)

Lemma count_nil p : count p [] = 0.
Proof. done. Qed.

Lemma count_cons p e tr :
  count p (e :: tr) = (if p e then 1 else 0) + count p tr.
Proof. unfold count. simpl. destruct (p e); simpl; lia. Qed.

Lemma count_app p tr1 tr2 : count p (tr1 ++ tr2) = count p tr1 + count p tr2.
Proof. unfold count. rewrite List.filter_app, length_app. lia. Qed.

Lemma count_nonneg p tr : 0 <= count p tr.
Proof. unfold count. lia. Qed.

Arguments count : simpl never.

Lemma unmap_ids_app tr1 tr2 :
  unmap_ids (tr1 ++ tr2) = unmap_ids tr1 ++ unmap_ids tr2.
Proof. apply omap_app. Qed.

Lemma failed_ids_app tr1 tr2 :
  failed_ids (tr1 ++ tr2) = failed_ids tr1 ++ failed_ids tr2.
Proof. apply omap_app. Qed.

Lemma regions_app t1 t2 : regions (t1 ++ t2) = regions t1 ++ regions t2.
Proof. apply omap_app. Qed.

Lemma neutral_silent evs :
  Forall (fun e => neutral e = true) evs ->
  count is_mmap_ok evs = 0 /\ count is_munmap_ok evs = 0 /\
  count is_release_ok evs = 0 /\ count is_release_failed evs = 0 /\
  count is_munmap_log evs = 0 /\ count is_add_total evs = 0 /\
  unmap_ids evs = [] /\ failed_ids evs = [].
Proof.
  induction 1 as [|e evs He _ IH]; [done|].
  destruct IH as (?&?&?&?&?&?&?&?).
  rewrite !count_cons.
  destruct e as [m|m| | | |s| | | | | | | |]; try destruct m; try destruct s;
    simpl in *; try discriminate; repeat split; try done; lia.
Qed.

Lemma page_access_neutral evs :
  Forall (fun e => is_page_access e = true) evs ->
  Forall (fun e => neutral e = true) evs.
Proof.
  intros H. eapply Forall_impl; [exact H|]. intros e. by destruct e.
Qed.

(** ** The bookkeeping invariant, step by step *)

Section Bookkeeping.

Variable env : worker_env.

Lemma wi_neutral live st st' evs :
  worker_inv env live st ->
  (mmaps st <= mmaps st')%nat -> mapped st' = mapped st ->
  flushes st' = flushes st -> trace st' = trace st ++ evs ->
  Forall (fun e => neutral e = true) evs ->
  worker_inv env live st'.
Proof.
  intros [] Hm Hmap Hfl Htr Hev.
  destruct (neutral_silent _ Hev) as (E1&E2&E3&E4&E5&E6&E7&E8).
  split; rewrite ?Htr, ?Hmap, ?Hfl, ?count_app, ?unmap_ids_app,
    ?failed_ids_app, ?E1, ?E2, ?E3, ?E4, ?E5, ?E6, ?E7, ?E8, ?app_nil_r,
    ?Z.add_0_r; try done.
  - intros r Hr. destruct (inv_live0 r Hr) as (?&?&?). split; [lia|done].
  - intros r Hr. specialize (inv_unmapped_old0 r Hr). lia.
  - intros r Hr. destruct (inv_mapped0 r Hr) as (?&?). split; [lia|done].
Qed.

Lemma wi_page_step live st st' :
  worker_inv env live st -> page_step st st' -> worker_inv env live st'.
Proof.
  intros Hinv (_&_&_&Hm&_&_&Hmap&Hfl&evs&Htr&Hev).
  eapply wi_neutral; eauto using page_access_neutral. lia.
Qed.

Lemma wi_mmap_ok live st st' :
  worker_inv env live st ->
  mmaps st' = S (mmaps st) -> mapped st' = {[mmaps st]} ∪ mapped st ->
  flushes st' = flushes st ->
  trace st' = trace st ++ [EvMmap (Region (mmaps st))] ->
  worker_inv env (live ++ [mmaps st]) st'.
Proof.
  intros [] Hm Hmap Hfl Htr.
  assert (Hfresh : mmaps st ∉ mapped st).
  { intros Hin. destruct (inv_mapped0 _ Hin). lia. }
  split; rewrite ?Htr, ?Hmap, ?Hfl, ?Hm, ?count_app, ?unmap_ids_app,
    ?failed_ids_app, ?count_cons, ?count_nil; simpl;
    rewrite ?app_nil_r, ?Z.add_0_r; try done.
  - apply NoDup_app. split; [done|]. split; [|apply NoDup_singleton].
    intros r Hr Hr'. apply list_elem_of_singleton in Hr'. subst.
    destruct (inv_live0 _ Hr). lia.
  - intros r Hr. apply elem_of_app in Hr as [Hr|Hr].
    + destruct (inv_live0 r Hr) as (?&?&?).
      split; [lia|]. split; [set_solver|done].
    + apply list_elem_of_singleton in Hr. subst.
      split; [lia|]. split; [set_solver|].
      intros Hin. specialize (inv_unmapped_old0 _ Hin). lia.
  - intros r Hr. specialize (inv_unmapped_old0 r Hr). lia.
  - intros r Hr. apply elem_of_union in Hr as [Hr|Hr].
    + apply elem_of_singleton in Hr. subst. split; [lia|]. left.
      apply elem_of_app. right. by apply list_elem_of_singleton.
    + destruct (inv_mapped0 r Hr) as (?&[?|?]); (split; [lia|]).
      * left. apply elem_of_app. by left.
      * by right.
  - rewrite length_app. simpl. lia.
  - rewrite size_union by set_solver. rewrite size_singleton. lia.
Qed.

Lemma wi_munmap by_ tid i r rest st st' :
  worker_inv env (r :: rest) st ->
  mmaps st' = mmaps st ->
  mapped st' =
    (if munmap_ok env (munmaps st) then mapped st ∖ {[r]} else mapped st) ->
  flushes st' =
    (match by_, munmap_ok env (munmaps st) with
     | ByRelease, true => long64 (flushes st + 1)
     | _, _ => flushes st
     end) ->
  trace st' = trace st ++
    EvMunmap by_ r (munmap_ok env (munmaps st)) ::
    (match by_, munmap_ok env (munmaps st) with
     | ByRelease, false => [EvStderr (MsgMunmapFailed tid i)]
     | _, _ => []
     end) ->
  worker_inv env rest st'.
Proof.
  intros [] Hm Hmap Hfl Htr.
  apply NoDup_cons in inv_nodup0 as [Hr Hnd].
  destruct (inv_live0 r) as (Hr1 & Hr2 & Hr3); [by left|].
  assert (Hids : unmap_ids (trace st') = unmap_ids (trace st) ++ [r]).
  { rewrite Htr, unmap_ids_app. f_equal.
    by destruct by_, (munmap_ok env (munmaps st)). }
  split; rewrite ?Hids, ?Hm; try done.
  - intros r' Hr'. destruct (inv_live0 r') as (?&?&?); [by right|].
    assert (r' <> r) by (intros ->; done).
    split; [done|]. split.
    + rewrite Hmap. destruct (munmap_ok env (munmaps st)); set_solver.
    + rewrite not_elem_of_app, list_elem_of_singleton. done.
  - apply NoDup_app. split; [done|]. split; [|apply NoDup_singleton].
    intros x Hx Hx'. apply list_elem_of_singleton in Hx'. by subst.
  - intros x Hx. apply elem_of_app in Hx as [Hx|Hx]; [by apply inv_unmapped_old0|].
    apply list_elem_of_singleton in Hx. by subst.
  - intros x Hx. rewrite Htr, failed_ids_app.
    assert (x ∈ mapped st) as Hx0.
    { rewrite Hmap in Hx. destruct (munmap_ok env (munmaps st)); set_solver. }
    destruct (inv_mapped0 x Hx0) as (?&[Hl|Hf]); (split; [done|]).
    + apply elem_of_cons in Hl as [->|Hl]; [|by left].
      right. apply elem_of_app. right.
      rewrite Hmap in Hx.
      destruct by_, (munmap_ok env (munmaps st)); simpl;
        first [set_solver | by left].
    + right. apply elem_of_app. by left.
  - intros x Hx. rewrite Htr, failed_ids_app in Hx.
    apply elem_of_app in Hx as [Hx|Hx]; [by apply (inv_failed0 x)|].
    exists (munmaps st).
    destruct by_, (munmap_ok env (munmaps st)); simpl in Hx;
      first [done | by apply elem_of_nil in Hx].
  - rewrite Hfl, Htr, count_app, inv_flushes0.
    destruct by_, (munmap_ok env (munmaps st));
      rewrite ?count_cons, ?count_nil; simpl;
      rewrite ?Z.add_0_r, ?long64_add_l; done.
  - rewrite Htr, !count_app. simpl in inv_counts0.
    pose proof (count_nonneg is_mmap_ok (trace st)).
    destruct by_, (munmap_ok env (munmaps st));
      rewrite ?count_cons, ?count_nil; simpl; lia.
  - rewrite Htr, !count_app.
    destruct by_, (munmap_ok env (munmaps st));
      rewrite ?count_cons, ?count_nil; simpl; lia.
  - rewrite Htr, Hmap, !count_app.
    destruct by_, (munmap_ok env (munmaps st));
      rewrite ?count_cons, ?count_nil; simpl;
      rewrite ?size_difference by set_solver;
      rewrite ?size_singleton;
      try (assert (size (mapped st) <> 0%nat)
             by (intros Hz; apply size_empty_iff in Hz; set_solver));
      lia.
  - rewrite Htr, !count_app.
    destruct by_, (munmap_ok env (munmaps st));
      rewrite ?count_cons, ?count_nil; simpl; lia.
Qed.

End Bookkeeping.

(** ** What each primitive leaves behind *)

Lemma mmap_region_mmaps env st :
  mmaps (final (mmap_region env st)) = S (mmaps st).
Proof. unfold mmap_region. by destruct (mmap_ok env (mmaps st)). Qed.

Lemma mmap_region_mapped env st :
  mapped (final (mmap_region env st)) =
  if mmap_ok env (mmaps st) then {[mmaps st]} ∪ mapped st else mapped st.
Proof. unfold mmap_region. by destruct (mmap_ok env (mmaps st)). Qed.

Lemma mmap_region_trace env st :
  trace (final (mmap_region env st)) =
  trace st ++ [EvMmap (if mmap_ok env (mmaps st) then Region (mmaps st)
                       else MAP_FAILED)].
Proof. unfold mmap_region. by destruct (mmap_ok env (mmaps st)). Qed.

Lemma mmap_region_frame env st :
  let st' := final (mmap_region env st) in
  now st' = now st /\ polls st' = polls st /\ ticks st' = ticks st /\
  munmaps st' = munmaps st /\ memory_regions st' = memory_regions st /\
  pages st' = pages st /\ flushes st' = flushes st.
Proof. unfold mmap_region. by destruct (mmap_ok env (mmaps st)). Qed.

Lemma munmap_region_mapped env by_ r st :
  mapped (final (munmap_region env by_ r st)) =
  if munmap_ok env (munmaps st) then mapped st ∖ {[r]} else mapped st.
Proof. unfold munmap_region. by destruct (munmap_ok env (munmaps st)). Qed.

Lemma munmap_region_trace env by_ r st :
  trace (final (munmap_region env by_ r st)) =
  trace st ++ [EvMunmap by_ r (munmap_ok env (munmaps st))].
Proof. unfold munmap_region. by destruct (munmap_ok env (munmaps st)). Qed.

Lemma munmap_region_frame env by_ r st :
  let st' := final (munmap_region env by_ r st) in
  now st' = now st /\ polls st' = polls st /\ ticks st' = ticks st /\
  mmaps st' = mmaps st /\ munmaps st' = S (munmaps st) /\
  memory_regions st' = memory_regions st /\
  pages st' = pages st /\ flushes st' = flushes st.
Proof. unfold munmap_region. by destruct (munmap_ok env (munmaps st)). Qed.

(** ** Page accesses *)

Lemma page_step_refl st : page_step st st.
Proof.
  repeat split. exists []. by rewrite app_nil_r.
Qed.

Lemma page_step_trans st1 st2 st3 :
  page_step st1 st2 -> page_step st2 st3 -> page_step st1 st3.
Proof.
  intros (?&?&?&?&?&?&?&?&evs1&Ht1&Hf1) (?&?&?&?&?&?&?&?&evs2&Ht2&Hf2).
  repeat split; try congruence.
  exists (evs1 ++ evs2). rewrite Ht2, Ht1, app_assoc.
  split; [done|]. by apply Forall_app.
Qed.

Lemma page_step_store r page v st :
  page_step st (final (store_page r page v st)).
Proof.
  repeat split. exists [EvStore r page v]. split; [done|].
  by repeat constructor.
Qed.

Lemma page_step_load r page st :
  page_step st (final (load_page r page st)).
Proof.
  repeat split. eexists [_]. split; [done|]. by repeat constructor.
Qed.

Lemma touch_pages_page_step data r i st :
  wp (touch_pages data r i) (fun _ st' => page_step st st')
     (fun _ => False) (fun _ => False) st.
Proof.
  unfold touch_pages.
  apply (wp_for_each (fun _ st' => page_step st st')) with
    (n := Z.to_nat (pages_per_thread data)); [|lia|apply page_step_refl].
  intros j st' _ Hst'. apply wp_store_page.
  eapply page_step_trans; [done|apply page_step_store].
Qed.

Lemma access_pages_page_step data r i (n : nat) :
  forall j st, (Z.to_nat (pages_per_thread data - j) <= n)%nat ->
    wp (access_pages data r i j) (fun _ st' => page_step st st')
       (fun _ => False) (fun _ => False) st.
Proof.
  induction n as [|n IH]; intros j st Hn; simp access_pages;
    destruct (Z_lt_dec j (pages_per_thread data)) as [Hlt|Hge]; simpl;
    try lia; try (apply wp_ret, page_step_refl).
  wp_steps.
  eapply wp_mono; [apply IH; lia| |done|done].
  intros [] st' Hst'. cbn beta in Hst'.
  eapply page_step_trans; [|exact Hst'].
  eapply page_step_trans; [apply page_step_load|apply page_step_store].
Qed.

(** ** The table *)

Lemma regions_cons s table : regions (s :: table) = regions [s] ++ regions table.
Proof. by destruct s. Qed.

Lemma regions_insert table i s :
  (i < length table)%nat ->
  regions (<[i := s]> table) =
  regions (take i table) ++ regions [s] ++ regions (drop (S i) table).
Proof.
  intros Hi. rewrite insert_take_drop by done.
  by rewrite regions_app, regions_cons.
Qed.

Lemma regions_split table i s :
  table !! i = Some s ->
  regions table =
  regions (take i table) ++ regions [s] ++ regions (drop (S i) table).
Proof.
  intros Hi. rewrite <- (take_drop_middle table i s) at 1 by done.
  by rewrite regions_app, regions_cons.
Qed.

Lemma regions_drop_nil table i :
  regions (drop i table) = [] -> regions (drop (S i) table) = [].
Proof.
  intros H. destruct (table !! i) as [s|] eqn:E.
  - rewrite (drop_S _ _ _ E), regions_cons in H.
    by apply app_eq_nil in H as [_ ?].
  - apply lookup_ge_None in E. rewrite drop_ge; [done|lia].
Qed.

Lemma regions_replicate_uninit n : regions (replicate n Uninit) = [].
Proof. induction n; [done|]. simpl. done. Qed.

(** ** The bookkeeping invariant through the phases *)

Section Phases.

Variable env : worker_env.
Variable data : thread_data.

Lemma table_inv_some n st : table_inv env n st -> some_inv env st.
Proof. intros [H _]. by eexists. Qed.

Lemma table_inv_neutral n st st' evs :
  table_inv env n st ->
  memory_regions st' = memory_regions st ->
  (mmaps st <= mmaps st')%nat -> mapped st' = mapped st ->
  flushes st' = flushes st -> trace st' = trace st ++ evs ->
  Forall (fun e => neutral e = true) evs ->
  table_inv env n st'.
Proof.
  intros [Hinv Hlen] Hmem ?????. split; rewrite Hmem; [|done].
  eapply wi_neutral; eauto.
Qed.

Lemma table_inv_page_step n st st' :
  table_inv env n st -> page_step st st' -> table_inv env n st'.
Proof.
  intros [Hinv Hlen] Hstep. pose proof Hstep as (_&_&_&_&_&Hmem&_).
  split; rewrite Hmem; [|done]. by eapply wi_page_step.
Qed.

Lemma table_inv_poll n s st :
  table_inv env n st -> table_inv env n (final (poll env s st)).
Proof.
  intros H. eapply table_inv_neutral; eauto.
Qed.

Lemma map_iteration_inv n i st :
  table_inv env n st -> (i < n)%nat ->
  regions (drop i (memory_regions st)) = [] ->
  wp (map_iteration env data i)
     (fun _ st' => table_inv env n st' /\
                   regions (drop (S i) (memory_regions st')) = [])
     (some_inv env) (some_inv env) st.
Proof.
  intros [Hinv Hlen] Hi Hdrop. unfold map_iteration.
  pose proof (mmap_region_mmaps env st) as Hm.
  pose proof (mmap_region_mapped env st) as Hmap.
  pose proof (mmap_region_trace env st) as Htr.
  pose proof (mmap_region_frame env st) as (_&_&_&_&Hmem&_&Hfl).
  assert (Hlive : regions (memory_regions st) = regions (take i (memory_regions st))).
  { rewrite <- (take_drop i (memory_regions st)) at 1.
    by rewrite regions_app, Hdrop, app_nil_r. }
  apply wp_bind, wp_mmap_region. intros s Hs.
  set (st1 := final (mmap_region env st)) in *.
  wp_steps. apply wp_load_slot; simpl; rewrite Hmem.
  2:{ rewrite list_lookup_insert_eq by lia. intros [[= ->]|[=]].
      by destruct (mmap_ok env (mmaps st)). }
  intros s'. rewrite list_lookup_insert_eq by lia. intros [= <-] _.
  assert (Hdrop' : regions (drop (S i) (<[i:=s]> (memory_regions st))) = []).
  { rewrite drop_insert_lt by lia. by apply regions_drop_nil. }
  destruct (mmap_ok env (mmaps st)) eqn:Hok; subst s.
  - eapply wp_mono; [apply touch_pages_page_step| |done|done].
    intros [] st' Hstep. cbn beta in Hstep.
    pose proof Hstep as (_&_&_&_&_&Hmem'&_). simpl in Hmem'.
    split; [|by rewrite Hmem'].
    eapply table_inv_page_step; [|exact Hstep].
    split; simpl; [|by rewrite length_insert].
    rewrite regions_insert by lia.
    rewrite (regions_drop_nil _ _ Hdrop), app_nil_r, <- Hlive. simpl.
    by apply wi_mmap_ok.
  - apply wp_emit. simpl. split; [|done].
    split; simpl; [|by rewrite length_insert].
    rewrite regions_insert by lia.
    rewrite (regions_drop_nil _ _ Hdrop), app_nil_r, <- Hlive. simpl.
    eapply wi_neutral; [exact Hinv|..]; simpl; rewrite ?Hm, ?Hmap, ?Hfl, ?Htr;
      [lia|done|done| |].
    + by rewrite <- app_assoc.
    + by repeat constructor.
Qed.

Lemma access_iteration_inv n i st :
  table_inv env n st ->
  wp (access_iteration data i) (fun _ => table_inv env n)
     (some_inv env) (some_inv env) st.
Proof.
  intros Hinv. unfold access_iteration.
  apply wp_bind, wp_load_slot; [|intros _; by eapply table_inv_some].
  intros [| |r] _ _; try by apply wp_ret.
  eapply wp_mono; [by eapply access_pages_page_step| |done|done].
  intros [] st' Hstep. by eapply table_inv_page_step.
Qed.

Lemma release_iteration_inv n i st :
  table_inv env n st -> (i < n)%nat ->
  regions (take i (memory_regions st)) = [] ->
  wp (release_iteration env data i)
     (fun _ st' => table_inv env n st' /\
                   regions (take (S i) (memory_regions st')) = [])
     (some_inv env) (some_inv env) st.
Proof.
  intros [Hinv Hlen] Hi Htake. unfold release_iteration.
  apply wp_bind, wp_load_slot; [|intros _; by eexists].
  intros [| |r] Hslot Hne; [done| |].
  - apply wp_ret. split; [done|].
    by rewrite (take_S_r _ _ _ Hslot), regions_app, Htake.
  - rewrite (regions_split _ _ _ Hslot), Htake in Hinv. simpl in Hinv.
    pose proof (munmap_region_mapped env ByRelease r st) as Hmap.
    pose proof (munmap_region_trace env ByRelease r st) as Htr.
    pose proof (munmap_region_frame env ByRelease r st)
      as (_&_&_&Hm&_&Hmem&_&Hfl).
    apply wp_bind, wp_munmap_region.
    set (st1 := final (munmap_region env ByRelease r st)) in *.
    assert (Hpost : forall st',
      memory_regions st' = <[i:=MAP_FAILED]> (memory_regions st) ->
      worker_inv env (regions (drop (S i) (memory_regions st))) st' ->
      table_inv env n st' /\ regions (take (S i) (memory_regions st')) = []).
    { intros st' Hmem' Hinv'. rewrite Hmem'. split.
      - split; rewrite Hmem'; [|by rewrite length_insert].
        rewrite regions_insert, Htake by lia. done.
      - rewrite take_insert_lt by lia.
        rewrite (take_S_r _ _ _ Hslot), insert_app_r_alt by (rewrite length_take; lia).
        rewrite length_take, Nat.min_l, Nat.sub_diag by lia. simpl.
        by rewrite regions_app, Htake. }
    destruct (munmap_ok env (munmaps st)) eqn:Hok; wp_steps.
    + apply Hpost; simpl; [by rewrite Hmem|].
      eapply (wi_munmap env ByRelease 0 0); [exact Hinv|..]; simpl;
        rewrite ?Hok, ?Hm, ?Hmap, ?Htr, ?Hfl; done.
    + apply Hpost; simpl; [by rewrite Hmem|].
      eapply (wi_munmap env ByRelease); [exact Hinv|..]; simpl;
        rewrite ?Hok, ?Hm, ?Hmap, ?Htr, ?Hfl, <- ?app_assoc; done.
Qed.

Lemma cleanup_iteration_inv i st :
  worker_inv env (regions (drop i (memory_regions st))) st ->
  wp (cleanup_iteration env i)
     (fun _ st' =>
        worker_inv env (regions (drop (S i) (memory_regions st'))) st' /\
        memory_regions st' = memory_regions st /\
        (forall e, e ∈ trace st -> e ∈ trace st') /\
        (forall r, memory_regions st !! i = Some (Region r) ->
           exists ok, EvMunmap ByCleanup r ok ∈ trace st'))
     (some_inv env) (some_inv env) st.
Proof.
  intros Hinv. unfold cleanup_iteration.
  apply wp_bind, wp_load_slot; [|intros _; by eexists].
  intros s Hslot Hne. rewrite (drop_S _ _ _ Hslot), regions_cons in Hinv.
  destruct s as [| |r]; simpl in Hinv; [done| |].
  { apply wp_ret. split; [done|]. split; [done|]. split; [done|].
    intros r. by rewrite Hslot. }
  pose proof (munmap_region_mapped env ByCleanup r st) as Hmap.
  pose proof (munmap_region_trace env ByCleanup r st) as Htr.
  pose proof (munmap_region_frame env ByCleanup r st)
    as (_&_&_&Hm&_&Hmem&_&Hfl).
  wp_steps. rewrite Hmem, Htr. split; [|split; [done|split]].
  - eapply (wi_munmap env ByCleanup 0 0); [exact Hinv|..];
      rewrite ?Hm, ?Hmap, ?Htr, ?Hfl; done.
  - intros e He. apply elem_of_app. by left.
  - intros r0 Hr0. rewrite Hslot in Hr0. injection Hr0 as <-.
    eexists. apply elem_of_app. right. by left.
Qed.

(** The three phases and the sleep. *)
Lemma flag_down_mono st st' :
  flag_down env st -> (polls st <= polls st')%nat -> flag_down env st'.
Proof. intros (c & Hc & Hle) H. exists c. split; [done|lia]. Qed.

Lemma flag_at_true_up st :
  flag_at env (polls st) = true -> ~ flag_down env st.
Proof.
  unfold flag_at. intros H (c & Hc & Hle). rewrite Hc in H.
  apply bool_decide_eq_true in H. lia.
Qed.

Lemma flag_at_false_down st :
  flag_at env (polls st) = false -> flag_down env st.
Proof.
  unfold flag_at, flag_down. destruct (clear_at env) as [c|]; [|done].
  intros H. apply bool_decide_eq_false in H. exists c. split; [done|lia].
Qed.

Lemma map_phase_inv n st :
  n = n_iter data ->
  table_inv env n st ->
  flag_down env st \/ regions (memory_regions st) = [] ->
  wp (for_running env AtMap (map_iteration env data) n 0)
     (fun _ => table_inv env n) (some_inv env) (some_inv env) st.
Proof.
  intros Hn Hinv Hfresh.
  apply (wp_for_running env
           (fun i st' => table_inv env n st' /\
              (flag_down env st' \/ regions (drop i (memory_regions st')) = [])))
    with (n := n); [| | |lia|by rewrite drop_0].
  - intros i st' Hi [Hinv' Hdrop] Hflag.
    destruct Hdrop as [Hdown|Hdrop]; [by apply flag_at_true_up in Hflag|].
    eapply wp_mono;
      [apply map_iteration_inv; [by apply table_inv_poll|done|done]| |done|done].
    intros [] st'' [? ?]. split; [done|by right].
  - intros i st' _ [Hinv' _] _. by apply table_inv_poll.
  - by intros st' [? _].
Qed.

Lemma access_phase_inv n st :
  table_inv env n st ->
  wp (for_running env AtAccess (access_iteration data) n 0)
     (fun _ => table_inv env n) (some_inv env) (some_inv env) st.
Proof.
  intros Hinv.
  apply (wp_for_running env (fun _ => table_inv env n)) with (n := n);
    [| | |lia|done].
  - intros i st' _ Hinv' _. apply access_iteration_inv.
    by apply table_inv_poll.
  - intros i st' _ Hinv' _. by apply table_inv_poll.
  - done.
Qed.

Lemma release_phase_inv n st :
  table_inv env n st ->
  wp (for_running env AtRelease (release_iteration env data) n 0)
     (fun _ st' => table_inv env n st' /\
        (flag_down env st' \/ regions (memory_regions st') = []))
     (some_inv env) (some_inv env) st.
Proof.
  intros Hinv.
  apply (wp_for_running env
           (fun i st' => table_inv env n st' /\
                         regions (take i (memory_regions st')) = []))
    with (n := n); [| | |lia|by rewrite take_0].
  - intros i st' Hi [Hinv' Htake] _.
    apply release_iteration_inv; [by apply table_inv_poll|done|done].
  - intros i st' _ [Hinv' _] Hflag. split; [by apply table_inv_poll|].
    left. eapply flag_down_mono; [by apply flag_at_false_down|]. simpl. lia.
  - intros st' [[Hinv' Hlen] Htake]. split; [done|]. right.
    by rewrite take_ge in Htake by lia.
Qed.

Lemma cycle_body_inv n st :
  n = n_iter data ->
  table_inv env n st ->
  flag_down env st \/ regions (memory_regions st) = [] ->
  wp (cycle_body env data)
     (fun _ st' => table_inv env n st' /\
        (flag_down env st' \/ regions (memory_regions st') = []))
     (some_inv env) (some_inv env) st.
Proof.
  intros Hn Hinv Hfresh. unfold cycle_body. rewrite <- Hn.
  apply wp_bind.
  eapply wp_mono; [by apply map_phase_inv| |done|done].
  intros [] st1 Hinv1. cbn beta. apply wp_bind.
  eapply wp_mono; [by apply access_phase_inv| |done|done].
  intros [] st2 Hinv2. cbn beta. apply wp_bind.
  eapply wp_mono; [by apply release_phase_inv| |done|done].
  intros [] st3 [Hinv3 Hfresh3]. cbn beta. apply wp_usleep. split.
  - eapply table_inv_neutral; eauto.
  - destruct Hfresh3 as [?|?]; [left|by right].
    by eapply flag_down_mono.
Qed.

Lemma cycle_loop_inv n fuel start_time st :
  n = n_iter data ->
  table_inv env n st ->
  flag_down env st \/ regions (memory_regions st) = [] ->
  wp (cycle_loop env data fuel start_time)
     (fun _ => table_inv env n) (some_inv env) (some_inv env) st.
Proof.
  intros Hn Hinv Hfresh.
  apply (wp_cycle_loop env data
           (fun st' => table_inv env n st' /\
              (flag_down env st' \/ regions (memory_regions st') = [])));
    [| | |done].
  - intros st' [Hinv' _] _. by apply table_inv_poll.
  - intros st' [Hinv' Hfresh'] Hflag st1 -> t ->.
    assert (table_inv env n (final (time_now env (final (poll env AtCycle st'))))).
    { eapply table_inv_neutral; [by apply table_inv_poll|..]; eauto. }
    split; [done|]. intros _.
    apply cycle_body_inv; [done|done|]. right.
    destruct Hfresh' as [Hdown|?]; [|done].
    by apply flag_at_true_up in Hflag.
  - intros st' [Hinv' _]. by eapply table_inv_some.
Qed.

(** The mappings the cleanup loop has passed to [munmap] so far. *)
Lemma cleanup_inv n st :
  table_inv env n st -> n = n_iter data ->
  wp (cleanup env data)
     (fun _ st' =>
        worker_inv env [] st' /\
        memory_regions st' = memory_regions st /\
        (forall e, e ∈ trace st -> e ∈ trace st') /\
        (forall r, Region r ∈ memory_regions st ->
           exists ok, EvMunmap ByCleanup r ok ∈ trace st'))
     (some_inv env) (some_inv env) st.
Proof.
  intros [Hinv Hlen] Hn. unfold cleanup. rewrite <- Hn.
  eapply wp_mono;
    [apply (wp_for_each
       (fun i st' =>
          worker_inv env (regions (drop i (memory_regions st'))) st' /\
          memory_regions st' = memory_regions st /\
          (forall e, e ∈ trace st -> e ∈ trace st') /\
          (forall j r, (j < i)%nat -> memory_regions st !! j = Some (Region r) ->
             exists ok, EvMunmap ByCleanup r ok ∈ trace st'))) with (n := n)
    | |done|done].
  - intros i st' Hi (Hinv' & Hmem & Hsub & Hdone).
    eapply wp_mono; [by apply cleanup_iteration_inv| |done|done].
    intros [] st'' (Hinv'' & Hmem'' & Hsub'' & Hnew). cbn beta.
    split; [done|]. split; [congruence|]. split; [by auto|].
    intros j r Hj Hslot. destruct (decide (j = i)) as [->|Hne].
    + apply Hnew. by rewrite Hmem.
    + destruct (Hdone j r) as [ok Hok]; [lia|done|]. exists ok. by apply Hsub''.
  - lia.
  - rewrite drop_0. split; [done|]. split; [done|]. split; [done|].
    intros ???. lia.
  - intros [] st' (Hinv' & Hmem & Hsub & Hdone). cbn beta.
    rewrite drop_ge in Hinv' by (rewrite Hmem; lia).
    split; [done|]. split; [done|]. split; [done|].
    intros r Hr. apply list_elem_of_lookup in Hr as [j Hj].
    apply (Hdone j r); [|done]. apply lookup_lt_Some in Hj. lia.
Qed.

End Phases.

(** ** A whole worker run *)

Lemma wp_malloc_table env data (Q : bool -> wstate -> Prop) U F st :
  Q (malloc_ok env) (final (malloc_table env data st)) ->
  wp (malloc_table env data) Q U F st.
Proof. unfold wp, malloc_table. by destruct (malloc_ok env). Qed.

Lemma worker_inv_init env st :
  mmaps st = 0%nat -> mapped st = ∅ -> flushes st = 0 ->
  Forall (fun e => neutral e = true) (trace st) ->
  worker_inv env [] st.
Proof.
  intros Hm Hmap Hfl Htr.
  destruct (neutral_silent _ Htr) as (E1&E2&E3&E4&E5&E6&E7&E8).
  split; rewrite ?E1, ?E2, ?E3, ?E4, ?E5, ?E6, ?E7, ?E8, ?Hmap, ?Hfl;
    try done.
  - apply NoDup_nil_2.
  - intros r Hr. by apply elem_of_nil in Hr.
  - apply NoDup_nil_2.
  - intros r Hr. by apply elem_of_nil in Hr.
  - intros r Hr. by apply elem_of_nil in Hr.
Qed.

Lemma run_worker_spec env data fuel :
  match run_worker env data fuel with
  | Ok _ st =>
      if malloc_ok env then
        exists st_l st_c,
          table_inv env (n_iter data) st_l /\
          worker_inv env [] st_c /\
          memory_regions st_c = memory_regions st_l /\
          (forall e, e ∈ trace st_l -> e ∈ trace st_c) /\
          (forall r, Region r ∈ memory_regions st_l ->
             exists ok, EvMunmap ByCleanup r ok ∈ trace st_c) /\
          trace st = trace st_c ++ epilogue (thread_id data) (flushes st_c) /\
          mapped st = mapped st_c /\ flushes st = flushes st_c /\
          memory_regions st = memory_regions st_c
      else
        trace st = alloc_failure_trace data /\
        flushes st = thread_tlb_flushes data /\ mapped st = ∅ /\
        memory_regions st = []
  | Undefined st | OutOfFuel st => malloc_ok env = true /\ some_inv env st
  end.
Proof.
  unfold run_worker.
  match goal with |- match ?m ?s with Ok a st => @?Q a st
                     | Undefined st1 => @?U st1 | OutOfFuel st2 => @?F st2 end =>
    change (wp m Q U F s) end.
  unfold tlb_flush_worker. wp_steps. apply wp_malloc_table.
  unfold malloc_table. destruct (malloc_ok env) eqn:Hmalloc; simpl.
  - wp_steps.
    match goal with |- wp _ _ _ _ ?s => set (st0 := s) end.
    assert (Hst0 : table_inv env (n_iter data) st0).
    { split; [|apply length_replicate]. simpl.
      rewrite regions_replicate_uninit.
      apply worker_inv_init; try done. simpl. by repeat constructor. }
    eapply wp_mono;
      [apply (cycle_loop_inv env data (n_iter data));
         [done|done|right; apply regions_replicate_uninit]
      | |intros s Hs; by split|intros s Hs; by split].
    intros [] st_l Hl. cbn beta. apply wp_bind.
    eapply wp_mono;
      [by apply (cleanup_inv env data (n_iter data))
      | |intros s Hs; by split|intros s Hs; by split].
    intros [] st_c (Hc & Hmem & Hsub & Hdone). cbn beta.
    unfold merge_counter. wp_steps. simpl.
    exists st_l, st_c. rewrite <- !app_assoc. done.
  - wp_steps. done.
Qed.

(** What holds of the trace however the run ends. *)
Lemma run_worker_trace_facts env data fuel :
  let st := final (run_worker env data fuel) in
  (thread_tlb_flushes data = 0 ->
   flushes st = long64 (count is_release_ok (trace st))) /\
  count is_release_ok (trace st) <= count is_mmap_ok (trace st) /\
  count is_release_failed (trace st) = count is_munmap_log (trace st) /\
  NoDup (unmap_ids (trace st)).
Proof.
  pose proof (run_worker_spec env data fuel) as H.
  assert (Hsome : forall st, some_inv env st ->
    flushes st = long64 (count is_release_ok (trace st)) /\
    count is_release_ok (trace st) <= count is_mmap_ok (trace st) /\
    count is_release_failed (trace st) = count is_munmap_log (trace st) /\
    NoDup (unmap_ids (trace st))).
  { intros st [live []]. repeat split; try done. lia. }
  destruct (run_worker env data fuel) as [[] st|st|st]; simpl.
  - destruct (malloc_ok env).
    + destruct H as (st_l & st_c & _ & Hc & _ & _ & _ & Htr & _ & Hfl & _).
      destruct (Hsome st_c) as (F1 & F2 & F3 & F4); [by eexists|].
      rewrite Htr, Hfl, !count_app, unmap_ids_app. unfold epilogue.
      rewrite !count_cons, !count_nil. simpl. rewrite app_nil_r, !Z.add_0_r.
      done.
    + destruct H as (Htr & Hfl & _). rewrite Htr, Hfl.
      unfold alloc_failure_trace. rewrite !count_cons, !count_nil. simpl.
      repeat split; try done. apply NoDup_nil_2.
  - destruct H as [_ H]. destruct (Hsome _ H) as (?&?&?&?). done.
  - destruct H as [_ H]. destruct (Hsome _ H) as (?&?&?&?). done.
Qed.

(** ** Claims about one worker *)

Lemma omap_twice {A B} (f : A -> option B) (l : list A) (a1 a2 : A) (b : B) :
  a1 ∈ l -> a2 ∈ l -> a1 <> a2 -> f a1 = Some b -> f a2 = Some b ->
  ~ NoDup (omap f l).
Proof.
  intros H1 H2 Hne Hf1 Hf2 Hnd.
  apply list_elem_of_split in H1 as (l1 & l2 & ->).
  rewrite omap_app in Hnd. simpl in Hnd. rewrite Hf1 in Hnd.
  apply NoDup_app in Hnd as (_ & Hdisj & Hnd).
  apply NoDup_cons in Hnd as [Hnotin _].
  apply elem_of_app in H2 as [H2|H2].
  - apply (Hdisj b); [|by left]. apply list_elem_of_omap. eauto.
  - apply elem_of_cons in H2 as [->|H2]; [done|].
    apply Hnotin. apply list_elem_of_omap. eauto.
Qed.

(** C4: the per-thread flush counter is the number of [munmap] calls of
    the release phase that succeeded (as a [long]); a failed one is
    logged and not counted; so the count a worker reports never exceeds
    the number of [mmap] calls that succeeded in the same run. *)
Theorem C4_flush_counter_counts_releases env data fuel :
  thread_tlb_flushes data = 0 ->
  reported_flushes env data fuel
    = long64 (count is_release_ok (worker_trace env data fuel)) /\
  (count is_release_ok (worker_trace env data fuel) < 2 ^ 63 ->
   reported_flushes env data fuel
     = count is_release_ok (worker_trace env data fuel)) /\
  count is_release_failed (worker_trace env data fuel)
    = count is_munmap_log (worker_trace env data fuel) /\
  count is_release_ok (worker_trace env data fuel)
    <= count is_mmap_ok (worker_trace env data fuel) /\
  reported_flushes env data fuel
    <= count is_mmap_ok (worker_trace env data fuel).
Proof.
  intros Hzero. unfold reported_flushes, worker_trace.
  destruct (run_worker_trace_facts env data fuel) as (Hfl & Hle & Hlog & _).
  specialize (Hfl Hzero).
  pose proof (count_nonneg is_release_ok
                (trace (final (run_worker env data fuel)))) as Hpos.
  pose proof (long64_le _ Hpos).
  repeat split; try done; try lia.
  intros Hsmall. rewrite Hfl. apply long64_small.
  change (2 ^ 63) with 9223372036854775808 in Hsmall. lia.
Qed.

Lemma C4_witness :
  reported_flushes stubborn_env sample_data 5 = 1 /\
  count is_mmap_ok (worker_trace stubborn_env sample_data 5) = 2.
Proof.
  destruct (C4_flush_counter_counts_releases stubborn_env sample_data 5
              eq_refl) as (_ & H & _).
  split; [|by vm_compute]. rewrite H; by vm_compute.
Defined.

(** C10: a release-phase iteration leaves [MAP_FAILED] in its slot
    whether [munmap] succeeded or not; in a whole run no mapping is
    passed to [munmap] twice, and one whose release failed is not passed
    to [munmap] again by the cleanup loop. *)
Theorem C10_release_clears_slot env data fuel (i : nat) (s : slot) st :
  memory_regions st !! i = Some s -> s <> Uninit ->
  (exists st', release_iteration env data i st = Ok tt st' /\
               memory_regions st' !! i = Some MAP_FAILED) /\
  NoDup (unmap_ids (worker_trace env data fuel)) /\
  (forall r ok ok',
     EvMunmap ByRelease r ok ∈ worker_trace env data fuel ->
     EvMunmap ByCleanup r ok' ∉ worker_trace env data fuel).
Proof.
  intros Hslot Hne.
  destruct (run_worker_trace_facts env data fuel) as (_ & _ & _ & Hnd).
  fold (worker_trace env data fuel) in Hnd.
  split; [|split; [done|]].
  - unfold release_iteration, bind, load_slot. rewrite Hslot.
    apply lookup_lt_Some in Hslot as Hlt.
    destruct s as [| |r]; [done| |].
    + by exists st.
    + unfold munmap_region. destruct (munmap_ok env (munmaps st)); simpl;
        eexists; (split; [done|]); simpl; by apply list_lookup_insert_eq.
  - intros r ok ok' H1 H2. revert Hnd.
    by apply (omap_twice _ _ (EvMunmap ByRelease r ok)
                (EvMunmap ByCleanup r ok') r).
Qed.

Lemma C10_witness :
  exists st', release_iteration stubborn_env sample_data 0
                (WState 0 0 0 1 0 [Region 0] {[0%nat]} ∅ 0 []) = Ok tt st' /\
              memory_regions st' !! 0%nat = Some MAP_FAILED.
Proof.
  apply (C10_release_clears_slot stubborn_env sample_data 5 0 (Region 0)
           (WState 0 0 0 1 0 [Region 0] {[0%nat]} ∅ 0 []));
    [reflexivity | discriminate].
Defined.

(** C3, as the code has it, for the runs in which the worker returns
    without having read a slot of its table that was never written
    ([run_worker] gives [Ok]; the other runs are those of C9): the
    cleanup loop calls [munmap] on every mapping the table still holds
    when the cycle loop is left; a mapping is still there when the worker
    returns only if a [munmap] call on it failed; so when every [munmap]
    call succeeds nothing is left mapped and as many mappings were
    released as were made. *)
Theorem C3_cleanup_unmaps_table env data fuel st :
  run_worker env data fuel = Ok tt st ->
  (forall r, Region r ∈ memory_regions st ->
     exists ok, EvMunmap ByCleanup r ok ∈ trace st) /\
  (forall r, r ∈ mapped st -> r ∈ failed_ids (trace st)) /\
  ((forall k, munmap_ok env k = true) ->
   mapped st = ∅ /\
   count is_mmap_ok (trace st) = count is_munmap_ok (trace st)).
Proof.
  intros Hrun. pose proof (run_worker_spec env data fuel) as H.
  rewrite Hrun in H. destruct (malloc_ok env).
  - destruct H as (st_l & st_c & _ & Hc & Hmem_c & _ & Hdone & Htr & Hmap &
                   _ & Hmem).
    assert (Hfailed : forall r, r ∈ mapped st -> r ∈ failed_ids (trace st)).
    { intros r Hr. rewrite Hmap in Hr.
      destruct (inv_mapped _ _ _ Hc r Hr) as [_ [Hnil|Hf]].
      - by apply elem_of_nil in Hnil.
      - rewrite Htr, failed_ids_app. apply elem_of_app. by left. }
    split; [|split; [done|]].
    + intros r Hr. rewrite Hmem, Hmem_c in Hr.
      destruct (Hdone r Hr) as [ok Hok]. exists ok.
      rewrite Htr. apply elem_of_app. by left.
    + intros Hall.
      assert (Hempty : mapped st = ∅).
      { apply set_eq. intros r. split; [|set_solver]. intros Hr.
        rewrite Hmap in Hr.
        destruct (inv_mapped _ _ _ Hc r Hr) as [_ [Hnil|Hf]].
        - by apply elem_of_nil in Hnil.
        - destruct (inv_failed _ _ _ Hc r Hf) as [k Hk].
          rewrite Hall in Hk. done. }
      split; [done|].
      rewrite Htr, !count_app. unfold epilogue.
      rewrite !count_cons, !count_nil. simpl.
      rewrite (inv_size _ _ _ Hc), <- Hmap, Hempty, size_empty. lia.
  - destruct H as (Htr & _ & Hmap & Hmem). rewrite Htr, Hmap, Hmem.
    split; [|split].
    + intros r Hr. by apply elem_of_nil in Hr.
    + intros r Hr. set_solver.
    + intros _. split; [done|]. by vm_compute.
Qed.

Lemma C3_witness :
  mapped (final (run_worker late_signal_env sample_data 5)) = ∅ /\
  count is_mmap_ok (trace (final (run_worker late_signal_env sample_data 5)))
  = count is_munmap_ok
      (trace (final (run_worker late_signal_env sample_data 5))).
Proof.
  destruct (C3_cleanup_unmaps_table late_signal_env sample_data 5
              (final (run_worker late_signal_env sample_data 5)))
    as (_ & _ & H); [by vm_compute|].
  apply H. intros k. reflexivity.
Defined.

(** C3 as stated fails: the first [munmap] of the release phase fails,
    the slot is cleared all the same, and the worker returns with
    mapping 0 still in place, two mappings made and one released. *)
Lemma C3_counterexample :
  exists st,
    run_worker stubborn_env sample_data 5 = Ok tt st /\
    elements (mapped st) = [0%nat] /\
    count is_mmap_ok (trace st) = 2 /\
    count is_munmap_ok (trace st) = 1.
Proof. eexists. split; [vm_compute; reflexivity|]. by vm_compute. Qed.

(** C9 at the failing input: the flag is cleared when the first map
    phase has written slot 0 only; the cleanup loop then reads slot 1,
    which nothing has written since [malloc]. *)
Theorem C9_cleanup_reads_unwritten_slot :
  exists st,
    run_worker interrupted_env sample_data 5 = Undefined st /\
    memory_regions st = [Region 0; Uninit] /\
    unmap_ids (trace st) = [0%nat].
Proof. eexists. split; [vm_compute; reflexivity|]. by vm_compute. Qed.

(** ** Polling and termination *)

Lemma body_step_refl st : body_step st st.
Proof. repeat split. exists []. by rewrite app_nil_r. Qed.

Lemma body_step_trans st1 st2 st3 :
  body_step st1 st2 -> body_step st2 st3 -> body_step st1 st3.
Proof.
  intros (?&?&?&evs1&Ht1&Hf1) (?&?&?&evs2&Ht2&Hf2).
  repeat split; try congruence.
  exists (evs1 ++ evs2). rewrite Ht2, Ht1, app_assoc.
  split; [done|]. by apply Forall_app.
Qed.

Lemma page_step_body_step st st' : page_step st st' -> body_step st st'.
Proof.
  intros (?&?&?&_&_&_&_&_&evs&Htr&Hev). repeat split; try done.
  exists evs. split; [done|]. eapply Forall_impl; [exact Hev|].
  intros e. by destruct e.
Qed.

(** A step that appends the events [evs] and leaves clock and flag reads
    alone. *)
Lemma body_step_events st st' evs :
  now st' = now st -> polls st' = polls st -> ticks st' = ticks st ->
  trace st' = trace st ++ evs ->
  Forall (fun e => is_body_event e = true) evs ->
  body_step st st'.
Proof. intros. repeat split; try done. by exists evs. Qed.

Section Polling.

Variable env : worker_env.
Variable data : thread_data.

Lemma map_iteration_body_step i st :
  wp (map_iteration env data i) (fun _ st' => body_step st st')
     (fun st' => body_step st st') (fun _ => False) st.
Proof.
  unfold map_iteration.
  pose proof (mmap_region_trace env st) as Htr.
  pose proof (mmap_region_frame env st) as (Hnow&Hpolls&Hticks&_).
  assert (Hst1 : body_step st (final (mmap_region env st))).
  { eapply body_step_events; [done|done|done|exact Htr|].
    by repeat constructor. }
  apply wp_bind, wp_mmap_region. intros s _.
  set (st1 := final (mmap_region env st)) in *.
  assert (Hst2 : body_step st (final (store_slot i s st1))).
  { eapply body_step_trans; [exact Hst1|].
    eapply (body_step_events _ _ []); by rewrite ?app_nil_r. }
  wp_steps. apply wp_load_slot; [|done].
  intros [| |r] _ _.
  - apply wp_emit. eapply body_step_trans; [exact Hst2|].
    eapply body_step_events; try done. by repeat constructor.
  - apply wp_emit. eapply body_step_trans; [exact Hst2|].
    eapply body_step_events; try done. by repeat constructor.
  - eapply wp_mono; [apply touch_pages_page_step| |done|done].
    intros [] st' Hstep. eapply body_step_trans; [exact Hst2|].
    by apply page_step_body_step.
Qed.

Lemma access_iteration_body_step i st :
  wp (access_iteration data i) (fun _ st' => body_step st st')
     (fun st' => body_step st st') (fun _ => False) st.
Proof.
  unfold access_iteration.
  apply wp_bind, wp_load_slot; [|intros _; apply body_step_refl].
  intros [| |r] _ _; try (apply wp_ret, body_step_refl).
  eapply wp_mono; [by eapply access_pages_page_step| |done|done].
  intros [] st' Hstep. by apply page_step_body_step.
Qed.

Lemma release_iteration_body_step i st :
  wp (release_iteration env data i) (fun _ st' => body_step st st')
     (fun st' => body_step st st') (fun _ => False) st.
Proof.
  unfold release_iteration.
  apply wp_bind, wp_load_slot; [|intros _; apply body_step_refl].
  intros [| |r] _ _; try (apply wp_ret, body_step_refl).
  pose proof (munmap_region_trace env ByRelease r st) as Htr.
  pose proof (munmap_region_frame env ByRelease r st)
    as (Hnow&Hpolls&Hticks&_).
  apply wp_bind, wp_munmap_region.
  destruct (munmap_ok env (munmaps st)); wp_steps;
    (eapply body_step_events;
     [simpl; done|simpl; done|simpl; done
     |simpl; rewrite Htr, <- ?app_assoc; done
     |by repeat constructor]).
Qed.

(** *** The clock *)

Lemma phase_now s body n st :
  (forall i st0, wp (body i) (fun _ st' => body_step st0 st')
                    (fun st' => body_step st0 st') (fun _ => False) st0) ->
  wp (for_running env s body n 0) (fun _ st' => now st' = now st)
     (fun _ => True) (fun _ => False) st.
Proof.
  intros Hbody.
  apply (wp_for_running env (fun _ st' => now st' = now st)) with (n := n);
    [| | |lia|done]; try done.
  intros i st' _ Hnow _.
  eapply wp_mono; [apply Hbody| |done|done].
  intros [] st'' (Hnow'' & _). by rewrite Hnow''.
Qed.

Lemma cycle_body_now st :
  wp (cycle_body env data) (fun _ st' => now st' = now st + 1000)
     (fun _ => True) (fun _ => False) st.
Proof.
  unfold cycle_body. apply wp_bind.
  eapply wp_mono;
    [apply phase_now, map_iteration_body_step| |done|done].
  intros [] st1 H1. cbn beta. apply wp_bind.
  eapply wp_mono;
    [apply phase_now, access_iteration_body_step| |done|done].
  intros [] st2 H2. cbn beta. apply wp_bind.
  eapply wp_mono;
    [apply phase_now, release_iteration_body_step| |done|done].
  intros [] st3 H3. cbn beta. apply wp_usleep. simpl. congruence.
Qed.

(** The loop is left when its head has been reached often enough for
    the sleeps alone to carry the clock past the deadline. *)
Lemma cycle_loop_terminates start_time :
  (forall k, 0 <= elapse env k) ->
  forall fuel st,
    (1 <= fuel)%nat ->
    (start_time + duration_seconds data) * 1000000
      <= now st + 1000 * (Z.of_nat fuel - 1) ->
    wp (cycle_loop env data fuel start_time) (fun _ _ => True)
       (fun _ => True) (fun _ => False) st.
Proof.
  intros Helapse fuel.
  induction fuel as [|fuel IH]; intros st Hfuel Hdeadline; [lia|].
  simpl. apply wp_bind, wp_poll.
  destruct (flag_at env (polls st)); [|by apply wp_ret].
  apply wp_bind, wp_time_now. cbn beta.
  case_decide as Ht; [by apply wp_ret|]. simpl in Ht.
  apply wp_bind.
  eapply wp_mono; [apply cycle_body_now| |done|done].
  intros [] st' Hnow. simpl in Hnow. cbn beta.
  pose proof (Helapse (ticks st)) as Hk.
  destruct fuel as [|fuel'].
  - exfalso. apply Ht.
    assert (start_time + duration_seconds data
            <= (now st + elapse env (ticks st)) / 1000000); [|lia].
    apply Z.div_le_lower_bound; lia.
  - apply IH; lia.
Qed.

(** *** Nothing happens after a stop *)










End Polling.

(** ** Reads of the flag as guards *)





Section Guards.

Variable env : worker_env.
Variable data : thread_data.
















End Guards.

(** The guard rejects a second map iteration that no read of the flag
    precedes, and an iteration after a read that gave 0. *)
Lemma guard_rejects_unguarded_iterations :
  guard_run Idle [EvPoll AtMap true; EvMmap (Region 0); EvStore 0 0 0;
                  EvMmap (Region 1)] = None /\
  guard_run Idle [EvPoll AtRelease false; EvMunmap ByRelease 0 true] = None /\
  guard_run Idle [EvPoll AtMap true; EvMmap (Region 0); EvStore 0 0 0;
                  EvLoad 0 0 0] = None.
Proof. done. Qed.

(** ** Claims about the access phase and about termination *)

(** C7: in the access phase the worker, for a slot [i] that holds a
    mapping, visits the page indices j = 0, 4, 8, ... below
    [pages_per_thread], and at page (j*17 + i*13) mod [pages_per_thread]
    reads a byte and writes back the byte read plus one. *)
Theorem C7_access_pattern data (i r : nat) st :
  1 <= pages_per_thread data <= 100000 ->
  Z.of_nat i < 10000 ->
  memory_regions st !! i = Some (Region r) ->
  (forall j, j ∈ stride_indices 0 (pages_per_thread data) <->
             0 <= j < pages_per_thread data /\ j mod 4 = 0) /\
  exists st',
    access_iteration data i st = Ok tt st' /\
    trace st' = trace st ++
      access_trace r
        ((fun j => (j * 17 + Z.of_nat i * 13) mod pages_per_thread data)
           <$> stride_indices 0 (pages_per_thread data))
        (pages st).
Proof.
  intros Hp Hi Hslot. split; [intros j; apply elem_of_stride_indices|].
  unfold access_iteration, bind, load_slot. rewrite Hslot.
  destruct (access_pages_trace data r (Z.of_nat i)) with
    (n := Z.to_nat (pages_per_thread data - 0)) (j := 0) (st := st)
    as (st' & Hrun & Htr & _); [lia|lia|lia|lia|].
  by exists st'.
Qed.

Lemma C7_witness :
  exists st',
    access_iteration sample_data 1
      (WState 0 0 0 2 0 [Region 0; Region 1] {[0%nat; 1%nat]} ∅ 0 [])
    = Ok tt st' /\
    trace st' = [EvLoad 1 3 0; EvStore 1 3 1; EvLoad 1 1 0; EvStore 1 1 1].
Proof.
  destruct (C7_access_pattern sample_data 1 1
              (WState 0 0 0 2 0 [Region 0; Region 1] {[0%nat; 1%nat]} ∅ 0 []))
    as (_ & st' & Hrun & Htr); [simpl; lia|simpl; lia|reflexivity|].
  exists st'. split; [exact Hrun|]. rewrite Htr. by vm_compute.
Defined.

Lemma cleanup_returns env data st :
  wp (cleanup env data) (fun _ _ => True) (fun _ => True) (fun _ => False) st.
Proof.
  unfold cleanup.
  apply (wp_for_each (fun _ _ => True)) with (n := n_iter data); [|lia|done].
  intros i st' _ _. unfold cleanup_iteration.
  apply wp_bind, wp_load_slot; [|done].
  intros [| |r] _ _; try by apply wp_ret.
  by wp_steps.
Qed.

Lemma run_worker_returns env data fuel :
  (forall k, 0 <= elapse env k) ->
  (Z.to_nat (1000 * duration_seconds data) < fuel)%nat ->
  wp (tlb_flush_worker env data fuel) (fun _ _ => True) (fun _ => True)
     (fun _ => False) (init_wstate env data).
Proof.
  intros Helapse Hfuel. unfold tlb_flush_worker.
  wp_steps. apply wp_malloc_table.
  unfold malloc_table. destruct (malloc_ok env); simpl; [|by wp_steps].
  wp_steps.
  eapply wp_mono; [apply cycle_loop_terminates; [done|lia|]| |done|done].
  - simpl.
    pose proof (Z.mul_div_le (start_usec env + elapse env 0) 1000000).
    lia.
  - intros [] st _. cbn beta. apply wp_bind.
    eapply wp_mono; [apply cleanup_returns| |done|done].
    intros [] st' _. cbn beta. unfold merge_counter. by wp_steps.
Qed.




(** ** The launch and join loops *)

Section ProcessFacts.

Variable penv : process_env.

Lemma launch_all k i :
  (forall j, (i <= j < i + k)%nat -> create_ok penv j = true) ->
  launch penv k i = ((i + k)%nat, (fun j => MCreate j true) <$> seq i k).
Proof.
  revert i. induction k as [|k IH]; intros i Hok; simpl.
  - by rewrite Nat.add_0_r.
  - rewrite Hok by lia. rewrite IH by (intros; apply Hok; lia).
    f_equal. lia.
Qed.

Lemma launch_fails_at k i f :
  (i <= f < i + k)%nat -> create_ok penv f = false ->
  (forall j, (i <= j < f)%nat -> create_ok penv j = true) ->
  launch penv k i =
    (f, ((fun j => MCreate j true) <$> seq i (f - i)) ++
        [MCreate f false; MStderr (FailedToCreate (Z.of_nat f)); MClearFlag]).
Proof.
  revert i. induction k as [|k IH]; intros i Hf Hfail Hok; [lia|]. simpl.
  destruct (decide (i = f)) as [->|Hne].
  - by rewrite Hfail, Nat.sub_diag.
  - rewrite Hok by lia.
    rewrite (IH (S i)) by (try done; try lia; intros; apply Hok; lia).
    replace (f - i)%nat with (S (f - S i)) by lia. done.
Qed.

Lemma launch_started k i :
  (i <= fst (launch penv k i) <= i + k)%nat.
Proof.
  revert i. induction k as [|k IH]; intros i; simpl; [lia|].
  destruct (create_ok penv i); simpl; [|lia].
  specialize (IH (S i)). destruct (launch penv k (S i)). simpl in *. lia.
Qed.

Lemma join_all_never_exits outs k i s :
  fst (join_all penv outs k i) = Some s -> s = UndefinedBehaviour \/ s = Blocked.
Proof.
  revert i. induction k as [|k IH]; intros i; simpl; [done|].
  destruct (outs !! i) as [[[] st|st|st]|].
  - specialize (IH (S i)). destruct (join_all penv outs k (S i)). exact IH.
  - intros [= <-]. by left.
  - intros [= <-]. by right.
  - destruct (join_unstarted_returns penv).
    + specialize (IH (S i)). destruct (join_all penv outs k (S i)). exact IH.
    + intros [= <-]. by left.
Qed.

Lemma join_all_returned outs k i :
  Forall returned outs ->
  (join_unstarted_returns penv = true \/ (i + k <= length outs)%nat) ->
  join_all penv outs k i = (None, MJoin <$> seq i k).
Proof.
  intros Hret. revert i. induction k as [|k IH]; intros i Hun; simpl; [done|].
  destruct (outs !! i) as [o|] eqn:Ho.
  - destruct (proj1 (Forall_lookup _ _) Hret i o Ho) as [st ->].
    rewrite IH; [done|]. destruct Hun; [by left|right; lia].
  - apply lookup_ge_None in Ho.
    destruct Hun as [Hun|?]; [|lia]. rewrite Hun.
    rewrite IH; [done|by left].
Qed.

(** As long as the workers return, every started one is joined. *)
Lemma join_all_joins_started outs k i j :
  Forall returned outs ->
  (i <= j < i + k)%nat -> (j < length outs)%nat ->
  MJoin j ∈ snd (join_all penv outs k i).
Proof.
  intros Hret. revert i. induction k as [|k IH]; intros i Hj Hlen; [lia|].
  simpl. destruct (outs !! i) as [o|] eqn:Ho.
  - destruct (proj1 (Forall_lookup _ _) Hret i o Ho) as [st ->].
    specialize (IH (S i)). destruct (join_all penv outs k (S i)). simpl in *.
    destruct (decide (j = i)) as [->|Hne]; [by left|].
    right. apply IH; [lia|done].
  - apply lookup_ge_None in Ho. lia.
Qed.

Lemma length_worker_outcomes cfg fuel started :
  length (worker_outcomes penv cfg fuel started) = started.
Proof. unfold worker_outcomes. by rewrite length_fmap, length_seq. Qed.

(** [main] past the option parsing and the allocation of its arrays. *)
Lemma main_launched opts fuel cfg :
  parse_options opts default_config = inr cfg ->
  threads_malloc_ok penv = true -> thread_data_malloc_ok penv = true ->
  main penv opts fuel =
    let n := Z.to_nat (num_threads cfg) in
    let started := fst (launch penv n 0) in
    let outs := worker_outcomes penv cfg fuel started in
    let total := accumulate outs (merge_order penv) in
    match fst (join_all penv outs n 0) with
    | Some s =>
        Run s (setup_trace penv cfg ++ snd (launch penv n 0)
               ++ snd (join_all penv outs n 0)) outs total
    | None =>
        Run (Exit 0)
            (setup_trace penv cfg ++ snd (launch penv n 0)
             ++ snd (join_all penv outs n 0)
             ++ [MStdout (Results total); MStdout CompletedSuccessfully;
                 MFree; MFree])
            outs total
    end.
Proof.
  intros Hparse H1 H2. unfold main, setup_trace. rewrite Hparse, H1, H2.
  simpl.
  destruct (launch penv (Z.to_nat (num_threads cfg)) 0) as [started ev] eqn:E.
  simpl.
  destruct (join_all penv (worker_outcomes penv cfg fuel started)
              (Z.to_nat (num_threads cfg)) 0) as [[s|] evj]; reflexivity.
Qed.

End ProcessFacts.

(** ** Claims about the process *)

Lemma join_all_only_joins penv outs k i :
  Forall (fun e => exists j, e = MJoin j) (snd (join_all penv outs k i)).
Proof.
  revert i. induction k as [|k IH]; intros i; simpl; [done|].
  specialize (IH (S i)).
  destruct (outs !! i) as [[[] st|st|st]|];
    try destruct (join_unstarted_returns penv);
    try destruct (join_all penv outs k (S i)); simpl in *;
    repeat constructor; eauto.
Qed.

(** [main] returns 1 from the option [switch] or right after the
    allocation of its two arrays, and nowhere else. *)
Lemma exit_1_only_before_launch penv opts fuel :
  run_status (main penv opts fuel) = Exit 1 ->
  (exists out, parse_options opts default_config = inl (1, out)) \/
  (exists cfg, parse_options opts default_config = inr cfg /\
     (threads_malloc_ok penv && thread_data_malloc_ok penv)%bool = false).
Proof.
  destruct (parse_options opts default_config) as [[code out]|cfg] eqn:Hparse.
  - unfold main. rewrite Hparse. simpl. intros [= ->]. left. by eexists.
  - intros Hexit. right. exists cfg. split; [done|].
    destruct (threads_malloc_ok penv) eqn:H1; [|done].
    destruct (thread_data_malloc_ok penv) eqn:H2; [|done].
    exfalso. rewrite (main_launched penv opts fuel cfg) in Hexit by done.
    cbn zeta in Hexit.
    destruct (fst (join_all penv _ _ _)) as [s|] eqn:Hs; simpl in Hexit;
      [|done].
    apply join_all_never_exits in Hs as [->| ->]; done.
Qed.

(** C1, as the code has it: when [pthread_create] fails, [main] writes
    an error line, stops creating workers and clears [keep_running], then
    enters its join loop, in which every worker that was started is
    joined when the started workers return.  [main] does not return 1 on
    this path: a return of 1 comes from the option [switch] or from the
    failed allocation of [main]'s arrays only.  What the join loop does
    with the handles that were never filled in is not part of this
    statement. *)
Theorem C1_thread_creation_failure penv opts fuel cfg (f : nat) :
  parse_options opts default_config = inr cfg ->
  threads_malloc_ok penv = true -> thread_data_malloc_ok penv = true ->
  (f < Z.to_nat (num_threads cfg))%nat ->
  create_ok penv f = false ->
  (forall j, (j < f)%nat -> create_ok penv j = true) ->
  (exists rest,
     run_trace (main penv opts fuel) =
       setup_trace penv cfg ++ ((fun j => MCreate j true) <$> seq 0 f) ++
       [MCreate f false; MStderr (FailedToCreate (Z.of_nat f)); MClearFlag] ++
       rest /\
     (forall j ok, MCreate j ok ∉ rest) /\
     (Forall returned (run_workers (main penv opts fuel)) ->
      forall j, (j < f)%nat -> MJoin j ∈ rest)) /\
  length (run_workers (main penv opts fuel)) = f /\
  run_status (main penv opts fuel) <> Exit 1 /\
  (forall penv' opts' fuel',
     run_status (main penv' opts' fuel') = Exit 1 ->
     (exists out, parse_options opts' default_config = inl (1, out)) \/
     (exists cfg', parse_options opts' default_config = inr cfg' /\
        (threads_malloc_ok penv' && thread_data_malloc_ok penv')%bool = false)).
Proof.
  intros Hparse H1 H2 Hf Hfail Hok.
  assert (Hne : run_status (main penv opts fuel) <> Exit 1).
  { intros Hexit. apply exit_1_only_before_launch in Hexit as [[out Ho]|(c&Hc&Hm)].
    - congruence.
    - by rewrite H1, H2 in Hm. }
  rewrite (main_launched penv opts fuel cfg) in * by done. cbn zeta in *.
  rewrite (launch_fails_at penv _ 0 f) in * by (try done; try lia; intros; apply Hok; lia).
  rewrite Nat.sub_0_r in *. simpl fst in *. simpl snd in *.
  set (outs := worker_outcomes penv cfg fuel f) in *.
  set (n := Z.to_nat (num_threads cfg)) in *.
  pose proof (join_all_only_joins penv outs n 0) as Hjoins.
  assert (Hjoined : Forall returned outs ->
            forall j, (j < f)%nat -> MJoin j ∈ snd (join_all penv outs n 0)).
  { intros Hret j Hj. apply join_all_joins_started; [done|lia|].
    unfold outs. rewrite length_worker_outcomes. done. }
  split; [|split; [|split; [done|apply exit_1_only_before_launch]]].
  - destruct (fst (join_all penv outs n 0)) as [s|] eqn:Hs; simpl.
    + exists (snd (join_all penv outs n 0)).
      split; [by rewrite <- !app_assoc|]. split; [|done].
      intros j ok Hin. rewrite Forall_forall in Hjoins.
      by destruct (Hjoins _ Hin).
    + eexists. split; [by rewrite <- !app_assoc|]. split.
      * intros j ok Hin. apply elem_of_app in Hin as [Hin|Hin].
        -- rewrite Forall_forall in Hjoins. by destruct (Hjoins _ Hin).
        -- set_solver.
      * intros Hret j Hj. apply elem_of_app. left. by apply Hjoined.
  - destruct (fst (join_all penv outs n 0)); simpl;
      apply length_worker_outcomes.
Qed.

Lemma C1_witness :
  length (run_workers (main one_thread_process two_thread_options 5)) = 1%nat /\
  run_status (main one_thread_process two_thread_options 5) <> Exit 1.
Proof.
  destruct (C1_thread_creation_failure one_thread_process two_thread_options 5
              (Config 2 5 1 2) 1) as (_ & H1 & H2 & _).
  - reflexivity.
  - reflexivity.
  - reflexivity.
  - simpl. lia.
  - reflexivity.
  - intros j Hj. by replace j with 0%nat by lia.
  - split; [exact H1|exact H2].
Defined.

(** C1 as stated fails: the only [pthread_create] fails and [main] does
    not return 1.  It enters its join loop, whose first handle was never
    filled in: where [pthread_join] does not come back from such a
    handle the run ends there, and where it does [main] goes on to its
    report and returns 0. *)
Lemma C1_counterexample :
  (run_status (main no_thread_strict_process small_options 5)
   = UndefinedBehaviour /\
   run_trace (main no_thread_strict_process small_options 5) =
     [MStdout (Banner (Config 1 5 1 2)); MSignal; MMalloc true; MMalloc true;
      MCreate 0 false; MStderr (FailedToCreate 0); MClearFlag; MJoin 0]) /\
  (run_status (main no_thread_process small_options 5) = Exit 0 /\
   run_trace (main no_thread_process small_options 5) =
     [MStdout (Banner (Config 1 5 1 2)); MSignal; MMalloc true; MMalloc true;
      MCreate 0 false; MStderr (FailedToCreate 0); MClearFlag; MJoin 0;
      MStdout (Results 0); MStdout CompletedSuccessfully; MFree; MFree]).
Proof. by vm_compute. Qed.

(** C2, as the code has it: when [main] cannot allocate its arrays it
    returns 1 at once, before any worker is created, and leaves
    [keep_running] alone; a worker that cannot allocate its table writes
    a message and returns, and nothing else happens: [main] does not
    clear the flag for it and still returns 0. *)
Theorem C2_allocation_failures penv opts fuel cfg env data wfuel :
  parse_options opts default_config = inr cfg ->
  ((threads_malloc_ok penv && thread_data_malloc_ok penv)%bool = false ->
   main penv opts fuel =
     Run (Exit 1) (setup_trace penv cfg ++ [MStderr FailedToAllocate]) [] 0) /\
  (malloc_ok env = false ->
   run_worker env data wfuel =
     Ok tt (WState (start_usec env) 0 0 0 0 [] ∅ ∅ (thread_tlb_flushes data)
              (alloc_failure_trace data))) /\
  (threads_malloc_ok penv = true -> thread_data_malloc_ok penv = true ->
   (forall j, (j < Z.to_nat (num_threads cfg))%nat -> create_ok penv j = true) ->
   Forall returned (run_workers (main penv opts fuel)) ->
   run_status (main penv opts fuel) = Exit 0 /\
   MClearFlag ∉ run_trace (main penv opts fuel)).
Proof.
  intros Hparse. split; [|split].
  - intros Hfail. unfold main, setup_trace. rewrite Hparse, Hfail. done.
  - intros Hfail. unfold run_worker, tlb_flush_worker, bind, malloc_table.
    simpl. rewrite Hfail. done.
  - intros H1 H2 Hok.
    rewrite (main_launched penv opts fuel cfg) by done. cbn zeta.
    rewrite (launch_all penv _ 0) by (intros; apply Hok; lia).
    simpl fst. simpl snd.
    set (n := Z.to_nat (num_threads cfg)) in *.
    set (outs := worker_outcomes penv cfg fuel n) in *.
    intros Hret.
    assert (Forall returned outs) as Hret'.
    { by destruct (fst (join_all penv outs n 0)). }
    rewrite (join_all_returned penv outs n 0 Hret') in *
      by (right; unfold outs; rewrite length_worker_outcomes; lia).
    simpl. split; [done|].
    intros Hin.
    do 4 (apply elem_of_cons in Hin as [Hin|Hin]; [done|]).
    apply elem_of_app in Hin as [Hin|Hin];
      [by apply list_elem_of_fmap in Hin as (?&?&?)|].
    apply elem_of_app in Hin as [Hin|Hin];
      [by apply list_elem_of_fmap in Hin as (?&?&?)|].
    do 4 (apply elem_of_cons in Hin as [Hin|Hin]; [done|]).
    by apply elem_of_nil in Hin.
Qed.

Lemma C2_witness :
  main no_array_process small_options 5 =
    Run (Exit 1)
        (setup_trace no_array_process (Config 1 5 1 2)
         ++ [MStderr FailedToAllocate]) [] 0.
Proof.
  destruct (C2_allocation_failures no_array_process small_options 5
              (Config 1 5 1 2) no_memory_env sample_data 5) as (H & _ & _).
  - reflexivity.
  - apply H. reflexivity.
Defined.

(** C2 as stated fails twice over: the worker's table allocation fails
    and the process returns 0 with the flag never cleared; [main]'s
    allocation fails and the process returns 1, again with the flag
    never cleared. *)
Lemma C2_counterexample :
  (run_status (main no_table_process small_options 5) = Exit 0 /\
   worker_trace no_memory_env (ThreadData 0 5 1 2 0) 5
     = alloc_failure_trace (ThreadData 0 5 1 2 0) /\
   run_trace (main no_table_process small_options 5) =
     [MStdout (Banner (Config 1 5 1 2)); MSignal; MMalloc true; MMalloc true;
      MCreate 0 true; MJoin 0;
      MStdout (Results 0); MStdout CompletedSuccessfully; MFree; MFree]) /\
  (run_status (main no_array_process small_options 5) = Exit 1 /\
   run_trace (main no_array_process small_options 5) =
     [MStdout (Banner (Config 1 5 1 2)); MSignal; MMalloc false; MMalloc true;
      MStderr FailedToAllocate]).
Proof. by vm_compute. Qed.

(** ** Claims about the command line *)

Lemma parse_option_accepted opt arg cfg :
  in_bounds opt (atoi arg) ->
  parse_option opt arg cfg = inr (with_option opt (atoi arg) cfg).
Proof.
  unfold in_bounds, parse_option, with_option.
  intros [[-> H] | [[-> H] | [[-> H] | [-> H]]]]; simpl;
    (case_decide; [lia|]); by destruct cfg.
Qed.

Lemma parse_option_rejected opt arg cfg :
  is_value_option opt -> ~ in_bounds opt (atoi arg) ->
  parse_option opt arg cfg =
    inl (1, [MStderr (invalid_message opt (atoi arg))]).
Proof.
  unfold is_value_option, in_bounds, parse_option, invalid_message.
  intros [-> | [-> | [-> | ->]]] Hout; simpl;
    (case_decide; [done|]); exfalso; apply Hout.
  - left. split; [done|lia].
  - right. left. split; [done|lia].
  - right. right. left. split; [done|lia].
  - right. right. right. split; [done|lia].
Qed.

Lemma parse_option_other opt arg cfg :
  ~ is_value_option opt ->
  parse_option opt arg cfg =
    inl (if decide (opt = "h"%char) then 0 else 1, [MStdout Usage]).
Proof.
  unfold is_value_option, parse_option. intros Hno.
  repeat (case_decide; [exfalso; apply Hno; by auto|]).
  by case_decide.
Qed.

Lemma parse_options_app pre rest cfg :
  parse_options (pre ++ rest) cfg =
  match parse_options pre cfg with
  | inl r => inl r
  | inr cfg' => parse_options rest cfg'
  end.
Proof.
  revert cfg. induction pre as [|[opt arg] pre IH]; intros cfg; [done|].
  simpl. by destruct (parse_option opt arg cfg).
Qed.

Lemma parse_options_accepted pre cfg :
  Forall accepted pre ->
  parse_options pre cfg =
    inr (Config (last_value "t" (num_threads cfg) pre)
                (last_value "p" (cfg_pages_per_thread cfg) pre)
                (last_value "d" (cfg_duration_seconds cfg) pre)
                (last_value "i" (cfg_iterations_per_cycle cfg) pre)).
Proof.
  intros Hacc. revert cfg.
  induction Hacc as [|[opt arg] pre Ho _ IH]; intros cfg; [by destruct cfg|].
  simpl. rewrite parse_option_accepted by done. rewrite IH.
  unfold with_option. simpl. repeat f_equal;
    repeat case_decide; congruence.
Qed.

Lemma atoi_no_number c s :
  is_space c = false -> c <> "-"%char -> c <> "+"%char -> digit_of c = None ->
  atoi (String c s) = 0.
Proof.
  intros Hsp Hm Hp Hd. unfold atoi, strtol. simpl. rewrite Hsp.
  destruct c as [[] [] [] [] [] [] [] []]; try done; simpl;
    rewrite ?Hd; try done; simpl in Hd; try done.
Qed.

(** C6, as the code has it.  The options are taken in turn; the number
    of an option is what [atoi] makes of its text (the leading decimal
    number, 0 when there is none).  The first option whose number is
    outside its bounds ends the program with a message on the error
    stream and status 1, no worker started; [-h], when it is reached,
    prints the usage and ends it with status 0; numbers inside the
    bounds are taken as they are. *)
Theorem C6_option_validation penv pre opt optarg rest fuel :
  Forall accepted pre ->
  (is_value_option opt -> ~ in_bounds opt (atoi optarg) ->
   main penv (pre ++ (opt, optarg) :: rest) fuel =
     Run (Exit 1) [MStderr (invalid_message opt (atoi optarg))] [] 0) /\
  (opt = "h"%char ->
   main penv (pre ++ (opt, optarg) :: rest) fuel =
     Run (Exit 0) [MStdout Usage] [] 0) /\
  (~ is_value_option opt -> opt <> "h"%char ->
   main penv (pre ++ (opt, optarg) :: rest) fuel =
     Run (Exit 1) [MStdout Usage] [] 0) /\
  parse_options pre default_config =
    inr (Config (last_value "t" DEFAULT_THREADS pre)
                (last_value "p" DEFAULT_PAGES_PER_THREAD pre)
                (last_value "d" DEFAULT_DURATION_SECONDS pre)
                (last_value "i" DEFAULT_ITERATIONS_PER_CYCLE pre)) /\
  (forall c s, is_space c = false -> c <> "-"%char -> c <> "+"%char ->
               digit_of c = None -> atoi (String c s) = 0).
Proof.
  intros Hacc.
  pose proof (parse_options_accepted pre default_config Hacc) as Hpre.
  assert (Hmain : forall r,
    parse_option opt optarg
      (Config (last_value "t" DEFAULT_THREADS pre)
              (last_value "p" DEFAULT_PAGES_PER_THREAD pre)
              (last_value "d" DEFAULT_DURATION_SECONDS pre)
              (last_value "i" DEFAULT_ITERATIONS_PER_CYCLE pre)) = inl r ->
    main penv (pre ++ (opt, optarg) :: rest) fuel = Run (Exit (fst r)) (snd r) [] 0).
  { intros [code out] Hr. unfold main.
    rewrite parse_options_app, Hpre. simpl. by rewrite Hr. }
  split; [|split; [|split; [|split; [exact Hpre|exact atoi_no_number]]]].
  - intros Hval Hout. by rewrite (Hmain _ (parse_option_rejected _ _ _ Hval Hout)).
  - intros ->.
    assert (~ is_value_option "h") as Hno by (by intros [|[|[|]]]).
    by rewrite (Hmain _ (parse_option_other _ _ _ Hno)).
  - intros Hno Hh.
    rewrite (Hmain _ (parse_option_other _ _ _ Hno)). simpl.
    by case_decide.
Qed.

Lemma C6_witness :
  main calm_process ([("t"%char, "2"%string)] ++ [("p"%char, "100001"%string)]) 5
  = Run (Exit 1) [MStderr (InvalidPagesPerThread 100001)] [] 0.
Proof.
  destruct (C6_option_validation calm_process [("t"%char, "2"%string)]
              "p"%char "100001"%string [] 5) as (H & _).
  - apply Forall_cons. split; [|apply Forall_nil_2].
    left. split; [reflexivity|]. simpl.
    replace (atoi "2") with 2 by (by vm_compute). lia.
  - apply H.
    + right. by left.
    + replace (atoi "100001") with 100001 by (by vm_compute).
      intros [[? _]|[[_ ?]|[[? _]|[? _]]]]; try done. lia.
Defined.

(** C6 as stated fails: [-t 1x] is malformed and is taken as 1, the
    worker is started; [-t 0] behind [-h] is never looked at and the
    status is 0. *)
Lemma C6_counterexample :
  (atoi "1x" = 1 /\
   parse_options trailing_garbage_options default_config
     = inr (Config 1 5 1 2) /\
   MCreate 0 true ∈ run_trace (main calm_process trailing_garbage_options 5) /\
   run_status (main calm_process trailing_garbage_options 5) = Exit 0) /\
  main calm_process help_first_options 5 = Run (Exit 0) [MStdout Usage] [] 0.
Proof.
  split; [split; [|split; [|split]]|]; try by vm_compute.
  assert (run_trace (main calm_process trailing_garbage_options 5) =
    [MStdout (Banner (Config 1 5 1 2)); MSignal; MMalloc true; MMalloc true;
     MCreate 0 true; MJoin 0;
     MStdout (Results 2); MStdout CompletedSuccessfully; MFree; MFree]) as ->
    by (by vm_compute).
  set_solver.
Qed.

(** ** The global counter *)

Lemma sumZ_app l1 l2 : sumZ (l1 ++ l2) = sumZ l1 + sumZ l2.
Proof. induction l1 as [|x l1 IH]; simpl; [done|]. rewrite IH. lia. Qed.

Lemma sumZ_perm l1 l2 : l1 ≡ₚ l2 -> sumZ l1 = sumZ l2.
Proof. induction 1; simpl; lia. Qed.

Lemma long64_idemp x : long64 (long64 x) = long64 x.
Proof.
  pose proof (long64_add_l x 0) as H. by rewrite !Z.add_0_r in H.
Qed.

(** Adding under the mutex, in whatever order, gives the sum. *)
Lemma foldl_long64 l a :
  long64 a = a ->
  foldl (fun acc n => long64 (acc + n)) a l = long64 (a + sumZ l).
Proof.
  revert a. induction l as [|x l IH]; intros a Ha; simpl.
  - by rewrite Z.add_0_r.
  - rewrite IH by apply long64_idemp.
    rewrite long64_add_l. f_equal. lia.
Qed.

Lemma bind_seq_lookup {A B} (g : A -> list B) (l pre : list A) :
  seq (length pre) (length l) ≫= (fun i => from_option g [] ((pre ++ l) !! i))
  = l ≫= g.
Proof.
  revert pre. induction l as [|x l IH]; intros pre; [done|].
  simpl. rewrite list_lookup_middle by done. simpl. f_equal.
  specialize (IH (pre ++ [x])).
  rewrite length_app, Nat.add_1_r, <- app_assoc in IH. done.
Qed.

Lemma length_merged tr :
  Z.of_nat (length (omap (fun e => match e with EvAddTotal n => Some n
                                   | _ => None end) tr))
  = count is_add_total tr.
Proof.
  induction tr as [|e tr IH]; [done|]. rewrite count_cons, <- IH.
  change (e :: tr) with ([e] ++ tr). rewrite omap_app, length_app.
  destruct e; simpl; lia.
Qed.

(** A worker that returns has added its count once after the cleanup
    loop, between lock and unlock, or, if it had no table, not at all. *)
Lemma worker_merge_once env data fuel st :
  run_worker env data fuel = Ok tt st ->
  if malloc_ok env then
    exists pre, trace st = pre ++ epilogue (thread_id data) (flushes st) /\
                count is_add_total pre = 0
  else
    trace st = alloc_failure_trace data /\
    flushes st = thread_tlb_flushes data.
Proof.
  intros Hrun. pose proof (run_worker_spec env data fuel) as H.
  rewrite Hrun in H. destruct (malloc_ok env).
  - destruct H as (st_l & st_c & _ & Hc & _ & _ & _ & Htr & _ & Hfl & _).
    exists (trace st_c). rewrite Hfl. split; [done|].
    by destruct Hc.
  - by destruct H as (? & ? & _).
Qed.

Lemma merged_returned env data fuel st :
  thread_tlb_flushes data = 0 ->
  run_worker env data fuel = Ok tt st ->
  sumZ (merged (run_worker env data fuel)) = flushes st.
Proof.
  intros Hzero Hrun. pose proof (worker_merge_once _ _ _ _ Hrun) as H.
  rewrite Hrun. unfold merged. simpl. destruct (malloc_ok env).
  - destruct H as (pre & -> & Hpre). rewrite omap_app.
    rewrite <- length_merged in Hpre.
    destruct (omap _ pre); [|simpl in Hpre; lia].
    simpl. lia.
  - destruct H as [-> ->]. by rewrite Hzero.
Qed.

Lemma join_all_none penv outs k i :
  fst (join_all penv outs k i) = None ->
  forall j o, (i <= j < i + k)%nat -> outs !! j = Some o -> returned o.
Proof.
  revert i. induction k as [|k IH]; intros i Hnone j o Hj Ho; [lia|].
  simpl in Hnone.
  destruct (decide (j = i)) as [->|Hne].
  - rewrite Ho in Hnone. destruct o as [[] st|st|st]; [by eexists|done|done].
  - apply (IH (S i)) with j; [|lia|done].
    destruct (outs !! i) as [[[] st|st|st]|];
      try destruct (join_unstarted_returns penv); try done;
      by destruct (join_all penv outs k (S i)).
Qed.

Lemma accumulate_sum outs order :
  (forall o, o ∈ outs -> sumZ (merged o) = flushes (final o)) ->
  order ≡ₚ seq 0 (length outs) ->
  accumulate outs order
  = long64 (sumZ ((fun o => flushes (final o)) <$> outs)).
Proof.
  intros Hout Hperm. unfold accumulate.
  rewrite foldl_long64 by (by vm_compute). rewrite Z.add_0_l. f_equal.
  rewrite (sumZ_perm _ (seq 0 (length outs) ≫=
             fun i => from_option merged [] (outs !! i)))
    by (by rewrite Hperm).
  pose proof (bind_seq_lookup merged outs []) as Hbind. simpl in Hbind.
  rewrite Hbind. clear Hbind Hperm.
  induction outs as [|o outs IH]; [done|].
  rewrite bind_cons, sumZ_app, fmap_cons. simpl.
  rewrite Hout by (by left). f_equal. apply IH.
  intros o' Ho'. apply Hout. by right.
Qed.

(** C5, as the code has it: a worker that gets its table and returns
    (without having read a slot that was never written) has added its
    count to the global counter once, between lock and unlock, after the
    cycle loop and the cleanup loop; until then nothing is added, so a
    run that is still in its loops, or has stopped at a slot never
    written, has added nothing.  A worker that does not get its table
    returns without touching the counter, its count being the 0 [main]
    gave it.  So when all workers are joined the total is the sum of the
    per-thread counts (as a [long]), in whatever order the workers took
    the mutex. *)
Theorem C5_counter_merged_once env data wfuel penv opts fuel :
  match run_worker env data wfuel with
  | Ok _ st =>
      if malloc_ok env then
        exists pre, trace st = pre ++ epilogue (thread_id data) (flushes st) /\
                    count is_add_total pre = 0
      else
        count is_add_total (trace st) = 0 /\
        flushes st = thread_tlb_flushes data
  | Undefined st | OutOfFuel st =>
      malloc_ok env = true /\ count is_add_total (trace st) = 0
  end /\
  (run_status (main penv opts fuel) = Exit 0 ->
   merge_order penv ≡ₚ seq 0 (length (run_workers (main penv opts fuel))) ->
   total_tlb_flushes (main penv opts fuel)
   = long64 (sumZ ((fun o => flushes (final o))
                     <$> run_workers (main penv opts fuel)))).
Proof.
  split.
  - pose proof (run_worker_spec env data wfuel) as Hspec.
    destruct (run_worker env data wfuel) as [[] st|st|st] eqn:Hrun.
    + pose proof (worker_merge_once _ _ _ _ Hrun) as H.
      destruct (malloc_ok env); [done|]. destruct H as [-> ->]. done.
    + destruct Hspec as [Hm [live Hinv]]. split; [done|]. by destruct Hinv.
    + destruct Hspec as [Hm [live Hinv]]. split; [done|]. by destruct Hinv.
  - destruct (parse_options opts default_config) as [[code out]|cfg] eqn:Hparse.
    { unfold main. rewrite Hparse. simpl. intros _ _. by vm_compute. }
    destruct (threads_malloc_ok penv) eqn:H1;
      [|unfold main; rewrite Hparse, H1; simpl; done].
    destruct (thread_data_malloc_ok penv) eqn:H2;
      [|unfold main; rewrite Hparse, H1, H2; simpl; done].
    rewrite (main_launched penv opts fuel cfg) by done. cbn zeta.
    set (n := Z.to_nat (num_threads cfg)).
    pose proof (launch_started penv n 0) as Hstarted.
    set (started := fst (launch penv n 0)) in *.
    set (outs := worker_outcomes penv cfg fuel started).
    destruct (fst (join_all penv outs n 0)) as [s|] eqn:Hjoin; simpl.
    { intros ->. apply join_all_never_exits in Hjoin as [|]; done. }
    intros _ Hperm. apply accumulate_sum; [|done].
    intros o Ho. apply list_elem_of_lookup in Ho as [j Hj].
    pose proof (lookup_lt_Some _ _ _ Hj) as Hlt.
    unfold outs in Hlt. rewrite length_worker_outcomes in Hlt.
    destruct (join_all_none penv outs n 0 Hjoin j o) as [st' Hst'];
      [lia|done|].
    unfold outs, worker_outcomes in Hj.
    rewrite list_lookup_fmap, lookup_seq_lt in Hj by done.
    simpl in Hj. injection Hj as Hj. rewrite <- Hj in Hst' |- *.
    rewrite (merged_returned _ _ _ st') by done. by rewrite Hst'.
Qed.

Lemma C5_witness :
  total_tlb_flushes (main two_worker_process two_thread_options 5) = 2.
Proof.
  destruct (C5_counter_merged_once calm_env sample_data 5
              two_worker_process two_thread_options 5) as [_ H].
  assert (Hs : run_status (main two_worker_process two_thread_options 5)
               = Exit 0) by (vm_compute; reflexivity).
  assert (Hp : merge_order two_worker_process
               ≡ₚ seq 0 (length (run_workers
                    (main two_worker_process two_thread_options 5)))).
  { replace (length (run_workers
               (main two_worker_process two_thread_options 5)))
      with 2%nat by (vm_compute; reflexivity).
    apply Permutation_swap. }
  rewrite (H Hs Hp). vm_compute. reflexivity.
Defined.

(** C5 as stated fails: a worker that cannot allocate its table returns
    without taking the mutex and without adding to the counter. *)
Lemma C5_counterexample :
  exists st,
    run_worker no_memory_env sample_data 5 = Ok tt st /\
    count is_add_total (trace st) = 0 /\
    trace st = [EvStdout (MsgStarting 0 5 20480); EvMalloc false;
                EvStderr (MsgTableAllocFailed 0)].
Proof. eexists. split; [vm_compute; reflexivity|]. by vm_compute. Qed.

(** * Further properties *)

(** ** Options and exit status *)

Lemma int32_range x : -2147483648 <= int32 x < 2147483648.
Proof.
  unfold int32, wrap.
  change (2 ^ (32 - 1)) with 2147483648. change (2 ^ 32) with 4294967296.
  pose proof (Z.mod_pos_bound (x + 2147483648) 4294967296). lia.
Qed.

Lemma parse_option_valid opt arg cfg cfg' :
  valid_config cfg -> parse_option opt arg cfg = inr cfg' ->
  valid_config cfg'.
Proof.
  unfold valid_config, parse_option. intros (Ht & Hp & Hd & Hi).
  pose proof (int32_range (strtol arg)) as Hr. fold (atoi arg) in Hr.
  repeat case_decide; try done; intros [= <-]; simpl; lia.
Qed.

Lemma parse_options_valid opts cfg cfg' :
  valid_config cfg -> parse_options opts cfg = inr cfg' -> valid_config cfg'.
Proof.
  revert cfg. induction opts as [|[opt arg] opts IH]; intros cfg Hv; simpl.
  - by intros [= <-].
  - destruct (parse_option opt arg cfg) as [r|cfg1] eqn:E; [done|].
    apply IH. by eapply parse_option_valid.
Qed.

(** Whatever the options are, a configuration that gets past the option
    loop has every number within its bounds: 1 to 64 threads, 1 to
    100000 pages, a duration of at least 1, 1 to 10000 iterations. *)
Theorem parsed_config_is_valid opts cfg :
  parse_options opts default_config = inr cfg -> valid_config cfg.
Proof.
  apply parse_options_valid. unfold valid_config. simpl.
  unfold DEFAULT_THREADS, DEFAULT_PAGES_PER_THREAD, DEFAULT_DURATION_SECONDS,
    DEFAULT_ITERATIONS_PER_CYCLE. lia.
Qed.

Lemma parsed_config_is_valid_witness : valid_config (Config 1 5 1 2).
Proof. apply (parsed_config_is_valid small_options). reflexivity. Defined.

(** For a configuration within the bounds the [int] arithmetic of a
    worker never wraps: the region size is pages * 4096, the page offset
    of the access phase is (j*17 + i*13) mod pages and lies inside the
    region, and the byte the touch loop writes is (i + j) mod 256. *)
Theorem valid_config_no_overflow cfg (tid : nat) (i j : Z) :
  valid_config cfg ->
  0 <= i < cfg_iterations_per_cycle cfg ->
  0 <= j < cfg_pages_per_thread cfg ->
  region_size (thread_data_of cfg tid) = cfg_pages_per_thread cfg * 4096 /\
  page_offset (thread_data_of cfg tid) i j
    = (j * 17 + i * 13) mod cfg_pages_per_thread cfg /\
  0 <= page_offset (thread_data_of cfg tid) i j < cfg_pages_per_thread cfg /\
  char8 (int32 (i + j)) = (i + j) mod 256.
Proof.
  intros (Ht & Hp & Hd & Hi) Hi' Hj.
  assert (Hoff : page_offset (thread_data_of cfg tid) i j
                 = (j * 17 + i * 13) mod cfg_pages_per_thread cfg).
  { apply page_offset_exact; simpl; lia. }
  split; [|split; [done|split]].
  - unfold region_size, PAGE_SIZE. simpl. apply int32_small. lia.
  - rewrite Hoff. apply Z.mod_pos_bound. lia.
  - unfold char8. by rewrite int32_small by lia.
Qed.

Lemma valid_config_no_overflow_witness :
  region_size (thread_data_of (Config 1 5 1 2) 0) = 5 * 4096 /\
  page_offset (thread_data_of (Config 1 5 1 2) 0) 1 4 = (4 * 17 + 1 * 13) mod 5.
Proof.
  destruct (valid_config_no_overflow (Config 1 5 1 2) 0 1 4)
    as (H1 & H2 & _).
  - unfold valid_config. simpl. lia.
  - simpl. lia.
  - simpl. lia.
  - split; [exact H1|exact H2].
Defined.

Lemma parse_option_codes opt arg cfg code out :
  parse_option opt arg cfg = inl (code, out) -> code = 0 \/ code = 1.
Proof.
  unfold parse_option. repeat case_decide; intros [= <- _]; auto.
Qed.

Lemma parse_options_codes opts cfg code out :
  parse_options opts cfg = inl (code, out) -> code = 0 \/ code = 1.
Proof.
  revert cfg. induction opts as [|[opt arg] opts IH]; intros cfg; [done|].
  simpl. destruct (parse_option opt arg cfg) as [[c o]|cfg'] eqn:E.
  - intros [= <- _]. by eapply parse_option_codes.
  - apply IH.
Qed.

(** When [main] returns, it returns 0 or 1; and a run that returns 1 has
    not created a single thread. *)
Theorem exit_status_zero_or_one penv opts fuel code :
  run_status (main penv opts fuel) = Exit code ->
  (code = 0 \/ code = 1) /\
  (code = 1 ->
   run_workers (main penv opts fuel) = [] /\
   forall i ok, MCreate i ok ∉ run_trace (main penv opts fuel)).
Proof.
  destruct (parse_options opts default_config) as [[c out]|cfg] eqn:Hparse.
  - unfold main. rewrite Hparse. simpl. intros [= ->].
    split; [by eapply parse_options_codes|]. intros _. split; [done|].
    intros i ok Hin. clear -Hparse Hin. revert Hparse Hin.
    generalize default_config.
    induction opts as [|[opt arg] opts IH]; intros cfg; [done|]. simpl.
    destruct (parse_option opt arg cfg) as [[c' o]|cfg'] eqn:E; [|by apply IH].
    intros [= _ <-]. unfold parse_option in E.
    repeat case_decide; try discriminate E; injection E as _ <-;
      set_solver.
  - destruct (threads_malloc_ok penv && thread_data_malloc_ok penv)%bool
      eqn:Hm.
    + apply andb_true_iff in Hm as [H1 H2].
      rewrite (main_launched penv opts fuel cfg) by done. cbn zeta.
      destruct (fst (join_all penv _ _ _)) as [s|] eqn:Hs; simpl.
      * intros ->. apply join_all_never_exits in Hs as [|]; done.
      * intros [= <-]. split; [by left|done].
    + unfold main. rewrite Hparse, Hm. simpl. intros [= <-].
      split; [by right|]. intros _. split; [done|].
      intros i ok. set_solver.
Qed.

Lemma exit_status_zero_or_one_witness :
  run_workers (main no_array_process small_options 5) = [].
Proof.
  destruct (exit_status_zero_or_one no_array_process small_options 5 1)
    as [_ H]; [reflexivity|].
  by destruct H.
Defined.

(** When every [pthread_create] succeeds and every worker returns,
    [main] has started exactly [num_threads] workers, worker [i] with id
    [i], the parsed numbers and a counter of 0, has joined each of them
    once, in the order of their ids, and returns 0. *)
Theorem all_workers_launched_and_joined penv opts fuel cfg :
  parse_options opts default_config = inr cfg ->
  threads_malloc_ok penv = true -> thread_data_malloc_ok penv = true ->
  (forall j, (j < Z.to_nat (num_threads cfg))%nat -> create_ok penv j = true) ->
  Forall returned
    ((fun i => run_worker (worker_env_of penv i)
                 (ThreadData (Z.of_nat i) (cfg_pages_per_thread cfg)
                    (cfg_duration_seconds cfg)
                    (cfg_iterations_per_cycle cfg) 0) fuel)
       <$> seq 0 (Z.to_nat (num_threads cfg))) ->
  run_status (main penv opts fuel) = Exit 0 /\
  run_workers (main penv opts fuel) =
    (fun i => run_worker (worker_env_of penv i)
                (ThreadData (Z.of_nat i) (cfg_pages_per_thread cfg)
                   (cfg_duration_seconds cfg)
                   (cfg_iterations_per_cycle cfg) 0) fuel)
      <$> seq 0 (Z.to_nat (num_threads cfg)) /\
  run_trace (main penv opts fuel) =
    setup_trace penv cfg ++
    ((fun j => MCreate j true) <$> seq 0 (Z.to_nat (num_threads cfg))) ++
    (MJoin <$> seq 0 (Z.to_nat (num_threads cfg))) ++
    report_trace (total_tlb_flushes (main penv opts fuel)).
Proof.
  intros Hparse H1 H2 Hok Hret.
  rewrite (main_launched penv opts fuel cfg) by done. cbn zeta.
  rewrite (launch_all penv _ 0) by (intros; apply Hok; lia).
  simpl fst. simpl snd.
  set (n := Z.to_nat (num_threads cfg)) in *.
  change (worker_outcomes penv cfg fuel n) with
    ((fun i => run_worker (worker_env_of penv i)
                 (ThreadData (Z.of_nat i) (cfg_pages_per_thread cfg)
                    (cfg_duration_seconds cfg)
                    (cfg_iterations_per_cycle cfg) 0) fuel) <$> seq 0 n).
  set (outs := _ <$> seq 0 n) in *.
  rewrite (join_all_returned penv outs n 0 Hret)
    by (right; unfold outs; rewrite length_fmap, length_seq; lia).
  done.
Qed.

Lemma all_workers_launched_and_joined_witness :
  run_status (main two_worker_process two_thread_options 5) = Exit 0 /\
  length (run_workers (main two_worker_process two_thread_options 5)) = 2%nat.
Proof.
  destruct (all_workers_launched_and_joined two_worker_process
              two_thread_options 5 (Config 2 5 1 2))
    as (Hs & Hw & _);
    [reflexivity|reflexivity|reflexivity|intros j _; reflexivity| |].
  - repeat constructor; eexists; vm_compute; reflexivity.
  - split; [exact Hs|]. rewrite Hw. reflexivity.
Defined.

Lemma join_all_blocked penv outs k i :
  fst (join_all penv outs k i) = Some Blocked ->
  exists j st, outs !! j = Some (OutOfFuel st).
Proof.
  revert i. induction k as [|k IH]; intros i; simpl; [done|].
  destruct (outs !! i) as [[[] st|st|st]|] eqn:Ho.
  - specialize (IH (S i)). destruct (join_all penv outs k (S i)). exact IH.
  - done.
  - intros _. by exists i, st.
  - destruct (join_unstarted_returns penv); [|done].
    specialize (IH (S i)). destruct (join_all penv outs k (S i)). exact IH.
Qed.

(** [main] is never left waiting in [pthread_join]: when no worker's
    clock runs backwards, every worker started comes back after at most
    1000 * duration + 1 passes through its loop head. *)
Theorem main_never_blocked penv opts fuel cfg :
  parse_options opts default_config = inr cfg ->
  (forall i k, 0 <= elapse (worker_env_of penv i) k) ->
  (Z.to_nat (1000 * cfg_duration_seconds cfg) < fuel)%nat ->
  run_status (main penv opts fuel) <> Blocked.
Proof.
  intros Hparse Helapse Hfuel.
  destruct (threads_malloc_ok penv && thread_data_malloc_ok penv)%bool eqn:Hm.
  - apply andb_true_iff in Hm as [H1 H2].
    rewrite (main_launched penv opts fuel cfg) by done. cbn zeta.
    destruct (fst (join_all penv _ _ _)) as [s|] eqn:Hs; simpl; [|done].
    intros ->. apply join_all_blocked in Hs as (j & st & Hj).
    unfold worker_outcomes in Hj. rewrite list_lookup_fmap in Hj.
    destruct (seq 0 _ !! j) as [i|]; [|done]. simpl in Hj.
    injection Hj as Hj.
    pose proof (run_worker_returns (worker_env_of penv i)
                  (thread_data_of cfg i) fuel (Helapse i) Hfuel) as H.
    unfold wp, run_worker in *. by rewrite Hj in H.
  - unfold main. rewrite Hparse, Hm. done.
Qed.

Lemma main_never_blocked_witness :
  run_status (main calm_process small_options 1001) <> Blocked.
Proof.
  apply (main_never_blocked calm_process small_options 1001 (Config 1 5 1 2)).
  - reflexivity.
  - intros i k. simpl. unfold one_cycle_clock. destruct (k <? 2)%nat; lia.
  - simpl. lia.
Defined.

(** ** What the map and access phases leave in the pages *)

Lemma wp_returns {A} (m : M A) (Q : A -> wstate -> Prop) st :
  wp m Q (fun _ => False) (fun _ => False) st ->
  exists a st', m st = Ok a st' /\ Q a st'.
Proof. unfold wp. destruct (m st); simpl; [eauto|done|done]. Qed.

Lemma touch_pages_contents data r (i : nat) st :
  wp (touch_pages data r i)
     (fun _ st' =>
        (forall j, 0 <= j < pages_per_thread data ->
           pages st' !! (r, j) = Some (char8 (int32 (Z.of_nat i + j)))) /\
        (forall r' p, r' <> r -> pages st' !! (r', p) = pages st !! (r', p)) /\
        memory_regions st' = memory_regions st /\ mapped st' = mapped st /\
        mmaps st' = mmaps st /\ flushes st' = flushes st)
     (fun _ => False) (fun _ => False) st.
Proof.
  unfold touch_pages.
  eapply wp_mono;
    [apply (wp_for_each
       (fun k st' =>
          (forall j, (j < k)%nat ->
             pages st' !! (r, Z.of_nat j)
             = Some (char8 (int32 (Z.of_nat i + Z.of_nat j)))) /\
          (forall r' p, r' <> r -> pages st' !! (r', p) = pages st !! (r', p)) /\
          memory_regions st' = memory_regions st /\ mapped st' = mapped st /\
          mmaps st' = mmaps st /\ flushes st' = flushes st))
       with (n := Z.to_nat (pages_per_thread data))
            (U := fun _ => False) (F := fun _ => False)
    | |done|done].
  - intros k st' _ (Hdone & Hother & Hrest). apply wp_store_page. simpl.
    split; [|split; [|done]].
    + intros j Hj. destruct (decide (j = k)) as [->|Hne].
      * apply lookup_insert_eq.
      * rewrite lookup_insert_ne by (intros [= ?]; lia). apply Hdone. lia.
    + intros r' p Hr'. rewrite lookup_insert_ne by congruence. by apply Hother.
  - lia.
  - split; [intros; lia|done].
  - intros [] st' (Hdone & Hrest). cbn beta. split; [|done].
    intros j Hj. specialize (Hdone (Z.to_nat j)).
    rewrite Z2Nat.id in Hdone by lia. apply Hdone. lia.
Qed.

(** One iteration of the map phase.  When [mmap] succeeds the slot holds
    the new mapping and every page [j] of it holds the byte
    [(char)(i + j)]; when [mmap] fails the slot holds [MAP_FAILED], one
    line goes to the error stream and no page is written.  In both cases
    the pages of other mappings are as before and the phase goes on. *)
Theorem map_iteration_effect env data (i : nat) st :
  (i < length (memory_regions st))%nat ->
  exists st',
    map_iteration env data i st = Ok tt st' /\
    (forall r' p, r' <> mmaps st ->
       pages st' !! (r', p) = pages st !! (r', p)) /\
    if mmap_ok env (mmaps st) then
      memory_regions st' = <[i := Region (mmaps st)]> (memory_regions st) /\
      mapped st' = {[mmaps st]} ∪ mapped st /\
      forall j, 0 <= j < pages_per_thread data ->
        pages st' !! (mmaps st, j) = Some (char8 (int32 (Z.of_nat i + j)))
    else
      memory_regions st' = <[i := MAP_FAILED]> (memory_regions st) /\
      mapped st' = mapped st /\ pages st' = pages st /\
      trace st' = trace st ++
        [EvMmap MAP_FAILED;
         EvStderr (MsgMmapFailed (thread_id data) (Z.of_nat i))].
Proof.
  intros Hi.
  unfold map_iteration, bind, mmap_region, store_slot, load_slot.
  destruct (mmap_ok env (mmaps st)) eqn:Hok; simpl;
    rewrite list_lookup_insert_eq by done.
  - match goal with |- context [touch_pages data _ i ?s] =>
      destruct (wp_returns _ _ _ (touch_pages_contents data (mmaps st) i s))
        as ([] & st' & Hrun & Hpages & Hother & Hmem & Hmap & _)
    end.
    exists st'. simpl in *. rewrite Hrun. by repeat split.
  - eexists. split; [done|]. simpl. rewrite <- app_assoc. by repeat split.
Qed.

Lemma map_iteration_effect_witness :
  exists st',
    map_iteration calm_env sample_data 1
      (WState 0 0 0 1 0 [Region 0; Uninit] {[0%nat]} ∅ 0 []) = Ok tt st' /\
    memory_regions st' = [Region 0; Region 1] /\
    pages st' !! (1%nat, 3) = Some 4.
Proof.
  destruct (map_iteration_effect calm_env sample_data 1
              (WState 0 0 0 1 0 [Region 0; Uninit] {[0%nat]} ∅ 0 []))
    as (st' & Hrun & _ & Hmem & _ & Hpages); [simpl; lia|].
  exists st'. split; [exact Hrun|]. split; [exact Hmem|].
  rewrite Hpages by (simpl; lia). reflexivity.
Defined.

Lemma visits_nil p : visits p [] = 0.
Proof. done. Qed.

Lemma visits_cons p o offs :
  visits p (o :: offs) = (if decide (p = o) then 1 else 0) + visits p offs.
Proof.
  unfold visits. rewrite filter_cons. destruct (decide (p = o)); simpl; lia.
Qed.

Lemma visits_nonneg p offs : 0 <= visits p offs.
Proof. unfold visits. lia. Qed.

Lemma char8_add_l x y : char8 (char8 x + y) = char8 (x + y).
Proof. unfold char8. apply Zplus_mod_idemp_l. Qed.

Lemma access_pages_contents data r i (n : nat) :
  forall j st, (Z.to_nat (pages_per_thread data - j) <= n)%nat ->
    exists st',
      access_pages data r i j st = Ok tt st' /\
      (forall p,
         (visits p (page_offset data i
                      <$> stride_indices j (pages_per_thread data)) = 0 ->
          pages st' !! (r, p) = pages st !! (r, p)) /\
         (0 < visits p (page_offset data i
                          <$> stride_indices j (pages_per_thread data)) ->
          pages st' !! (r, p) =
            Some (char8 (default 0 (pages st !! (r, p)) +
                         visits p (page_offset data i
                           <$> stride_indices j (pages_per_thread data)))))) /\
      (forall r' p, r' <> r -> pages st' !! (r', p) = pages st !! (r', p)).
Proof.
  induction n as [|n IH]; intros j st Hn; simp access_pages;
    destruct (Z_lt_dec j (pages_per_thread data)) as [Hlt|Hge]; simpl;
    try lia;
    try (exists st; rewrite stride_indices_done by lia; simpl;
         split; [done|]; split; [|done];
         intros p; rewrite visits_nil; split; [done|lia]).
  rewrite stride_indices_step by done. rewrite fmap_cons.
  unfold bind at 1. simpl. unfold bind at 1. simpl.
  set (off := page_offset data i j).
  set (v := default 0 (pages st !! (r, off))).
  match goal with |- context [access_pages data r i (j + 4) ?s] =>
    destruct (IH (j + 4) s) as (st' & Hrun & Hvis & Hother); [lia|]
  end.
  exists st'. rewrite Hrun. split; [done|]. simpl in Hvis, Hother.
  split.
  - intros p. rewrite visits_cons.
    pose proof (visits_nonneg p (page_offset data i
                  <$> stride_indices (j + 4) (pages_per_thread data))) as Hpos.
    destruct (Hvis p) as [Hzero Hmore].
    destruct (decide (p = off)) as [->|Hne].
    + split; [lia|]. intros _.
      destruct (decide (visits off (page_offset data i
                  <$> stride_indices (j + 4) (pages_per_thread data)) = 0))
        as [Hz|Hnz].
      * rewrite (Hzero Hz), lookup_insert_eq, Hz. by rewrite Z.add_0_r.
      * rewrite Hmore by lia. rewrite lookup_insert_eq. simpl.
        rewrite char8_add_l. fold v. f_equal. f_equal. lia.
    + rewrite Z.add_0_l. split.
      * intros Hz. rewrite (Hzero Hz).
        apply lookup_insert_ne. congruence.
      * intros Hm. rewrite (Hmore Hm).
        rewrite lookup_insert_ne by congruence. done.
  - intros r' p Hr'. rewrite Hother by done.
    apply lookup_insert_ne. congruence.
Qed.

(** One iteration of the access phase on a slot that holds a mapping: a
    page the loop does not reach is as before, a page it reaches [k]
    times holds its old byte plus [k] (as a [char]), and the pages of
    other mappings are as before. *)
Theorem access_iteration_effect data (i r : nat) st :
  memory_regions st !! i = Some (Region r) ->
  exists st',
    access_iteration data i st = Ok tt st' /\
    (forall p,
       visits p (access_offsets data (Z.of_nat i)) = 0 ->
       pages st' !! (r, p) = pages st !! (r, p)) /\
    (forall p,
       0 < visits p (access_offsets data (Z.of_nat i)) ->
       pages st' !! (r, p) =
         Some (char8 (default 0 (pages st !! (r, p)) +
                      visits p (access_offsets data (Z.of_nat i))))) /\
    (forall r' p, r' <> r -> pages st' !! (r', p) = pages st !! (r', p)).
Proof.
  intros Hslot. unfold access_iteration, bind, load_slot. rewrite Hslot.
  destruct (access_pages_contents data r (Z.of_nat i)
              (Z.to_nat (pages_per_thread data - 0)) 0 st)
    as (st' & Hrun & Hvis & Hother); [lia|].
  exists st'. split; [done|]. split; [|split; [|done]].
  - intros p. by apply Hvis.
  - intros p. by apply Hvis.
Qed.

Lemma access_iteration_effect_witness :
  exists st',
    access_iteration sample_data 1
      (WState 0 0 0 2 0 [Region 0; Region 1] {[0%nat; 1%nat]}
         {[(1%nat, 3) := 4]} 0 []) = Ok tt st' /\
    pages st' !! (1%nat, 3) = Some 5 /\
    pages st' !! (1%nat, 0) = None.
Proof.
  destruct (access_iteration_effect sample_data 1 1
              (WState 0 0 0 2 0 [Region 0; Region 1] {[0%nat; 1%nat]}
                 {[(1%nat, 3) := 4]} 0 []))
    as (st' & Hrun & Hzero & Hmore & _); [reflexivity|].
  exists st'. split; [exact Hrun|]. split.
  - rewrite Hmore by (by vm_compute). by vm_compute.
  - rewrite Hzero by (by vm_compute). by vm_compute.
Defined.

(** ** The total [main] reports *)

Lemma sumZ_cons x l : sumZ (x :: l) = x + sumZ l.
Proof. done. Qed.

Lemma sumZ_fmap_nonneg {A} (f : A -> Z) (l : list A) :
  (forall x, x ∈ l -> 0 <= f x) -> 0 <= sumZ (f <$> l).
Proof.
  induction l as [|x l IH]; intros H; [done|].
  rewrite fmap_cons, sumZ_cons.
  pose proof (H x ltac:(by left)).
  specialize (IH (fun y Hy => H y ltac:(by right))). lia.
Qed.

Lemma sumZ_fmap_le {A} (f g : A -> Z) (l : list A) :
  (forall x, x ∈ l -> f x <= g x) -> sumZ (f <$> l) <= sumZ (g <$> l).
Proof.
  induction l as [|x l IH]; intros H; [done|].
  rewrite !fmap_cons, !sumZ_cons.
  pose proof (H x ltac:(by left)).
  specialize (IH (fun y Hy => H y ltac:(by right))). lia.
Qed.

Lemma sumZ_fmap_ext {A} (f g : A -> Z) (l : list A) :
  (forall x, x ∈ l -> f x = g x) -> sumZ (f <$> l) = sumZ (g <$> l).
Proof.
  induction l as [|x l IH]; intros H; [done|].
  rewrite !fmap_cons, !sumZ_cons.
  rewrite (H x) by (by left). rewrite IH; [done|].
  intros y Hy. apply H. by right.
Qed.

Lemma sumZ_fmap_elem {A} (f : A -> Z) (l : list A) x :
  (forall y, y ∈ l -> 0 <= f y) -> x ∈ l -> f x <= sumZ (f <$> l).
Proof.
  induction l as [|y l IH]; intros Hpos Hx; [by apply elem_of_nil in Hx|].
  rewrite fmap_cons, sumZ_cons.
  assert (0 <= sumZ (f <$> l)).
  { apply sumZ_fmap_nonneg. intros z Hz. apply Hpos. by right. }
  pose proof (Hpos y ltac:(by left)).
  apply elem_of_cons in Hx as [->|Hx]; [lia|].
  specialize (IH (fun z Hz => Hpos z ltac:(by right)) Hx). lia.
Qed.

(** Every worker of a run of [main] is a run of [tlb_flush_worker] on a
    [thread_data] whose counter [main] has set to 0. *)
Lemma run_workers_are_runs penv opts fuel o :
  o ∈ run_workers (main penv opts fuel) ->
  exists env data, thread_tlb_flushes data = 0 /\ o = run_worker env data fuel.
Proof.
  destruct (parse_options opts default_config) as [[c out]|cfg] eqn:Hparse.
  { unfold main. rewrite Hparse. simpl. intros H. by apply elem_of_nil in H. }
  destruct (threads_malloc_ok penv && thread_data_malloc_ok penv)%bool eqn:Hm.
  - apply andb_true_iff in Hm as [H1 H2].
    rewrite (main_launched penv opts fuel cfg) by done. cbn zeta.
    assert (forall started, o ∈ worker_outcomes penv cfg fuel started ->
      exists env data, thread_tlb_flushes data = 0 /\
                       o = run_worker env data fuel) as Hw.
    { intros started Ho. unfold worker_outcomes in Ho.
      apply list_elem_of_fmap in Ho as (i & -> & _).
      by exists (worker_env_of penv i), (thread_data_of cfg i). }
    destruct (fst (join_all penv _ _ _)); simpl; apply Hw.
  - unfold main. rewrite Hparse, Hm. simpl. intros H.
    by apply elem_of_nil in H.
Qed.

Lemma main_total_is_sum penv opts fuel :
  run_status (main penv opts fuel) = Exit 0 ->
  merge_order penv ≡ₚ seq 0 (length (run_workers (main penv opts fuel))) ->
  total_tlb_flushes (main penv opts fuel)
  = long64 (sumZ ((fun o => flushes (final o))
                    <$> run_workers (main penv opts fuel))).
Proof.
  destruct (parse_options opts default_config) as [[code out]|cfg] eqn:Hparse.
  { unfold main. rewrite Hparse. simpl. intros _ _. by vm_compute. }
  destruct (threads_malloc_ok penv) eqn:H1;
    [|unfold main; rewrite Hparse, H1; simpl; done].
  destruct (thread_data_malloc_ok penv) eqn:H2;
    [|unfold main; rewrite Hparse, H1, H2; simpl; done].
  rewrite (main_launched penv opts fuel cfg) by done. cbn zeta.
  set (n := Z.to_nat (num_threads cfg)).
  pose proof (launch_started penv n 0) as Hstarted.
  set (started := fst (launch penv n 0)) in *.
  set (outs := worker_outcomes penv cfg fuel started).
  destruct (fst (join_all penv outs n 0)) as [s|] eqn:Hjoin; simpl.
  { intros ->. apply join_all_never_exits in Hjoin as [|]; done. }
  intros _ Hperm. apply accumulate_sum; [|done].
  intros o Ho. apply list_elem_of_lookup in Ho as [j Hj].
  pose proof (lookup_lt_Some _ _ _ Hj) as Hlt.
  unfold outs in Hlt. rewrite length_worker_outcomes in Hlt.
  destruct (join_all_none penv outs n 0 Hjoin j o) as [st' Hst'];
    [lia|done|].
  unfold outs, worker_outcomes in Hj.
  rewrite list_lookup_fmap, lookup_seq_lt in Hj by done.
  simpl in Hj. injection Hj as Hj. rewrite <- Hj in Hst' |- *.
  rewrite (merged_returned _ _ _ st') by done. by rewrite Hst'.
Qed.

(** When all workers have been joined and the counts fit a [long], the
    total [main] prints is the number of [munmap] calls that succeeded in
    the release phases of all workers together; it is never more than
    the number of [mmap] calls that succeeded. *)
Theorem total_counts_all_releases penv opts fuel :
  run_status (main penv opts fuel) = Exit 0 ->
  merge_order penv ≡ₚ seq 0 (length (run_workers (main penv opts fuel))) ->
  sumZ (releases <$> run_workers (main penv opts fuel)) < 2 ^ 63 ->
  total_tlb_flushes (main penv opts fuel)
    = sumZ (releases <$> run_workers (main penv opts fuel)) /\
  total_tlb_flushes (main penv opts fuel)
    <= sumZ (maps <$> run_workers (main penv opts fuel)).
Proof.
  intros Hexit Hperm Hsmall.
  rewrite (main_total_is_sum penv opts fuel Hexit Hperm).
  set (outs := run_workers (main penv opts fuel)) in *.
  assert (Hfacts : forall o, o ∈ outs ->
    flushes (final o) = long64 (releases o) /\ 0 <= releases o /\
    releases o <= maps o).
  { intros o Ho.
    destruct (run_workers_are_runs penv opts fuel o Ho)
      as (env & data & Hzero & ->).
    destruct (run_worker_trace_facts env data fuel) as (Hfl & Hle & _).
    split; [by apply Hfl|]. split; [apply count_nonneg|done]. }
  assert (Heq : sumZ ((fun o => flushes (final o)) <$> outs)
                = sumZ (releases <$> outs)).
  { apply sumZ_fmap_ext. intros o Ho.
    destruct (Hfacts o Ho) as (-> & Hpos & _).
    apply long64_small.
    pose proof (sumZ_fmap_elem releases outs o
                  (fun y Hy => proj1 (proj2 (Hfacts y Hy))) Ho).
    change (2 ^ 63) with 9223372036854775808 in Hsmall. lia. }
  rewrite Heq.
  assert (0 <= sumZ (releases <$> outs)).
  { apply sumZ_fmap_nonneg. intros o Ho.
    by destruct (Hfacts o Ho) as (_&?&_). }
  rewrite long64_small
    by (change (2 ^ 63) with 9223372036854775808 in Hsmall; lia).
  split; [done|].
  apply sumZ_fmap_le. intros o Ho. by destruct (Hfacts o Ho) as (_&_&?).
Qed.

Lemma total_counts_all_releases_witness :
  total_tlb_flushes (main two_worker_process two_thread_options 5) = 2 /\
  sumZ (maps <$> run_workers (main two_worker_process two_thread_options 5))
    = 4.
Proof.
  destruct (total_counts_all_releases two_worker_process two_thread_options 5)
    as [H _].
  - vm_compute. reflexivity.
  - replace (length (run_workers
               (main two_worker_process two_thread_options 5)))
      with 2%nat by (vm_compute; reflexivity).
    apply Permutation_swap.
  - vm_compute. reflexivity.
  - split; [rewrite H|]; vm_compute; reflexivity.
Defined.

(** ** When the cleanup loop meets a slot never written *)

Section Written.

Variable env : worker_env.
Variable data : thread_data.

Lemma map_iteration_table (i : nat) st :
  (i < length (memory_regions st))%nat ->
  wp (map_iteration env data i)
     (fun _ st' =>
        polls st' = polls st /\
        exists s, s <> Uninit /\
                  memory_regions st' = <[i := s]> (memory_regions st))
     (fun _ => False) (fun _ => False) st.
Proof.
  intros Hi. unfold map_iteration.
  pose proof (mmap_region_frame env st) as (_&Hpolls&_&_&Hmem&_).
  apply wp_bind, wp_mmap_region. intros s Hs.
  set (st1 := final (mmap_region env st)) in *.
  wp_steps. apply wp_load_slot; simpl; rewrite Hmem;
    rewrite list_lookup_insert_eq by done.
  2:{ intros [[= ->]|[=]]. by destruct (mmap_ok env (mmaps st)). }
  intros s' [= <-] Hne.
  destruct s as [| |r]; [done| |].
  - apply wp_emit. simpl. split; [done|]. by exists MAP_FAILED.
  - eapply wp_mono; [apply touch_pages_page_step| |done|done].
    intros [] st' (_&Hp&_&_&_&Hm&_). simpl in Hp, Hm.
    split; [congruence|]. exists (Region r). by rewrite Hm.
Qed.

Lemma written_lookup table (i : nat) :
  written table -> (i < length table)%nat ->
  exists s, table !! i = Some s /\ s <> Uninit.
Proof.
  intros Hw Hi. destruct (lookup_lt_is_Some_2 table i Hi) as [s Hs].
  exists s. split; [done|]. by eapply (proj1 (Forall_lookup _ _) Hw).
Qed.

Lemma written_insert table (i : nat) s :
  written table -> s <> Uninit -> written (<[i := s]> table).
Proof. intros Hw Hs. by apply Forall_insert. Qed.

Lemma load_slot_written (i : nat) (Q : slot -> wstate -> Prop) F st :
  written (memory_regions st) -> (i < length (memory_regions st))%nat ->
  (forall s, memory_regions st !! i = Some s -> s <> Uninit -> Q s st) ->
  wp (load_slot i) Q (fun _ => False) F st.
Proof.
  intros Hw Hi HQ. destruct (written_lookup _ i Hw Hi) as (s & Hs & Hne).
  apply wp_load_slot; [done|]. intros [H|H]; congruence.
Qed.

(** With the table written, no phase iteration reads an unwritten slot,
    and each leaves the table written. *)
Lemma map_iteration_written n (i : nat) st :
  written (memory_regions st) -> length (memory_regions st) = n ->
  (i < n)%nat ->
  wp (map_iteration env data i)
     (fun _ st' => written (memory_regions st') /\
                   length (memory_regions st') = n)
     (fun _ => False) (fun _ => False) st.
Proof.
  intros Hw Hlen Hi.
  eapply wp_mono; [apply map_iteration_table; lia| |done|done].
  intros [] st' (_ & s & Hs & ->). split.
  - by apply written_insert.
  - by rewrite length_insert.
Qed.

Lemma access_iteration_written n (i : nat) st :
  written (memory_regions st) -> length (memory_regions st) = n ->
  (i < n)%nat ->
  wp (access_iteration data i)
     (fun _ st' => written (memory_regions st') /\
                   length (memory_regions st') = n)
     (fun _ => False) (fun _ => False) st.
Proof.
  intros Hw Hlen Hi. unfold access_iteration.
  apply wp_bind, load_slot_written; [done|lia|].
  intros [| |r] _ _; try by apply wp_ret.
  eapply wp_mono; [by eapply access_pages_page_step| |done|done].
  intros [] st' (_&_&_&_&_&Hm&_). by rewrite Hm.
Qed.

Lemma release_iteration_written n (i : nat) st :
  written (memory_regions st) -> length (memory_regions st) = n ->
  (i < n)%nat ->
  wp (release_iteration env data i)
     (fun _ st' => written (memory_regions st') /\
                   length (memory_regions st') = n)
     (fun _ => False) (fun _ => False) st.
Proof.
  intros Hw Hlen Hi. unfold release_iteration.
  apply wp_bind, load_slot_written; [done|lia|].
  intros [| |r] _ _; try by apply wp_ret.
  pose proof (munmap_region_frame env ByRelease r st) as (_&_&_&_&_&Hmem&_).
  apply wp_bind, wp_munmap_region.
  destruct (munmap_ok env (munmaps st)); wp_steps; simpl; rewrite Hmem;
    (split; [by apply written_insert|by rewrite length_insert]).
Qed.

Lemma phase_written n s body st :
  (forall i st0,
     written (memory_regions st0) -> length (memory_regions st0) = n ->
     (i < n)%nat ->
     wp (body i)
        (fun _ st' => written (memory_regions st') /\
                      length (memory_regions st') = n)
        (fun _ => False) (fun _ => False) st0) ->
  written (memory_regions st) -> length (memory_regions st) = n ->
  wp (for_running env s body n 0)
     (fun _ st' => written (memory_regions st') /\
                   length (memory_regions st') = n)
     (fun _ => False) (fun _ => False) st.
Proof.
  intros Hbody Hw Hlen.
  apply (wp_for_running env
    (fun _ st' => written (memory_regions st') /\
                  length (memory_regions st') = n)) with (n := n);
    [| | |lia|done]; [|done|done].
  intros i st' Hi [Hw' Hlen'] _. by apply Hbody.
Qed.

Lemma cycle_body_written n st :
  n = n_iter data ->
  written (memory_regions st) -> length (memory_regions st) = n ->
  wp (cycle_body env data)
     (fun _ st' => written (memory_regions st') /\
                   length (memory_regions st') = n)
     (fun _ => False) (fun _ => False) st.
Proof.
  intros -> Hw Hlen. unfold cycle_body. apply wp_bind.
  eapply wp_mono;
    [by apply phase_written; [apply map_iteration_written|..]| |done|done].
  intros [] st1 [Hw1 Hlen1]. cbn beta. apply wp_bind.
  eapply wp_mono;
    [by apply phase_written; [apply access_iteration_written|..]| |done|done].
  intros [] st2 [Hw2 Hlen2]. cbn beta. apply wp_bind.
  eapply wp_mono;
    [by apply phase_written; [apply release_iteration_written|..]| |done|done].
  intros [] st3 [Hw3 Hlen3]. cbn beta. by apply wp_usleep.
Qed.

Lemma cycle_loop_written n fuel start_time st :
  n = n_iter data ->
  written (memory_regions st) -> length (memory_regions st) = n ->
  wp (cycle_loop env data fuel start_time)
     (fun _ st' => written (memory_regions st') /\
                   length (memory_regions st') = n)
     (fun _ => False) (fun _ => True) st.
Proof.
  intros Hn Hw Hlen.
  apply (wp_cycle_loop env data
    (fun st' => written (memory_regions st') /\
                length (memory_regions st') = n)); [| | |done]; [done| |done].
  intros st' [Hw' Hlen'] _ st1 -> t ->. split; [done|]. intros _.
  eapply wp_mono; [by apply cycle_body_written| |done|done]. done.
Qed.

Lemma cleanup_written n st :
  n = n_iter data ->
  written (memory_regions st) -> length (memory_regions st) = n ->
  wp (cleanup env data) (fun _ _ => True) (fun _ => False) (fun _ => True) st.
Proof.
  intros -> Hw Hlen. unfold cleanup.
  eapply wp_mono;
    [apply (wp_for_each
       (fun _ st' => written (memory_regions st') /\
                     length (memory_regions st') = n_iter data))
       with (n := n_iter data) (U := fun _ => False) (F := fun _ => True)
    | |done|done]; [|lia|done|done].
  intros i st' Hi [Hw' Hlen']. unfold cleanup_iteration.
  apply wp_bind, load_slot_written; [done|lia|].
  intros [| |r] _ _; try by apply wp_ret.
  pose proof (munmap_region_frame env ByCleanup r st') as (_&_&_&_&_&Hmem&_).
  wp_steps. by rewrite Hmem.
Qed.

(** The first map phase, when the flag stays up: it fills the table. *)
Lemma first_map_phase_fills st :
  (forall k, (k <= n_iter data)%nat -> flag_at env k = true) ->
  polls st = 1%nat -> length (memory_regions st) = n_iter data ->
  wp (for_running env AtMap (map_iteration env data) (n_iter data) 0)
     (fun _ st' => written (memory_regions st') /\
                   length (memory_regions st') = n_iter data)
     (fun _ => False) (fun _ => False) st.
Proof.
  intros Hup Hpolls Hlen.
  apply (wp_for_running env
    (fun i st' => polls st' = S i /\
                  length (memory_regions st') = n_iter data /\
                  written (take i (memory_regions st'))))
    with (n := n_iter data); [| | |lia|].
  - intros i st' Hi (Hp & Hl & Hw) _.
    eapply wp_mono; [apply map_iteration_table; simpl; lia| |done|done].
    intros [] st'' (Hp'' & s & Hs & Hmem). simpl in Hp'', Hmem.
    rewrite Hmem, length_insert. split; [lia|]. split; [done|].
    rewrite take_insert_lt by lia.
    assert (i < length (memory_regions st'))%nat as Hi' by lia.
    destruct (lookup_lt_is_Some_2 _ _ Hi') as [x Hx].
    rewrite (take_S_r _ _ _ Hx).
    rewrite insert_app_r_alt by (rewrite length_take; lia).
    rewrite length_take, Nat.min_l, Nat.sub_diag by lia. simpl.
    apply Forall_app. split; [done|]. by repeat constructor.
  - intros i st' Hi (Hp & _) Hflag. rewrite Hp, Hup in Hflag by lia. done.
  - intros st' (_ & Hl & Hw). split; [|done].
    by rewrite take_ge in Hw by lia.
  - split; [done|]. split; [done|]. rewrite take_0. constructor.
Qed.

Lemma run_worker_never_undefined fuel :
  (forall k, (k <= n_iter data)%nat -> flag_at env k = true) ->
  (start_usec env + elapse env 0 + elapse env 1) / 1000000
    - start_time_of env < duration_seconds data ->
  wp (tlb_flush_worker env data fuel) (fun _ _ => True) (fun _ => False)
     (fun _ => True) (init_wstate env data).
Proof.
  intros Hup Htime. unfold tlb_flush_worker.
  wp_steps. apply wp_malloc_table.
  unfold malloc_table. destruct (malloc_ok env); simpl; [|by wp_steps].
  wp_steps.
  assert (Hrest : forall st,
    written (memory_regions st) /\ length (memory_regions st) = n_iter data ->
    wp (cleanup env data;; emit EvFree;; merge_counter;;
        n <- get_flushes;; emit (EvStdout (MsgCompleted (thread_id data) n)))
       (fun _ _ => True) (fun _ => False) (fun _ => True) st).
  { intros st [Hw Hlen]. apply wp_bind.
    eapply wp_mono; [by apply (cleanup_written (n_iter data))| |done|done].
    intros [] st' _. cbn beta. unfold merge_counter. by wp_steps. }
  destruct fuel as [|fuel]; [done|]. simpl cycle_loop.
  wp_steps. simpl. rewrite Hup by lia.
  wp_steps. simpl.
  case_decide as Ht; [unfold start_time_of in Htime; lia|].
  apply wp_bind. unfold cycle_body. apply wp_bind.
  eapply wp_mono;
    [apply first_map_phase_fills; [done|done|apply length_replicate]
    | |done|done].
  intros [] st1 [Hw1 Hl1]. cbn beta. apply wp_bind.
  eapply wp_mono;
    [by apply (phase_written (n_iter data));
       [apply access_iteration_written|..]| |done|done].
  intros [] st2 [Hw2 Hl2]. cbn beta. apply wp_bind.
  eapply wp_mono;
    [by apply (phase_written (n_iter data));
       [apply release_iteration_written|..]| |done|done].
  intros [] st3 [Hw3 Hl3]. cbn beta. apply wp_usleep.
  eapply wp_mono;
    [by apply (cycle_loop_written (n_iter data))| |done|done].
  intros [] st4 H4. by apply Hrest.
Qed.

End Written.

(** When the first map phase runs to its end (the first
    [iterations_per_cycle] + 1 reads of the flag give 1 and the first time
    check finds time left), the worker never reads a slot of its table
    that has not been written, whatever happens afterwards. *)
Theorem no_unwritten_read_once_table_filled env data fuel :
  (forall k, (k <= n_iter data)%nat -> flag_at env k = true) ->
  (start_usec env + elapse env 0 + elapse env 1) / 1000000
    - start_time_of env < duration_seconds data ->
  forall st, run_worker env data fuel <> Undefined st.
Proof.
  intros Hup Htime st Hrun.
  pose proof (run_worker_never_undefined env data fuel Hup Htime) as H.
  unfold wp, run_worker in *. by rewrite Hrun in H.
Qed.

Lemma no_unwritten_read_once_table_filled_witness :
  run_worker late_signal_env sample_data 5
  <> Undefined (final (run_worker late_signal_env sample_data 5)).
Proof.
  apply (no_unwritten_read_once_table_filled late_signal_env sample_data 5).
  - intros k Hk. unfold flag_at. simpl. apply bool_decide_eq_true.
    unfold n_iter in Hk. simpl in Hk. lia.
  - by vm_compute.
Defined.

Section Unwritten.

Variable env : worker_env.
Variable data : thread_data.
Variable c : nat.
Hypothesis Hclear : clear_at env = Some c.
Hypothesis Hc : (c <= n_iter data)%nat.

Lemma flag_down_false st : flag_down env st -> flag_at env (polls st) = false.
Proof.
  intros (c' & Hc' & Hle). unfold flag_at. rewrite Hc'.
  apply bool_decide_eq_false. lia.
Qed.

(** With the flag down a phase does nothing but read the flag once. *)
Lemma idle_phase s body st :
  flag_down env st -> has_unwritten (n_iter data) st ->
  wp (for_running env s body (n_iter data) 0)
     (fun _ st' => flag_down env st' /\ has_unwritten (n_iter data) st')
     (fun _ => True) (fun _ => False) st.
Proof.
  intros Hdown Hun.
  apply (wp_for_running env
    (fun _ st' => flag_down env st' /\ has_unwritten (n_iter data) st'))
    with (n := n_iter data); [| | |lia|done]; [| |done].
  - intros i st' _ [Hd _] Hflag. by apply flag_at_true_up in Hflag.
  - intros i st' _ [Hd Hu] _. split; [|done].
    eapply flag_down_mono; [exact Hd|]. simpl. lia.
Qed.

(** The first map phase, when the flag goes down before the table is
    full: it stops with a cell still unwritten. *)
Lemma first_map_phase_cut st :
  (1 <= c)%nat -> polls st = 1%nat ->
  memory_regions st = replicate (n_iter data) Uninit ->
  wp (for_running env AtMap (map_iteration env data) (n_iter data) 0)
     (fun _ st' => flag_down env st' /\ has_unwritten (n_iter data) st')
     (fun _ => True) (fun _ => False) st.
Proof.
  intros Hc1 Hpolls Hmem.
  apply (wp_for_running env
    (fun i st' => polls st' = S i /\ (S i <= c)%nat /\
                  length (memory_regions st') = n_iter data /\
                  forall k, (i <= k < n_iter data)%nat ->
                            memory_regions st' !! k = Some Uninit))
    with (n := n_iter data); [| | |lia|].
  - intros i st' Hi (Hp & Hle & Hlen & Hun) Hflag.
    assert (S i < c)%nat as Hlt.
    { unfold flag_at in Hflag. rewrite Hclear, Hp in Hflag.
      by apply bool_decide_eq_true in Hflag. }
    eapply wp_mono; [apply map_iteration_table; simpl; lia| |done|done].
    intros [] st'' (Hp'' & s & Hs & Hmem''). simpl in Hp'', Hmem''.
    rewrite Hmem'', length_insert. split; [lia|]. split; [lia|].
    split; [done|]. intros k Hk.
    rewrite list_lookup_insert_ne by lia. apply Hun. lia.
  - intros i st' Hi (Hp & Hle & Hlen & Hun) Hflag. split.
    + eapply flag_down_mono; [by apply flag_at_false_down|]. simpl. lia.
    + split; [done|]. exists i. split; [done|]. apply Hun. lia.
  - intros st' (_ & Hle & _). lia.
  - rewrite Hmem, length_replicate. split; [done|]. split; [done|].
    split; [done|]. intros k Hk. apply lookup_replicate_2. lia.
Qed.

(** The cleanup loop, when a cell has never been assigned: it reads it. *)
Lemma cleanup_meets_unwritten st :
  has_unwritten (n_iter data) st ->
  wp (cleanup env data) (fun _ _ => False) (fun _ => True) (fun _ => False) st.
Proof.
  intros [Hlen (k0 & Hk0 & Hun0)]. unfold cleanup.
  eapply wp_mono;
    [apply (wp_for_each
       (fun i st' =>
          exists k, (i <= k < n_iter data)%nat /\
                    memory_regions st' !! k = Some Uninit))
       with (n := n_iter data) (U := fun _ => True) (F := fun _ => False)
    | |done|done]; [|lia| |].
  - intros i st' Hi (k & Hk & Hun). unfold cleanup_iteration.
    apply wp_bind, wp_load_slot; [|done].
    intros s Hs Hne.
    assert (k <> i) by (intros ->; congruence).
    destruct s as [| |r]; [done| |].
    + apply wp_ret. exists k. split; [lia|done].
    + pose proof (munmap_region_frame env ByCleanup r st')
        as (_&_&_&_&_&Hmem&_).
      wp_steps. exists k. split; [lia|]. by rewrite Hmem.
  - exists k0. split; [lia|done].
  - intros [] st' (k & Hk & _). lia.
Qed.

Lemma run_worker_meets_unwritten fuel :
  malloc_ok env = true -> (1 <= n_iter data)%nat -> (2 <= fuel)%nat ->
  wp (tlb_flush_worker env data fuel) (fun _ _ => False) (fun _ => True)
     (fun _ => False) (init_wstate env data).
Proof.
  intros Hmalloc Hn Hfuel. unfold tlb_flush_worker.
  wp_steps. apply wp_malloc_table.
  unfold malloc_table. rewrite Hmalloc. simpl. wp_steps.
  assert (Hrest : forall (K : unit -> wstate -> Prop) st,
    has_unwritten (n_iter data) st ->
    wp (cleanup env data) K (fun _ => True) (fun _ => False) st).
  { intros K st Hun.
    eapply wp_mono; [by apply cleanup_meets_unwritten|done|done|done]. }
  assert (Hfresh : forall st,
    memory_regions st = replicate (n_iter data) Uninit ->
    has_unwritten (n_iter data) st).
  { intros st Hmem. unfold has_unwritten. rewrite Hmem, length_replicate.
    split; [done|]. exists 0%nat. split; [lia|].
    apply lookup_replicate_2. lia. }
  destruct fuel as [|[|fuel]]; [lia|lia|]. simpl cycle_loop.
  wp_steps. simpl.
  destruct (flag_at env 0) eqn:Hflag0; [|wp_steps; by apply Hrest, Hfresh].
  assert (1 <= c)%nat as Hc1.
  { unfold flag_at in Hflag0. rewrite Hclear in Hflag0.
    apply bool_decide_eq_true in Hflag0. lia. }
  wp_steps. simpl.
  case_decide as Ht; [wp_steps; by apply Hrest, Hfresh|].
  apply wp_bind. unfold cycle_body. apply wp_bind.
  eapply wp_mono; [by apply first_map_phase_cut| |done|done].
  intros [] st1 [Hd1 Hu1]. cbn beta. apply wp_bind.
  eapply wp_mono; [by apply idle_phase| |done|done].
  intros [] st2 [Hd2 Hu2]. cbn beta. apply wp_bind.
  eapply wp_mono; [by apply idle_phase| |done|done].
  intros [] st3 [Hd3 Hu3]. cbn beta. apply wp_usleep.
  apply wp_bind, wp_poll.
  assert (flag_down env (final (usleep 1000 st3))) as Hd4
    by (eapply flag_down_mono; [exact Hd3|]; simpl; lia).
  rewrite (flag_down_false _ Hd4). wp_steps. by apply Hrest.
Qed.

End Unwritten.

(** When [keep_running] is cleared before the first map phase has
    written every slot (by a signal, or by [main] after a failed
    [pthread_create]), the worker's cleanup loop reads a slot of the
    table that nothing has written since [malloc]. *)
Theorem unwritten_slot_read_when_flag_cleared_early env data fuel (c : nat) :
  malloc_ok env = true ->
  clear_at env = Some c -> (c <= n_iter data)%nat ->
  (1 <= n_iter data)%nat -> (2 <= fuel)%nat ->
  exists st, run_worker env data fuel = Undefined st.
Proof.
  intros Hmalloc Hclear Hc Hn Hfuel.
  pose proof (run_worker_meets_unwritten env data c Hclear Hc fuel
                Hmalloc Hn Hfuel) as H.
  unfold wp, run_worker in *.
  destruct (tlb_flush_worker env data fuel (init_wstate env data));
    [done|by eexists|done].
Qed.

Lemma unwritten_slot_read_when_flag_cleared_early_witness :
  exists st, run_worker interrupted_env sample_data 5 = Undefined st.
Proof.
  apply (unwritten_slot_read_when_flag_cleared_early interrupted_env
           sample_data 5 2).
  - reflexivity.
  - reflexivity.
  - unfold n_iter. simpl. lia.
  - unfold n_iter. simpl. lia.
  - lia.
Defined.

(** ** Mappings held at any moment, and the mappings accessed *)

Lemma wp_conj {A} (m : M A) (Q1 Q2 : A -> wstate -> Prop)
    (U1 U2 F1 F2 : wstate -> Prop) st :
  wp m Q1 U1 F1 st -> wp m Q2 U2 F2 st ->
  wp m (fun a s => Q1 a s /\ Q2 a s) (fun s => U1 s /\ U2 s)
       (fun s => F1 s /\ F2 s) st.
Proof. unfold wp. by destruct (m st). Qed.

Lemma held_snoc tr e :
  held (tr ++ [e]) =
  held tr + (if is_mmap_ok e then 1 else 0)
  - (if is_munmap_ok e then 1 else 0)
  - (if is_munmap_failed e then 1 else 0).
Proof. unfold held. rewrite !count_app, !count_cons, !count_nil. lia. Qed.

Lemma peak_nil n : peak n [].
Proof. intros k. rewrite take_nil. unfold held. rewrite !count_nil. lia. Qed.

Lemma peak_all n tr : peak n tr -> held tr <= Z.of_nat n.
Proof. intros H. specialize (H (length tr)). by rewrite take_ge in H. Qed.

Lemma peak_snoc n tr e :
  peak n tr -> held (tr ++ [e]) <= Z.of_nat n -> peak n (tr ++ [e]).
Proof.
  intros Hp He k. destruct (decide (k <= length tr)%nat).
  - rewrite take_app_le by done. apply Hp.
  - rewrite take_ge by (rewrite length_app; simpl; lia). done.
Qed.

Lemma peak_snoc_quiet n tr e :
  peak n tr -> is_mmap_ok e = false -> peak n (tr ++ [e]).
Proof.
  intros Hp He. apply peak_snoc; [done|]. rewrite held_snoc, He.
  pose proof (peak_all _ _ Hp).
  destruct (is_munmap_ok e), (is_munmap_failed e); lia.
Qed.

Lemma peak_app_quiet n tr evs :
  peak n tr -> Forall (fun e => is_mmap_ok e = false) evs ->
  peak n (tr ++ evs).
Proof.
  intros Hp Hev. revert tr Hp.
  induction Hev as [|e evs He _ IH]; intros tr Hp.
  - by rewrite app_nil_r.
  - change (e :: evs) with ([e] ++ evs). rewrite app_assoc.
    apply IH. by apply peak_snoc_quiet.
Qed.

Lemma length_failed_ids tr :
  Z.of_nat (length (failed_ids tr)) = count is_munmap_failed tr.
Proof.
  induction tr as [|e tr IH]; [done|].
  change (e :: tr) with ([e] ++ tr).
  rewrite failed_ids_app, length_app, count_app, <- IH, Nat2Z.inj_add.
  f_equal. rewrite count_cons, count_nil.
  destruct e; try done.
  match goal with b : bool |- _ => by destruct b end.
Qed.

Lemma length_regions table : (length (regions table) <= length table)%nat.
Proof.
  induction table as [|s table IH]; [done|].
  rewrite regions_cons, length_app. destruct s; simpl; lia.
Qed.

Lemma held_le_live env live st :
  worker_inv env live st -> held (trace st) <= Z.of_nat (length live).
Proof.
  intros [].
  assert (Z.of_nat (size (mapped st))
          <= Z.of_nat (length live) + count is_munmap_failed (trace st));
    [|unfold held; lia].
  rewrite <- length_failed_ids, <- Nat2Z.inj_add, <- length_app.
  apply inj_le. unfold size, set_size. simpl.
  apply submseteq_length, NoDup_submseteq; [apply NoDup_elements|].
  intros r Hr. apply elem_of_elements in Hr. apply elem_of_app.
  by destruct (inv_mapped0 r Hr) as [_ ?].
Qed.

Lemma safe_nil : safe [].
Proof. intros [|??] ??? H; discriminate H. Qed.

Lemma safe_snoc tr e :
  safe tr ->
  (forall r, access_of e = Some r ->
     EvMmap (Region r) ∈ tr /\ r ∉ unmap_ids tr) ->
  safe (tr ++ [e]).
Proof.
  intros Hs He pre e' post r Heq Hacc.
  induction post as [|x post _] using rev_ind.
  - apply app_inj_tail in Heq as [-> ->]. by apply He.
  - change (pre ++ e' :: post ++ [x]) with (pre ++ (e' :: post) ++ [x]) in Heq.
    rewrite app_assoc in Heq. apply app_inj_tail in Heq as [-> _].
    by eapply Hs.
Qed.

Lemma safe_app_quiet tr evs :
  safe tr -> Forall (fun e => access_of e = None) evs -> safe (tr ++ evs).
Proof.
  intros Hs Hev. revert tr Hs.
  induction Hev as [|e evs He _ IH]; intros tr Hs.
  - by rewrite app_nil_r.
  - change (e :: evs) with ([e] ++ evs). rewrite app_assoc.
    apply IH. apply safe_snoc; [done|]. intros r Hr. congruence.
Qed.

Lemma safe_app_access tr evs r :
  safe tr -> EvMmap (Region r) ∈ tr -> r ∉ unmap_ids tr ->
  Forall (fun e => access_of e = Some r) evs -> safe (tr ++ evs).
Proof.
  intros Hs Hin Hout Hev. revert tr Hs Hin Hout.
  induction Hev as [|e evs He _ IH]; intros tr Hs Hin Hout.
  - by rewrite app_nil_r.
  - change (e :: evs) with ([e] ++ evs). rewrite app_assoc. apply IH.
    + apply safe_snoc; [done|]. intros r' Hr'.
      assert (r' = r) as -> by congruence. done.
    + apply elem_of_app. by left.
    + rewrite unmap_ids_app.
      destruct e; try discriminate He; by rewrite app_nil_r.
Qed.

Lemma no_map_no_access_spec evs :
  Forall (fun e => no_map_no_access e = true) evs ->
  Forall (fun e => is_mmap_ok e = false) evs /\
  Forall (fun e => access_of e = None) evs.
Proof.
  intros H. split; (eapply Forall_impl; [exact H|]); intros e;
    destruct e; try done;
    match goal with s : slot |- _ => destruct s end; done.
Qed.

Lemma region_step_refl r st : region_step r st st.
Proof. split; [done|]. exists []. by rewrite app_nil_r. Qed.

Lemma region_step_trans r st1 st2 st3 :
  region_step r st1 st2 -> region_step r st2 st3 -> region_step r st1 st3.
Proof.
  intros (?&evs1&Ht1&Hf1) (?&evs2&Ht2&Hf2). split; [congruence|].
  exists (evs1 ++ evs2). rewrite Ht2, Ht1, app_assoc.
  split; [done|]. by apply Forall_app.
Qed.

Lemma region_step_store r page v st :
  region_step r st (final (store_page r page v st)).
Proof.
  split; [done|]. exists [EvStore r page v]. split; [done|].
  by repeat constructor.
Qed.

Lemma region_step_load r page st :
  region_step r st (final (load_page r page st)).
Proof.
  split; [done|]. eexists [_]. split; [done|]. by repeat constructor.
Qed.

Lemma touch_pages_region_step data r i st :
  wp (touch_pages data r i) (fun _ st' => region_step r st st')
     (fun _ => False) (fun _ => False) st.
Proof.
  unfold touch_pages.
  apply (wp_for_each (fun _ st' => region_step r st st')) with
    (n := Z.to_nat (pages_per_thread data)); [|lia|apply region_step_refl].
  intros j st' _ Hst'. apply wp_store_page.
  eapply region_step_trans; [done|apply region_step_store].
Qed.

Lemma access_pages_region_step data r i (n : nat) :
  forall j st, (Z.to_nat (pages_per_thread data - j) <= n)%nat ->
    wp (access_pages data r i j) (fun _ st' => region_step r st st')
       (fun _ => False) (fun _ => False) st.
Proof.
  induction n as [|n IH]; intros j st Hn; simp access_pages;
    destruct (Z_lt_dec j (pages_per_thread data)) as [Hlt|Hge]; simpl;
    try lia; try (apply wp_ret, region_step_refl).
  wp_steps.
  eapply wp_mono; [apply IH; lia| |done|done].
  intros [] st' Hst'. cbn beta in Hst'.
  eapply region_step_trans; [|exact Hst'].
  eapply region_step_trans; [apply region_step_load|apply region_step_store].
Qed.

Lemma trace_inv_quiet n st st' evs :
  trace_inv n st -> trace st' = trace st ++ evs ->
  Forall (fun e => no_map_no_access e = true) evs ->
  mapped st' ⊆ mapped st ->
  trace_inv n st'.
Proof.
  intros [] Htr Hev Hmap.
  destruct (no_map_no_access_spec _ Hev) as [Hev1 Hev2].
  split; rewrite Htr.
  - by apply peak_app_quiet.
  - by apply safe_app_quiet.
  - intros r Hr. apply elem_of_app. left. apply ti_made0. set_solver.
Qed.

Lemma trace_inv_region_step n r st st' :
  trace_inv n st -> r ∈ mapped st -> r ∉ unmap_ids (trace st) ->
  region_step r st st' -> trace_inv n st'.
Proof.
  intros [] Hr Hout (Hmap & evs & Htr & Hev).
  split; rewrite Htr.
  - apply peak_app_quiet; [done|].
    eapply Forall_impl; [exact Hev|]. intros e. by destruct e.
  - eapply safe_app_access; eauto.
  - intros r' Hr'. apply elem_of_app. left. apply ti_made0. by rewrite <- Hmap.
Qed.

Lemma trace_inv_mmap env n st :
  trace_inv n st -> held (trace st) < Z.of_nat n ->
  trace_inv n (final (mmap_region env st)).
Proof.
  intros [] Hheld.
  pose proof (mmap_region_trace env st) as Htr.
  pose proof (mmap_region_mapped env st) as Hmap.
  split; rewrite Htr.
  - apply peak_snoc; [done|]. rewrite held_snoc.
    destruct (mmap_ok env (mmaps st)); simpl; lia.
  - apply safe_snoc; [done|]. intros r Hr. by destruct (mmap_ok env (mmaps st)).
  - intros r Hr. rewrite Hmap in Hr. apply elem_of_app.
    destruct (mmap_ok env (mmaps st)); [|left; by apply ti_made0].
    apply elem_of_union in Hr as [Hr|Hr]; [|left; by apply ti_made0].
    apply elem_of_singleton in Hr. subst. right. by left.
Qed.

Lemma trace_inv_poll env n s st :
  trace_inv n st -> trace_inv n (final (poll env s st)).
Proof.
  intros H. eapply trace_inv_quiet; [exact H|done| |done].
  by repeat constructor.
Qed.

Section TraceInv.

Variable env : worker_env.
Variable data : thread_data.
Variable n : nat.

Lemma map_iteration_trace_inv (i : nat) st :
  table_inv env n st -> (i < n)%nat ->
  regions (drop i (memory_regions st)) = [] ->
  trace_inv n st ->
  wp (map_iteration env data i) (fun _ => trace_inv n)
     (trace_inv n) (trace_inv n) st.
Proof.
  intros [Hinv Hlen] Hi Hdrop Hti. unfold map_iteration.
  pose proof (mmap_region_trace env st) as Htr.
  pose proof (mmap_region_mapped env st) as Hmap.
  pose proof (mmap_region_frame env st) as (_&_&_&_&Hmem&_&_).
  assert (Hheld : held (trace st) <= Z.of_nat i).
  { eapply Z.le_trans; [by eapply held_le_live|].
    rewrite <- (take_drop i (memory_regions st)), regions_app, Hdrop,
      app_nil_r.
    pose proof (length_regions (take i (memory_regions st))) as Hl.
    rewrite length_take in Hl. lia. }
  assert (Hti1 : trace_inv n (final (mmap_region env st))).
  { apply trace_inv_mmap; [done|lia]. }
  apply wp_bind, wp_mmap_region. intros s Hs.
  set (st1 := final (mmap_region env st)) in *.
  wp_steps. apply wp_load_slot; simpl; rewrite Hmem.
  2:{ intros _. by destruct Hti1. }
  intros s'. rewrite list_lookup_insert_eq by lia. intros [= <-] _.
  destruct (mmap_ok env (mmaps st)) eqn:Hok; subst s.
  - eapply wp_mono; [apply touch_pages_region_step| |done|done].
    intros [] st' Hstep. cbn beta in Hstep.
    eapply trace_inv_region_step; [| | |exact Hstep]; simpl.
    + by destruct Hti1.
    + rewrite Hmap. set_solver.
    + rewrite Htr, unmap_ids_app, app_nil_r. intros Hin.
      destruct Hinv. specialize (inv_unmapped_old0 _ Hin). lia.
  - apply wp_emit.
    eapply trace_inv_quiet; [exact Hti1|done| |done].
    by repeat constructor.
Qed.

Lemma access_iteration_trace_inv (i : nat) st :
  table_inv env n st -> trace_inv n st ->
  wp (access_iteration data i) (fun _ => trace_inv n)
     (trace_inv n) (trace_inv n) st.
Proof.
  intros [Hinv Hlen] Hti. unfold access_iteration.
  apply wp_bind, wp_load_slot; [|done].
  intros [| |r] Hslot _; try by apply wp_ret.
  eapply wp_mono; [by eapply access_pages_region_step| |done|done].
  intros [] st' Hstep. cbn beta in Hstep.
  destruct Hinv. destruct (inv_live0 r) as (_ & Hr & Hout).
  { rewrite (regions_split _ _ _ Hslot). apply elem_of_app. right.
    by left. }
  by eapply trace_inv_region_step.
Qed.

Lemma release_iteration_trace_inv (i : nat) st :
  trace_inv n st ->
  wp (release_iteration env data i) (fun _ => trace_inv n)
     (trace_inv n) (trace_inv n) st.
Proof.
  intros Hti. unfold release_iteration.
  apply wp_bind, wp_load_slot; [|done].
  intros [| |r] _ _; try by apply wp_ret.
  pose proof (munmap_region_trace env ByRelease r st) as Htr.
  pose proof (munmap_region_mapped env ByRelease r st) as Hmap.
  assert (Hti1 : trace_inv n (final (munmap_region env ByRelease r st))).
  { eapply trace_inv_quiet; [exact Hti|exact Htr|by repeat constructor|].
    rewrite Hmap. destruct (munmap_ok env (munmaps st)); set_solver. }
  apply wp_bind, wp_munmap_region.
  set (st1 := final (munmap_region env ByRelease r st)) in *.
  destruct (munmap_ok env (munmaps st)); wp_steps.
  - eapply trace_inv_quiet; [exact Hti1| | |]; simpl;
      [by rewrite app_nil_r|done|done].
  - eapply trace_inv_quiet; [exact Hti1|done| |done].
    by repeat constructor.
Qed.

Lemma cleanup_iteration_trace_inv (i : nat) st :
  trace_inv n st ->
  wp (cleanup_iteration env i) (fun _ => trace_inv n)
     (trace_inv n) (trace_inv n) st.
Proof.
  intros Hti. unfold cleanup_iteration.
  apply wp_bind, wp_load_slot; [|done].
  intros [| |r] _ _; try by apply wp_ret.
  pose proof (munmap_region_trace env ByCleanup r st) as Htr.
  pose proof (munmap_region_mapped env ByCleanup r st) as Hmap.
  wp_steps.
  eapply trace_inv_quiet; [exact Hti|exact Htr|by repeat constructor|].
  rewrite Hmap. destruct (munmap_ok env (munmaps st)); set_solver.
Qed.

Lemma map_phase_trace_inv st :
  n = n_iter data ->
  table_inv env n st ->
  flag_down env st \/ regions (memory_regions st) = [] ->
  trace_inv n st ->
  wp (for_running env AtMap (map_iteration env data) n 0)
     (fun _ st' => table_inv env n st' /\ trace_inv n st')
     (trace_inv n) (trace_inv n) st.
Proof.
  intros Hn Hinv Hfresh Hti.
  apply (wp_for_running env
           (fun i st' => table_inv env n st' /\
              (flag_down env st' \/ regions (drop i (memory_regions st')) = [])
              /\ trace_inv n st'))
    with (n := n); [| | |lia|by rewrite drop_0].
  - intros i st' Hi (Hinv' & Hdrop & Hti') Hflag.
    destruct Hdrop as [Hdown|Hdrop]; [by apply flag_at_true_up in Hflag|].
    eapply wp_mono;
      [apply wp_conj;
         [apply (map_iteration_inv env data n i);
            [by apply table_inv_poll|done|done]
         |apply map_iteration_trace_inv;
            [by apply table_inv_poll|done|done|by apply trace_inv_poll]]
      | | |].
    + intros [] st'' [[? ?] ?]. split; [done|]. split; [by right|done].
    + by intros st'' [_ ?].
    + by intros st'' [_ ?].
  - intros i st' _ (Hinv' & _ & Hti') _.
    split; [by apply table_inv_poll|by apply trace_inv_poll].
  - by intros st' (? & _ & ?).
Qed.

Lemma access_phase_trace_inv st :
  table_inv env n st -> trace_inv n st ->
  wp (for_running env AtAccess (access_iteration data) n 0)
     (fun _ st' => table_inv env n st' /\ trace_inv n st')
     (trace_inv n) (trace_inv n) st.
Proof.
  intros Hinv Hti.
  apply (wp_for_running env
           (fun _ st' => table_inv env n st' /\ trace_inv n st'))
    with (n := n); [| | |lia|done].
  - intros i st' _ [Hinv' Hti'] _.
    eapply wp_mono;
      [apply wp_conj;
         [apply (access_iteration_inv env data n i); by apply table_inv_poll
         |apply access_iteration_trace_inv;
            [by apply table_inv_poll|by apply trace_inv_poll]]
      | | |].
    + by intros [] st'' [? ?].
    + by intros st'' [_ ?].
    + by intros st'' [_ ?].
  - intros i st' _ [Hinv' Hti'] _.
    split; [by apply table_inv_poll|by apply trace_inv_poll].
  - done.
Qed.

Lemma release_phase_trace_inv st :
  table_inv env n st -> trace_inv n st ->
  wp (for_running env AtRelease (release_iteration env data) n 0)
     (fun _ st' => (table_inv env n st' /\
        (flag_down env st' \/ regions (memory_regions st') = []))
        /\ trace_inv n st')
     (trace_inv n) (trace_inv n) st.
Proof.
  intros Hinv Hti.
  eapply wp_mono;
    [apply wp_conj;
       [by apply (release_phase_inv env data n)
       |apply (wp_for_running env (fun _ => trace_inv n) (trace_inv n)
                 (trace_inv n) (trace_inv n)) with (n := n); [| | |lia|exact Hti]]
    | | |].
  - intros i st' _ Hti' _. apply release_iteration_trace_inv.
    by apply trace_inv_poll.
  - intros i st' _ Hti' _. by apply trace_inv_poll.
  - done.
  - by intros [] st'.
  - by intros st' [_ ?].
  - by intros st' [_ ?].
Qed.

Lemma cycle_body_trace_inv st :
  n = n_iter data ->
  table_inv env n st ->
  flag_down env st \/ regions (memory_regions st) = [] ->
  trace_inv n st ->
  wp (cycle_body env data)
     (fun _ st' => table_inv env n st' /\
        (flag_down env st' \/ regions (memory_regions st') = []) /\
        trace_inv n st')
     (trace_inv n) (trace_inv n) st.
Proof.
  intros Hn Hinv Hfresh Hti. unfold cycle_body. rewrite <- Hn.
  apply wp_bind.
  eapply wp_mono; [by apply map_phase_trace_inv| |done|done].
  intros [] st1 [Hinv1 Hti1]. cbn beta. apply wp_bind.
  eapply wp_mono; [by apply access_phase_trace_inv| |done|done].
  intros [] st2 [Hinv2 Hti2]. cbn beta. apply wp_bind.
  eapply wp_mono; [by apply release_phase_trace_inv| |done|done].
  intros [] st3 [[Hinv3 Hfresh3] Hti3]. cbn beta. apply wp_usleep.
  split; [|split].
  - eapply table_inv_neutral; eauto.
  - destruct Hfresh3 as [?|?]; [left|by right].
    by eapply flag_down_mono.
  - eapply trace_inv_quiet; [exact Hti3|done| |done]. by repeat constructor.
Qed.

Lemma cycle_loop_trace_inv fuel start_time st :
  n = n_iter data ->
  table_inv env n st ->
  flag_down env st \/ regions (memory_regions st) = [] ->
  trace_inv n st ->
  wp (cycle_loop env data fuel start_time)
     (fun _ => trace_inv n) (trace_inv n) (trace_inv n) st.
Proof.
  intros Hn Hinv Hfresh Hti.
  apply (wp_cycle_loop env data
           (fun st' => table_inv env n st' /\
              (flag_down env st' \/ regions (memory_regions st') = []) /\
              trace_inv n st'));
    [| | |done].
  - intros st' (_ & _ & Hti') _. by apply trace_inv_poll.
  - intros st' (Hinv' & Hfresh' & Hti') Hflag st1 -> t ->.
    assert (table_inv env n
              (final (time_now env (final (poll env AtCycle st'))))).
    { eapply table_inv_neutral; [by apply table_inv_poll|..]; eauto. }
    assert (trace_inv n
              (final (time_now env (final (poll env AtCycle st'))))).
    { eapply trace_inv_quiet; [by apply (trace_inv_poll env n AtCycle)
                              |done| |done].
      by repeat constructor. }
    split; [done|]. intros _.
    apply cycle_body_trace_inv; [done|done| |done]. right.
    destruct Hfresh' as [Hdown|?]; [|done].
    by apply flag_at_true_up in Hflag.
  - by intros st' (_ & _ & ?).
Qed.

Lemma cleanup_trace_inv st :
  n = n_iter data -> trace_inv n st ->
  wp (cleanup env data) (fun _ => trace_inv n)
     (trace_inv n) (trace_inv n) st.
Proof.
  intros Hn Hti. unfold cleanup. rewrite <- Hn.
  apply (wp_for_each (fun _ => trace_inv n)) with (n := n); [|lia|done].
  intros i st' _ Hti'. by apply cleanup_iteration_trace_inv.
Qed.

End TraceInv.

Lemma run_worker_trace_inv env data fuel :
  trace_inv (n_iter data) (final (run_worker env data fuel)).
Proof.
  unfold run_worker.
  assert (H : wp (tlb_flush_worker env data fuel)
                (fun _ => trace_inv (n_iter data))
                (trace_inv (n_iter data)) (trace_inv (n_iter data))
                (init_wstate env data)).
  2:{ unfold wp in H.
      by destruct (tlb_flush_worker env data fuel (init_wstate env data)). }
  assert (Hinit : trace_inv (n_iter data) (init_wstate env data)).
  { split; simpl; [apply peak_nil|apply safe_nil|set_solver]. }
  unfold tlb_flush_worker. wp_steps. apply wp_malloc_table.
  unfold malloc_table. destruct (malloc_ok env) eqn:Hmalloc; simpl.
  - wp_steps.
    match goal with |- wp _ _ _ _ ?s => set (st0 := s) end.
    assert (Hst0 : table_inv env (n_iter data) st0).
    { split; [|apply length_replicate]. simpl.
      rewrite regions_replicate_uninit.
      apply worker_inv_init; try done. simpl. by repeat constructor. }
    assert (Hti0 : trace_inv (n_iter data) st0).
    { eapply trace_inv_quiet; [exact Hinit| | |done]; simpl.
      - rewrite <- ?app_assoc; reflexivity.
      - by repeat constructor. }
    eapply wp_mono;
      [apply (cycle_loop_trace_inv env data (n_iter data));
         [done|done|right; apply regions_replicate_uninit|done]
      | |done|done].
    intros [] st_l Hl. cbn beta. apply wp_bind.
    eapply wp_mono;
      [by apply (cleanup_trace_inv env data (n_iter data))| |done|done].
    intros [] st_c Hc. cbn beta.
    unfold merge_counter. wp_steps.
    eapply trace_inv_quiet; [exact Hc| | |done]; simpl.
    + rewrite <- ?app_assoc; reflexivity.
    + by repeat constructor.
  - wp_steps.
    eapply trace_inv_quiet; [exact Hinit| | |done]; simpl.
    + rewrite <- ?app_assoc; reflexivity.
    + by repeat constructor.
Qed.

(** At every moment of a run of [tlb_flush_worker], whatever
    [mmap] and [munmap] return and however the run ends, the mappings
    made and not yet unmapped are at most [iterations_per_cycle] plus
    the [munmap] calls that have failed so far. *)
Theorem mappings_held_bounded env data fuel (k : nat) :
  count is_mmap_ok (take k (worker_trace env data fuel))
  - count is_munmap_ok (take k (worker_trace env data fuel))
  <= Z.of_nat (n_iter data)
     + count is_munmap_failed (take k (worker_trace env data fuel)).
Proof.
  destruct (run_worker_trace_inv env data fuel) as [Hp _ _].
  specialize (Hp k). unfold held in Hp. unfold worker_trace. lia.
Qed.

(** A worker reads and writes pages only of a mapping that [mmap]
    has returned earlier in the run and that has not been passed to
    [munmap] since, successfully or not. *)
Theorem pages_accessed_only_while_mapped env data fuel pre e post (r : nat) :
  worker_trace env data fuel = pre ++ e :: post ->
  access_of e = Some r ->
  EvMmap (Region r) ∈ pre /\ r ∉ unmap_ids pre.
Proof.
  intros Htr Hacc.
  destruct (run_worker_trace_inv env data fuel) as [_ Hs _].
  by eapply Hs.
Qed.

Lemma pages_accessed_only_while_mapped_witness :
  EvMmap (Region 0) ∈ take 9 (worker_trace calm_env sample_data 5) /\
  0%nat ∉ unmap_ids (take 9 (worker_trace calm_env sample_data 5)).
Proof.
  apply (pages_accessed_only_while_mapped calm_env sample_data 5
           (take 9 (worker_trace calm_env sample_data 5)) (EvStore 0 2 2)
           (drop 10 (worker_trace calm_env sample_data 5)) 0%nat);
    [by vm_compute|reflexivity].
Defined.

(** ** The join loop after a failed [pthread_create] *)

Lemma join_all_unfilled penv outs k i :
  Forall returned outs ->
  (i <= length outs < i + k)%nat ->
  MJoin (length outs) ∈ snd (join_all penv outs k i) /\
  (join_unstarted_returns penv = false ->
   join_all penv outs k i =
     (Some UndefinedBehaviour, MJoin <$> seq i (S (length outs - i)))).
Proof.
  intros Hret. revert i. induction k as [|k IH]; intros i Hi; [lia|].
  simpl. destruct (outs !! i) as [o|] eqn:Ho.
  - destruct (proj1 (Forall_lookup _ _) Hret i o Ho) as [st ->].
    apply lookup_lt_Some in Ho.
    destruct (IH (S i)) as [Hin Hub]; [lia|].
    destruct (join_all penv outs k (S i)) as [s evs] eqn:E. simpl in *.
    split; [by right|]. intros Hun. specialize (Hub Hun).
    injection Hub as -> ->.
    replace (length outs - i)%nat with (S (length outs - S i)) by lia.
    done.
  - apply lookup_ge_None in Ho.
    replace i with (length outs) in * by lia.
    destruct (join_unstarted_returns penv).
    + destruct (join_all penv outs k (S (length outs))). simpl.
      split; [by left|done].
    + simpl. split; [by left|]. intros _. by rewrite Nat.sub_diag.
Qed.

(** When [pthread_create] fails for worker [f] and the workers started
    before it return, the join loop goes on past them and passes handle
    [f] to [pthread_join]: a cell of the [malloc]'ed array [threads] that
    [pthread_create] never filled in.  Where [pthread_join] does not come
    back from such a handle, the run of [main] ends there, after the
    joins of workers 0 to [f] - 1, in undefined behaviour and without a
    report. *)
Theorem join_loop_reaches_unfilled_handle penv opts fuel cfg (f : nat) :
  parse_options opts default_config = inr cfg ->
  threads_malloc_ok penv = true -> thread_data_malloc_ok penv = true ->
  (f < Z.to_nat (num_threads cfg))%nat ->
  create_ok penv f = false ->
  (forall j, (j < f)%nat -> create_ok penv j = true) ->
  Forall returned (run_workers (main penv opts fuel)) ->
  length (run_workers (main penv opts fuel)) = f /\
  MJoin f ∈ run_trace (main penv opts fuel) /\
  (join_unstarted_returns penv = false ->
   run_status (main penv opts fuel) = UndefinedBehaviour /\
   run_trace (main penv opts fuel) =
     setup_trace penv cfg ++ ((fun j => MCreate j true) <$> seq 0 f) ++
     [MCreate f false; MStderr (FailedToCreate (Z.of_nat f)); MClearFlag] ++
     (MJoin <$> seq 0 (S f))).
Proof.
  intros Hparse H1 H2 Hf Hfail Hok.
  rewrite (main_launched penv opts fuel cfg) by done. cbn zeta.
  rewrite (launch_fails_at penv _ 0 f)
    by (try done; try lia; intros; apply Hok; lia).
  rewrite Nat.sub_0_r. simpl fst. simpl snd.
  set (outs := worker_outcomes penv cfg fuel f).
  set (n := Z.to_nat (num_threads cfg)) in *.
  intros Hret.
  assert (Hlen : length outs = f) by apply length_worker_outcomes.
  assert (Hret' : Forall returned outs).
  { by destruct (fst (join_all penv outs n 0)). }
  destruct (join_all_unfilled penv outs n 0 Hret') as [Hin Hub]; [lia|].
  rewrite Hlen, Nat.sub_0_r in *.
  destruct (fst (join_all penv outs n 0)) as [s|] eqn:Hs;
    cbn [run_trace run_status run_workers].
  - split; [done|]. split.
    + rewrite !elem_of_app. right. by right.
    + intros Hun. rewrite (Hub Hun) in Hs |- *. simpl in Hs.
      injection Hs as <-. cbn [snd]. by rewrite <- !app_assoc.
  - split; [done|]. split.
    + rewrite !elem_of_app. right. right. by left.
    + intros Hun. by rewrite (Hub Hun) in Hs.
Qed.

Lemma join_loop_reaches_unfilled_handle_witness :
  MJoin 1 ∈ run_trace (main one_thread_strict_process two_thread_options 5) /\
  run_status (main one_thread_strict_process two_thread_options 5)
  = UndefinedBehaviour.
Proof.
  destruct (join_loop_reaches_unfilled_handle one_thread_strict_process
              two_thread_options 5 (Config 2 5 1 2) 1) as (_ & Hin & Hub).
  - reflexivity.
  - reflexivity.
  - reflexivity.
  - simpl. lia.
  - reflexivity.
  - intros j Hj. by replace j with 0%nat by lia.
  - vm_compute. constructor; [by eexists|constructor].
  - split; [exact Hin|]. by destruct Hub.
Defined.
